(** * Verification of the asynchronous stream offload engine

    A shallow embedding of

    - [boost/iostreams/async/detail/tpd.hpp]: the two-page disruptor
      [tpd<buffer_type>] with its two transactions and its result codes,
    - [src/async_ostream.cpp]: the arena [allocator::impl] (pages, [allocate],
      [add], [clear], [drain]), [stream::impl::try_drain] and [stream::~stream],
    - [boost/iostreams/async/detail/stream.ipp]: the submit path shared by
      [operator<<], [write], [when_done] and the other producers,

    followed by the predicates the properties are stated with, the
    properties themselves, and runs on concrete inputs.

    Conventions.  [std::size_t] is 64 bits wide.  The sequence numbers of the
    queue are counters, so their wrap-around is written out ([size_t_wrap]).
    Sizes and addresses handled by the arena are kept in [Z] without
    wrap-around: they are bounded by the address space, where [operator new]
    fails first.  A function returns [None] where the C++ code does not return
    normally: it spins on a spin-lock that is never released, an [assert]
    fails, memory is read that was never written, or the fuel given to a
    pointer-chasing [while] loop ran out. *)

From stdpp Require Import gmap list.
From Stdlib Require Import ZArith Lia.

Local Open Scope Z_scope.

(** Linear arithmetic with division and modulus by constants. *)
Ltac zlia := Z.to_euclidean_division_equations; lia.

(** Take apart a hypothesis [H : e = Some v] where [e] is written with the
    option monad, conditionals and destructuring lets. *)
Ltac unpair E :=
  lazymatch type of E with
  | (if ?b then _ else _) = (_, _) =>
      let E' := fresh "E" in destruct b eqn:E'; unpair E
  | (_, _) = (_, _) => injection E as ? ?; subst
  | _ => idtac
  end.

Ltac unbind H :=
  simpl in H;
  lazymatch type of H with
  | Some _ = Some _ => apply (inj Some) in H
  | None = Some _ => discriminate H
  | (mbind _ ?m) = Some _ =>
      let E := fresh "E" in
      destruct m eqn:E; simpl in H; [ unbind E; unbind H | discriminate H ]
  | (if ?b then _ else _) = Some _ =>
      let E := fresh "E" in destruct b eqn:E; unbind H
  | (let '(_, _) := ?p in _) = Some _ =>
      let E := fresh "E" in destruct p eqn:E; unpair E; unbind H
  | _ => idtac
  end.

(* ===================================================================== *)
(** * Part I: the program                                                 *)
(* ===================================================================== *)

Definition size_t_wrap (z : Z) : Z := z mod 2 ^ 64.
Global Arguments size_t_wrap : simpl never.

(** ** [tpd_consume_result] *)

Definition cr_no_more_work : Z := 0.
Definition cr_consumed : Z := Z.shiftl 1 0.
Definition cr_queue_not_empty : Z := Z.shiftl 1 1.
Definition cr_consumer_congestion : Z := Z.shiftl 1 2.
Definition cr_success : Z := Z.lor cr_consumed cr_queue_not_empty.
Definition cr_too_many_consumers : Z :=
  Z.lor cr_consumer_congestion cr_queue_not_empty.

Record tpd_consume_result := mk_consume_result { outcome_ : Z }.

Definition too_many_consumers (r : tpd_consume_result) : bool :=
  negb (Z.land (outcome_ r) cr_consumer_congestion =? 0).
Definition queue_not_empty (r : tpd_consume_result) : bool :=
  negb (Z.land (outcome_ r) cr_queue_not_empty =? 0).
Definition consumed (r : tpd_consume_result) : bool :=
  negb (Z.land (outcome_ r) cr_consumed =? 0).

(** ** [tpd_insert_result] *)

Record tpd_insert_result := mk_insert_result { new_buffer_page_ : bool }.

Definition inserting_into_new_page (r : tpd_insert_result) : bool :=
  new_buffer_page_ r.

(** ** What [tpd] asks of its [buffer_type]

    [clear] chases pointers in the arena, hence the fuel and the [option]. *)

Class buffer_ops (buffer_type : Type) := {
  get_sequence_number : buffer_type -> Z;
  set_sequence_number : Z -> buffer_type -> buffer_type;
  clear : nat -> buffer_type -> option buffer_type
}.

(** The two buffer pages handed to [tpd::init]; a [buffer_type*] is [None]
    (NULL) or the address of one of them. *)
Inductive buffer_ptr := buffer1 | buffer2.

Global Instance buffer_ptr_eq_dec : EqDecision buffer_ptr.
Proof. solve_decision. Defined.

(** The two spin-locks of the queue. *)
Inductive spinlock_name := inserting | consuming.

(** Ghost trace of the lock operations and of the page swaps, each swap with
    the state of both locks at the moment [switch_pages] is entered. *)
Inductive event :=
| ev_lock (l : spinlock_name)
| ev_unlock (l : spinlock_name)
| ev_switch_pages (inserting_locked consuming_locked : bool).

Global Instance spinlock_name_eq_dec : EqDecision spinlock_name.
Proof. solve_decision. Defined.

Global Instance event_eq_dec : EqDecision event.
Proof. solve_decision. Defined.

(** ** [tpd<buffer_type>] *)

Record tpd := mk_tpd {
  (* cache line #1 *)
  inserting_ : bool;
  last_inserted_sequence_number_ : Z;
  inserter_switched_pages_ : Z;
  seq_no_generator_ : Z;
  (* cache line #2 *)
  consuming_ : bool;
  last_consumed_sequence_number_ : Z;
  (* cache line #3 *)
  inserter_ : option buffer_ptr;
  consumer_ : option buffer_ptr;
  last_enqueued_sequence_number_ : Z;
  (* cache line #4 *)
  consumer_couldnt_switch_ : Z
}.

Definition set_inserting_ (v : bool) (q : tpd) : tpd :=
  mk_tpd v (last_inserted_sequence_number_ q) (inserter_switched_pages_ q)
    (seq_no_generator_ q) (consuming_ q) (last_consumed_sequence_number_ q)
    (inserter_ q) (consumer_ q) (last_enqueued_sequence_number_ q)
    (consumer_couldnt_switch_ q).
Definition set_last_inserted_sequence_number_ (v : Z) (q : tpd) : tpd :=
  mk_tpd (inserting_ q) v (inserter_switched_pages_ q)
    (seq_no_generator_ q) (consuming_ q) (last_consumed_sequence_number_ q)
    (inserter_ q) (consumer_ q) (last_enqueued_sequence_number_ q)
    (consumer_couldnt_switch_ q).
Definition set_inserter_switched_pages_ (v : Z) (q : tpd) : tpd :=
  mk_tpd (inserting_ q) (last_inserted_sequence_number_ q) v
    (seq_no_generator_ q) (consuming_ q) (last_consumed_sequence_number_ q)
    (inserter_ q) (consumer_ q) (last_enqueued_sequence_number_ q)
    (consumer_couldnt_switch_ q).
Definition set_seq_no_generator_ (v : Z) (q : tpd) : tpd :=
  mk_tpd (inserting_ q) (last_inserted_sequence_number_ q)
    (inserter_switched_pages_ q) v (consuming_ q)
    (last_consumed_sequence_number_ q) (inserter_ q) (consumer_ q)
    (last_enqueued_sequence_number_ q) (consumer_couldnt_switch_ q).
Definition set_consuming_ (v : bool) (q : tpd) : tpd :=
  mk_tpd (inserting_ q) (last_inserted_sequence_number_ q)
    (inserter_switched_pages_ q) (seq_no_generator_ q) v
    (last_consumed_sequence_number_ q) (inserter_ q) (consumer_ q)
    (last_enqueued_sequence_number_ q) (consumer_couldnt_switch_ q).
Definition set_last_consumed_sequence_number_ (v : Z) (q : tpd) : tpd :=
  mk_tpd (inserting_ q) (last_inserted_sequence_number_ q)
    (inserter_switched_pages_ q) (seq_no_generator_ q) (consuming_ q) v
    (inserter_ q) (consumer_ q) (last_enqueued_sequence_number_ q)
    (consumer_couldnt_switch_ q).
Definition set_inserter_ (v : option buffer_ptr) (q : tpd) : tpd :=
  mk_tpd (inserting_ q) (last_inserted_sequence_number_ q)
    (inserter_switched_pages_ q) (seq_no_generator_ q) (consuming_ q)
    (last_consumed_sequence_number_ q) v (consumer_ q)
    (last_enqueued_sequence_number_ q) (consumer_couldnt_switch_ q).
Definition set_consumer_ (v : option buffer_ptr) (q : tpd) : tpd :=
  mk_tpd (inserting_ q) (last_inserted_sequence_number_ q)
    (inserter_switched_pages_ q) (seq_no_generator_ q) (consuming_ q)
    (last_consumed_sequence_number_ q) (inserter_ q) v
    (last_enqueued_sequence_number_ q) (consumer_couldnt_switch_ q).
Definition set_last_enqueued_sequence_number_ (v : Z) (q : tpd) : tpd :=
  mk_tpd (inserting_ q) (last_inserted_sequence_number_ q)
    (inserter_switched_pages_ q) (seq_no_generator_ q) (consuming_ q)
    (last_consumed_sequence_number_ q) (inserter_ q) (consumer_ q) v
    (consumer_couldnt_switch_ q).
Definition set_consumer_couldnt_switch_ (v : Z) (q : tpd) : tpd :=
  mk_tpd (inserting_ q) (last_inserted_sequence_number_ q)
    (inserter_switched_pages_ q) (seq_no_generator_ q) (consuming_ q)
    (last_consumed_sequence_number_ q) (inserter_ q) (consumer_ q)
    (last_enqueued_sequence_number_ q) v.

(** [tpd()]: the fields the constructor leaves uninitialised read as 0. *)
Definition tpd_ctor : tpd :=
  mk_tpd false 0 0 1 false 0 None None 0 0.

Definition initialized (q : tpd) : bool :=
  bool_decide (inserter_ q <> None) && bool_decide (consumer_ q <> None).

(** [tpd::empty], with its [assert(initialized())]. *)
Definition tpd_empty (q : tpd) : option bool :=
  if initialized q
  then Some (last_inserted_sequence_number_ q =? last_consumed_sequence_number_ q)
  else None.

(** [tpd::size]. *)
Definition tpd_size (q : tpd) : Z :=
  let c := last_consumed_sequence_number_ q in
  let i := last_inserted_sequence_number_ q in
  size_t_wrap (i - c).

(** The transactions.  [parent_] points to the queue that opened the
    transaction or is NULL; there is one queue, so a [bool] tells which. *)
Record insert_transaction := mk_insert_transaction {
  it_buffer_ : option buffer_ptr;
  it_parent_ : bool
}.

Record consume_transaction := mk_consume_transaction {
  ct_buffer_ : option buffer_ptr;
  ct_parent_ : bool
}.

(** [insert_transaction()] and [consume_transaction()]. *)
Definition insert_transaction_ctor : insert_transaction :=
  mk_insert_transaction None false.
Definition consume_transaction_ctor : consume_transaction :=
  mk_consume_transaction None false.

(** [init(buffer, parent)] of either transaction:
    [assert(!buffer_ && !parent_)]. *)
Definition insert_transaction_init (buffer : option buffer_ptr)
    (t : insert_transaction) : option insert_transaction :=
  if bool_decide (it_buffer_ t = None) && negb (it_parent_ t)
  then Some (mk_insert_transaction buffer true) else None.

Definition consume_transaction_init (buffer : option buffer_ptr)
    (t : consume_transaction) : option consume_transaction :=
  if bool_decide (ct_buffer_ t = None) && negb (ct_parent_ t)
  then Some (mk_consume_transaction buffer true) else None.

Section tpd.
Context {buffer_type : Type} {BT : buffer_ops buffer_type}.

(** The queue together with the two pages its pointers refer to (in
    [stream::impl]: [buffer_], [page1_], [page2_]) and the ghost trace. *)
Record tpd_store := mk_store {
  queue : tpd;
  at_buffer1 : buffer_type;
  at_buffer2 : buffer_type;
  trace : list event
}.

Definition deref (p : buffer_ptr) (s : tpd_store) : buffer_type :=
  match p with buffer1 => at_buffer1 s | buffer2 => at_buffer2 s end.

Definition assign (p : buffer_ptr) (b : buffer_type) (s : tpd_store) : tpd_store :=
  match p with
  | buffer1 => mk_store (queue s) b (at_buffer2 s) (trace s)
  | buffer2 => mk_store (queue s) (at_buffer1 s) b (trace s)
  end.

Definition with_queue (f : tpd -> tpd) (s : tpd_store) : tpd_store :=
  mk_store (f (queue s)) (at_buffer1 s) (at_buffer2 s) (trace s).

Definition emit (e : event) (s : tpd_store) : tpd_store :=
  mk_store (queue s) (at_buffer1 s) (at_buffer2 s) (trace s ++ [e]).

(** [boost::detail::spinlock]. *)
Definition locked (l : spinlock_name) (s : tpd_store) : bool :=
  match l with
  | inserting => inserting_ (queue s)
  | consuming => consuming_ (queue s)
  end.

Definition set_locked (l : spinlock_name) (v : bool) (s : tpd_store) : tpd_store :=
  match l with
  | inserting => with_queue (set_inserting_ v) s
  | consuming => with_queue (set_consuming_ v) s
  end.

(** [spinlock::try_lock]. *)
Definition try_lock (l : spinlock_name) (s : tpd_store) : bool * tpd_store :=
  if locked l s then (false, s)
  else (true, emit (ev_lock l) (set_locked l true s)).

(** [spinlock::unlock]. *)
Definition unlock (l : spinlock_name) (s : tpd_store) : tpd_store :=
  emit (ev_unlock l) (set_locked l false s).

(** [spinlock::lock]: spins while the lock is taken.  Within one call
    nobody else runs, so a taken lock means the call never returns. *)
Definition lock (l : spinlock_name) (s : tpd_store) : option tpd_store :=
  if locked l s then None
  else Some (emit (ev_lock l) (set_locked l true s)).

(** [~scoped_try_lock]. *)
Definition scoped_try_lock_dtor (l : spinlock_name) (locked_ : bool)
    (s : tpd_store) : tpd_store :=
  if locked_ then unlock l s else s.

(** [tpd::init(buffer1, buffer2)]. *)
Definition init (b1 b2 : option buffer_ptr) (s : tpd_store) : option tpd_store :=
  if initialized (queue s) then None else
  p1 ← b1; p2 ← b2;
  let q := queue s in
  let q := set_inserting_ false q in
  let q := set_consuming_ false q in
  let q := set_inserter_ (Some p1) q in
  let q := set_consumer_ (Some p2) q in
  let q := set_last_inserted_sequence_number_ 1 q in
  let q := set_last_enqueued_sequence_number_ 1 q in
  let q := set_last_consumed_sequence_number_ 1 q in
  let q := set_consumer_couldnt_switch_ 0 q in
  let q := set_inserter_switched_pages_ 0 q in
  let s := with_queue (fun _ => q) s in
  let s := assign p2 (set_sequence_number 0 (deref p2 s)) s in
  let s := assign p1 (set_sequence_number 0 (deref p1 s)) s in
  Some s.

(** [tpd::switch_pages]. *)
Definition switch_pages (s : tpd_store) : option tpd_store :=
  let s := emit (ev_switch_pages (locked inserting s) (locked consuming s)) s in
  (* swap first *)
  let temp := inserter_ (queue s) in
  let s := with_queue (set_inserter_ (consumer_ (queue s))) s in
  let s := with_queue (set_consumer_ temp) s in
  (* indicate through sequence numbers next *)
  c ← consumer_ (queue s);
  let csn := get_sequence_number (deref c s) in
  if csn >? last_enqueued_sequence_number_ (queue s)
  then Some (with_queue (set_last_enqueued_sequence_number_ csn) s)
  else None.

(** [tpd::warmup_before_inserting]. *)
Definition warmup_before_inserting (fuel : nat) (s : tpd_store) : option tpd_store :=
  if negb (initialized (queue s)) then None else
  s ← lock inserting s;
  i ← inserter_ (queue s);
  let isn := get_sequence_number (deref i s) in
  let esn := last_enqueued_sequence_number_ (queue s) in
  s ← (if isn <? esn then
         b ← clear fuel (deref i s);
         Some (assign i (set_sequence_number esn b) s)
       else Some s);
  Some (unlock inserting s).

(** [tpd::begin_insert]. *)
Definition begin_insert (fuel : nat) (transaction : insert_transaction)
    (s : tpd_store) : option (tpd_insert_result * insert_transaction * tpd_store) :=
  if negb (initialized (queue s)) then None else
  if negb (bool_decide (it_buffer_ transaction = None)) then None else
  s ← lock inserting s;
  let sequence_number := size_t_wrap (seq_no_generator_ (queue s) + 1) in
  let s := with_queue (set_seq_no_generator_ sequence_number) s in
  transaction ← insert_transaction_init (inserter_ (queue s)) transaction;
  i ← inserter_ (queue s);
  let isn := get_sequence_number (deref i s) in
  let esn := last_enqueued_sequence_number_ (queue s) in
  '(result, s) ← (if isn <=? esn then
                    if isn <? esn then
                      b ← clear fuel (deref i s);
                      Some (mk_insert_result true, assign i b s)
                    else Some (mk_insert_result true, s)
                  else Some (mk_insert_result false, s));
  let s := assign i (set_sequence_number sequence_number (deref i s)) s in
  let s := with_queue (set_last_inserted_sequence_number_ sequence_number) s in
  Some (result, transaction, s).

(** [tpd::insert_transaction::commit]. *)
Definition insert_transaction_commit (t : insert_transaction) (s : tpd_store)
    : option (insert_transaction * tpd_store) :=
  s ← (if it_parent_ t then
         s ← (if negb (inserter_switched_pages_ (queue s)
                        =? consumer_couldnt_switch_ (queue s)) then
                let '(consumer_not_consuming_now, s) := try_lock consuming s in
                s ← (if consumer_not_consuming_now
                        && negb (last_enqueued_sequence_number_ (queue s)
                                 >? last_consumed_sequence_number_ (queue s))
                     then
                       s ← switch_pages s;
                       Some (with_queue (set_inserter_switched_pages_
                               (consumer_couldnt_switch_ (queue s))) s)
                     else Some s);
                Some (scoped_try_lock_dtor consuming consumer_not_consuming_now s)
              else Some s);
         Some (unlock inserting s)
       else Some s);
  Some (mk_insert_transaction None false, s).

(** [tpd::try_consume]. *)
Definition try_consume (transaction : consume_transaction) (s : tpd_store)
    : option (tpd_consume_result * consume_transaction * tpd_store) :=
  if negb (initialized (queue s)) then None else
  if negb (bool_decide (ct_buffer_ transaction = None)) then None else
  let acquire (s : tpd_store) :=
    let '(got, s) := try_lock consuming s in
    if negb got
    then Some (mk_consume_result cr_too_many_consumers, transaction, s)
    else
      transaction ← consume_transaction_init (consumer_ (queue s)) transaction;
      c ← consumer_ (queue s);
      let s := with_queue (set_last_consumed_sequence_number_
                             (get_sequence_number (deref c s))) s in
      Some (mk_consume_result cr_success, transaction, s) in
  if negb (last_enqueued_sequence_number_ (queue s)
           >? last_consumed_sequence_number_ (queue s)) then
    let '(inserter_not_inserting_now, s) := try_lock inserting s in
    if negb inserter_not_inserting_now then
      let s := with_queue (set_consumer_couldnt_switch_
                 (size_t_wrap (consumer_couldnt_switch_ (queue s) + 1))) s in
      Some (mk_consume_result cr_queue_not_empty, transaction, s)
    else if last_inserted_sequence_number_ (queue s)
            >? last_enqueued_sequence_number_ (queue s) then
      s ← switch_pages s;
      if negb (last_enqueued_sequence_number_ (queue s)
               >? last_consumed_sequence_number_ (queue s))
      then Some (mk_consume_result cr_no_more_work, transaction,
                 unlock inserting s)
      else acquire (unlock inserting s)
    else Some (mk_consume_result cr_no_more_work, transaction,
               unlock inserting s)
  else acquire s.

(** [tpd::consume_transaction::commit]. *)
Definition consume_transaction_commit (t : consume_transaction) (s : tpd_store)
    : option (consume_transaction * tpd_store) :=
  s ← (if ct_parent_ t then
         let '(inserter_not_inserting_now, s) := try_lock inserting s in
         s ← (if inserter_not_inserting_now
                 && (last_inserted_sequence_number_ (queue s)
                     >? last_enqueued_sequence_number_ (queue s))
              then switch_pages s else Some s);
         let s := scoped_try_lock_dtor inserting inserter_not_inserting_now s in
         Some (unlock consuming s)
       else Some s);
  Some (mk_consume_transaction None false, s).

(** [~insert_transaction] and [~consume_transaction] only commit. *)
Definition insert_transaction_dtor := insert_transaction_commit.
Definition consume_transaction_dtor := consume_transaction_commit.

End tpd.

Arguments tpd_store : clear implicits.

(** ** The queue driven call by call

    Threads use the queue through whole calls.  Between two calls the state is
    the store together with the transaction a producer has open and the one a
    consumer has open (each call site constructs a fresh transaction, as
    [stream::operator<<] and [stream::impl::try_drain] do).  A call that would
    spin on [inserting_] is not enabled. *)

Section tpd_system.
Context {buffer_type : Type} {BT : buffer_ops buffer_type}.

Record system := mk_system {
  sys_store : tpd_store buffer_type;
  producer_txn : insert_transaction;
  consumer_txn : consume_transaction
}.

Inductive operation :=
| op_begin_insert (fuel : nat)
| op_insert_commit
| op_try_consume
| op_consume_commit
| op_warmup (fuel : nat).

Definition step (o : operation) (y : system) : option system :=
  match o with
  | op_begin_insert fuel =>
      '(_, t, s) ← begin_insert fuel insert_transaction_ctor (sys_store y);
      Some (mk_system s t (consumer_txn y))
  | op_insert_commit =>
      '(t, s) ← insert_transaction_commit (producer_txn y) (sys_store y);
      Some (mk_system s t (consumer_txn y))
  | op_try_consume =>
      '(r, t, s) ← try_consume consume_transaction_ctor (sys_store y);
      Some (mk_system s (producer_txn y)
              (if consumed r then t else consumer_txn y))
  | op_consume_commit =>
      '(t, s) ← consume_transaction_commit (consumer_txn y) (sys_store y);
      Some (mk_system s (producer_txn y) t)
  | op_warmup fuel =>
      s ← warmup_before_inserting fuel (sys_store y);
      Some (mk_system s (producer_txn y) (consumer_txn y))
  end.

(** [reachable n y]: [y] is reached by [n] calls after
    [init(&page1_, &page2_)] on a freshly constructed queue. *)
Inductive reachable : nat -> system -> Prop :=
| reach_init b1 b2 s :
    init (Some buffer1) (Some buffer2) (mk_store tpd_ctor b1 b2 []) = Some s ->
    reachable 0 (mk_system s insert_transaction_ctor consume_transaction_ctor)
| reach_step n y o y' :
    reachable n y -> step o y = Some y' -> reachable (S n) y'.

(** How often [ev_unlock l] occurs in a trace. *)
Definition releases (l : spinlock_name) (tr : list event) : nat :=
  length (filter (fun e => e = ev_unlock l) tr).

End tpd_system.

Arguments system : clear implicits.

(** ** The arena: [allocator::impl]

    A pointer is an address in [Z], NULL is 0.  [cells] holds the [size_t]
    words that were written (the forward links), [objects] the work item
    constructed at an address by placement [new], [pages] the live [page]
    objects.  [operator new] hands out fresh addresses from [brk] upwards and
    never reuses one; [delete] removes the page from [pages].  Payload bytes
    copied into the arena by a work item's constructor are not represented. *)

Definition sizeof_size_t : Z := 8.
Definition sizeof_page_break : Z := 8.  (* the v-table pointer *)
Definition sizeof_page : Z := 24.
Definition page_break_size_in_std_size_ts : Z :=
  (sizeof_page_break + sizeof_size_t - 1) / sizeof_size_t.

(** [&p[k]] for [std::size_t* p]. *)
Definition index (p k : Z) : Z := p + sizeof_size_t * k.

(** What a work item's [apply] may throw: the catch clauses of [drain] only
    look at whether the object is a [boost::exception], a [std::exception]. *)
Record thrown := mk_thrown {
  what : nat;
  is_boost_exception : bool;
  is_std_exception : bool
}.

(** The calls received by the [error_policy]. *)
Inductive ep_call :=
| catch_boost_exception (e : thrown)
| catch_std_exception (e : thrown)
| catch_unknown_exception.

Record page := mk_page {
  storage_begin_ : Z;
  storage_end_ : Z;
  next_ : Z
}.

Section arena.
(** The state of the [std::ostream*] and [std::istream*] targets. *)
Context {iostreams : Type}.

(** [formatter_or_parser]: an object with the one virtual method [apply],
    which returns normally or throws. *)
Record formatter_or_parser := mk_formatter_or_parser {
  apply : iostreams -> iostreams * option thrown
}.

(** [page_break::apply]: do exactly nothing. *)
Definition page_break : formatter_or_parser :=
  mk_formatter_or_parser (fun io => (io, None)).

(** What the drain acts on outside the arena. *)
Record outside := mk_outside {
  io : iostreams;
  ep_calls : list ep_call
}.

Record impl := mk_impl {
  cursor_ : Z;
  prev_cursor_ : Z;
  end_of_page_ : Z;
  first_ : Z;
  last_ : Z;
  ep_ : bool;  (* error_policy*: is it non-NULL? *)
  last_allocated_ : Z;
  cells : gmap Z Z;
  objects : gmap Z formatter_or_parser;
  pages : gmap Z page;
  brk : Z
}.

Definition set_cursor_ (v : Z) (a : impl) : impl :=
  mk_impl v (prev_cursor_ a) (end_of_page_ a) (first_ a) (last_ a) (ep_ a)
    (last_allocated_ a) (cells a) (objects a) (pages a) (brk a).
Definition set_prev_cursor_ (v : Z) (a : impl) : impl :=
  mk_impl (cursor_ a) v (end_of_page_ a) (first_ a) (last_ a) (ep_ a)
    (last_allocated_ a) (cells a) (objects a) (pages a) (brk a).
Definition set_end_of_page_ (v : Z) (a : impl) : impl :=
  mk_impl (cursor_ a) (prev_cursor_ a) v (first_ a) (last_ a) (ep_ a)
    (last_allocated_ a) (cells a) (objects a) (pages a) (brk a).
Definition set_first_ (v : Z) (a : impl) : impl :=
  mk_impl (cursor_ a) (prev_cursor_ a) (end_of_page_ a) v (last_ a) (ep_ a)
    (last_allocated_ a) (cells a) (objects a) (pages a) (brk a).
Definition set_last_ (v : Z) (a : impl) : impl :=
  mk_impl (cursor_ a) (prev_cursor_ a) (end_of_page_ a) (first_ a) v (ep_ a)
    (last_allocated_ a) (cells a) (objects a) (pages a) (brk a).
Definition set_last_allocated_ (v : Z) (a : impl) : impl :=
  mk_impl (cursor_ a) (prev_cursor_ a) (end_of_page_ a) (first_ a) (last_ a)
    (ep_ a) v (cells a) (objects a) (pages a) (brk a).
Definition set_cells (v : gmap Z Z) (a : impl) : impl :=
  mk_impl (cursor_ a) (prev_cursor_ a) (end_of_page_ a) (first_ a) (last_ a)
    (ep_ a) (last_allocated_ a) v (objects a) (pages a) (brk a).
Definition set_objects (v : gmap Z formatter_or_parser) (a : impl) : impl :=
  mk_impl (cursor_ a) (prev_cursor_ a) (end_of_page_ a) (first_ a) (last_ a)
    (ep_ a) (last_allocated_ a) (cells a) v (pages a) (brk a).
Definition set_pages (v : gmap Z page) (a : impl) : impl :=
  mk_impl (cursor_ a) (prev_cursor_ a) (end_of_page_ a) (first_ a) (last_ a)
    (ep_ a) (last_allocated_ a) (cells a) (objects a) v (brk a).
Definition set_brk (v : Z) (a : impl) : impl :=
  mk_impl (cursor_ a) (prev_cursor_ a) (end_of_page_ a) (first_ a) (last_ a)
    (ep_ a) (last_allocated_ a) (cells a) (objects a) (pages a) v.

(** [*p] read and [*p = v] through a [std::size_t* p]. *)
Definition peek (p : Z) (a : impl) : option Z :=
  if p =? 0 then None else cells a !! p.

Definition poke (p v : Z) (a : impl) : option impl :=
  if p =? 0 then None else Some (set_cells (<[p := v]> (cells a)) a).

(** [new page(size)]: the [page] object, then its storage of
    [(size + 7) / 8 + page_break_size_in_std_size_ts] words, of which only
    the first is written. *)
Definition new_page (size : Z) (a : impl) : Z * impl :=
  let p := brk a in
  let storage_begin := p + sizeof_page in
  let words := (size + sizeof_size_t - 1) / sizeof_size_t
               + page_break_size_in_std_size_ts in
  let pg := mk_page storage_begin
              (index storage_begin (size / sizeof_size_t)) 0 in
  let a := set_brk (index storage_begin words) a in
  let a := set_pages (<[p := pg]> (pages a)) a in
  let a := set_cells (<[storage_begin := 0]> (cells a)) a in
  (p, a).

(** [delete p] for a [page* p]. *)
Definition delete_page (p : Z) (a : impl) : impl :=
  set_pages (delete p (pages a)) a.

(** The loop of [clear_contents]. *)
Fixpoint clear_contents_loop (fuel : nat) (cursor : Z) (a : impl)
    : option impl :=
  match fuel with
  | O => None
  | S fuel =>
      link ← peek cursor a;
      if link =? 0 then Some a
      else
        (* write_me->~formatter_or_parser() *)
        let a := set_objects (delete (index cursor 1) (objects a)) a in
        clear_contents_loop fuel link a
  end.

Definition clear_contents (fuel : nat) (a : impl) : option impl :=
  first ← pages a !! first_ a;
  a ← clear_contents_loop fuel (storage_begin_ first) a;
  poke (storage_begin_ first) 0 a.

(** The loop of [clear_extra_pages]. *)
Fixpoint clear_extra_pages_loop (fuel : nat) (a : impl) : option impl :=
  match fuel with
  | O => None
  | S fuel =>
      if first_ a =? last_ a then Some a
      else
        first ← pages a !! first_ a;
        let next := next_ first in
        let a := delete_page (first_ a) a in
        clear_extra_pages_loop fuel (set_first_ next a)
  end.

Definition clear_extra_pages (fuel : nat) (a : impl) : option impl :=
  a ← clear_extra_pages_loop fuel a;
  let a := set_prev_cursor_ 0 a in
  first ← pages a !! first_ a;
  let a := set_cursor_ (storage_begin_ first) a in
  let a := set_end_of_page_ (storage_end_ first) a in
  poke (cursor_ a) 0 a.

(** [allocator::impl::clear]. *)
Definition impl_clear (fuel : nat) (a : impl) : option impl :=
  a ← clear_contents fuel a;
  a ← clear_extra_pages fuel a;
  Some (set_last_allocated_ 0 a).

(** [allocator::impl::impl(ep)]; [base] is where [operator new] starts. *)
Definition impl_ctor (fuel : nat) (base : Z) (ep : bool) : option impl :=
  let a := mk_impl 0 0 0 0 0 ep 0 ∅ ∅ ∅ base in
  let '(p, a) :=
    new_page (4096 - sizeof_size_t * page_break_size_in_std_size_ts) a in
  let a := set_last_ p (set_first_ p a) in
  impl_clear fuel a.

(** The size [allocate] asks of [new page] when it grows the chain; [size]
    is the local variable, which [allocate] has decremented by then. *)
Definition grown_page_size (size : Z) (last : page) : Z :=
  let newSize := 2 * (storage_end_ last - storage_begin_ last) in
  if newSize <? 2 * size then 2 * size else newSize.

(** [allocator::impl::allocate]. *)
Definition allocate (size : Z) (a : impl) : option (Z * impl) :=
  if size =? 0 then None else
  let size := size - 1 in
  let next :=
    index (cursor_ a) (1 + (size + sizeof_size_t - 1) / sizeof_size_t) in
  if next <? end_of_page_ a then
    (* stay on this page *)
    let a := set_last_allocated_ (cursor_ a) a in
    let a := set_cursor_ next a in
    a ← poke (prev_cursor_ a) (cursor_ a) a;
    a ← poke (cursor_ a) 0 a;
    Some (last_allocated_ a, a)
  else
    (* allocate another page *)
    last ← pages a !! last_ a;
    let newSize := grown_page_size size last in
    let '(next_page, a) := new_page newSize a in
    let a := set_pages (<[last_ a := mk_page (storage_begin_ last)
                            (storage_end_ last) next_page]> (pages a)) a in
    let a := set_last_ next_page a in
    np ← pages a !! next_page;
    let a := set_end_of_page_ (storage_end_ np) a in
    a ← (if prev_cursor_ a =? cursor_ a then
           let a := set_objects
                      (<[index (cursor_ a) 1 := page_break]> (objects a)) a in
           a ← poke (prev_cursor_ a) (storage_begin_ np) a;
           Some (set_prev_cursor_ (storage_begin_ np) a)
         else Some a);
    let a := set_cursor_ (storage_begin_ np) a in
    let a := set_last_allocated_ (cursor_ a) a in
    let a := set_cursor_
      (index (cursor_ a) (1 + (size + sizeof_size_t - 1) / sizeof_size_t)) a in
    a ← poke (prev_cursor_ a) (cursor_ a) a;
    a ← poke (cursor_ a) 0 a;
    Some (last_allocated_ a, a).

(** [allocator::impl::add]. *)
Definition add (size : Z) (a : impl) : option (Z * impl) :=
  let a := set_prev_cursor_ (cursor_ a) a in
  '(allocated, a) ← allocate (size + sizeof_size_t) a;
  Some (index allocated 1, a).

(** The body of the loop of [drain]: [worklet->apply(o, i)] inside the
    [try], then the three [catch] clauses in their order. *)
Definition report (c : ep_call) (ep : bool) (out : outside) : outside :=
  if ep then mk_outside (io out) (ep_calls out ++ [c]) else out.

Definition apply_caught (ep : bool) (worklet : formatter_or_parser)
    (out : outside) : outside :=
  match apply worklet (io out) with
  | (io', None) => mk_outside io' (ep_calls out)
  | (io', Some e) =>
      let out := mk_outside io' (ep_calls out) in
      if is_boost_exception e then report (catch_boost_exception e) ep out
      else if is_std_exception e then report (catch_std_exception e) ep out
      else report catch_unknown_exception ep out
  end.

Fixpoint drain_loop (fuel : nat) (cursor : Z) (went_through : Z) (a : impl)
    (out : outside) : option outside :=
  match fuel with
  | O => None
  | S fuel =>
      link ← peek cursor a;
      if link =? 0 then Some out
      else
        worklet ← objects a !! index cursor 1;
        let out := apply_caught (ep_ a) worklet out in
        drain_loop fuel link (went_through + 1) a out
  end.

(** [allocator::impl::drain]. *)
Definition drain (fuel : nat) (a : impl) (out : outside) : option outside :=
  first ← pages a !! first_ a;
  drain_loop fuel (storage_begin_ first) 0 a out.

(** [allocator]: the sequence number and the [impl]. *)
Record allocator := mk_allocator {
  sequence_number_ : Z;
  impl_ : impl
}.

Definition allocator_ctor (fuel : nat) (base : Z) (ep : bool)
    : option allocator :=
  a ← impl_ctor fuel base ep;
  Some (mk_allocator 0 a).

Definition allocator_clear (fuel : nat) (b : allocator) : option allocator :=
  a ← impl_clear fuel (impl_ b);
  Some (mk_allocator (sequence_number_ b) a).

Global Instance allocator_buffer : buffer_ops allocator := {
  get_sequence_number b := sequence_number_ b;
  set_sequence_number s b := mk_allocator s (impl_ b);
  clear := allocator_clear
}.

End arena.

Arguments formatter_or_parser : clear implicits.
Arguments outside : clear implicits.
Arguments impl : clear implicits.
Arguments allocator : clear implicits.

(** ** The stream: [stream::impl], the submit path, [try_drain], [~stream] *)

Section stream.
Context {iostreams : Type}.

(** [ostream_->flush()] on the bound sink (the identity when the stream has
    no [ostream_]). *)
Variable ostream_flush : iostreams -> iostreams.

Let worklet := formatter_or_parser iostreams.
Let arena := allocator iostreams.

(** One call of a producer API ([operator<<], [write], [when_done], ...):
    the work item it constructs in place, [sizeof] of its type, and the
    sizes its constructor passes to [alloc.allocate] for copied payload. *)
Record submission := mk_submission {
  item : worklet;
  sizeof_item : Z;
  payload : list Z
}.

Fixpoint allocate_all (sizes : list Z) (a : impl iostreams)
    : option (impl iostreams) :=
  match sizes with
  | [] => Some a
  | size :: sizes => '(_, a) ← allocate size a; allocate_all sizes a
  end.

(** [new (location) W(value, *transaction.buffer())]. *)
Definition construct (location : Z) (w : submission) (a : impl iostreams)
    : option (impl iostreams) :=
  a ← allocate_all (payload w) a;
  Some (set_objects (<[location := item w]> (objects a)) a).

(** [add] followed by the placement [new], on one arena. *)
Definition place (w : submission) (a : impl iostreams)
    : option (impl iostreams) :=
  '(location, a) ← add (sizeof_item w) a;
  construct location w a.

(** The body shared by [stream::operator<<], [stream::write],
    [stream::when_done], ...; the transaction commits when it goes out of
    scope.  [signal_work_available] only wakes the service. *)
Definition submit (fuel : nat) (w : submission) (s : tpd_store arena)
    : option (tpd_store arena) :=
  '(_, transaction, s) ← begin_insert fuel insert_transaction_ctor s;
  b ← it_buffer_ transaction;
  a ← place w (impl_ (deref b s));
  let s := assign b (mk_allocator (sequence_number_ (deref b s)) a) s in
  '(_, s) ← insert_transaction_dtor transaction s;
  Some s.

(** [stream::impl::flush]. *)
Definition flush (out : outside iostreams) : outside iostreams :=
  mk_outside (ostream_flush (io out)) (ep_calls out).

(** [stream::impl::try_drain]; [inner] is the fuel of each arena drain. *)
Fixpoint try_drain_loop (inner fuel : nat) (result : bool)
    (s : tpd_store arena) (out : outside iostreams)
    : option (bool * tpd_store arena * outside iostreams) :=
  match fuel with
  | O => None
  | S fuel =>
      '(r, t, s) ← try_consume consume_transaction_ctor s;
      if negb (consumed r) then
        '(_, s) ← consume_transaction_dtor t s;
        Some (result, s, out)
      else
        b ← ct_buffer_ t;
        out ← drain inner (impl_ (deref b s)) out;
        '(_, s) ← consume_transaction_dtor t s;
        try_drain_loop inner fuel true s out
  end.

Definition try_drain (fuel : nat) (s : tpd_store arena)
    (out : outside iostreams) :=
  try_drain_loop fuel fuel false s out.

(** [service::impl::run], as far as it concerns this stream. *)
Definition run (fuel : nat) (s : tpd_store arena) (out : outside iostreams)
    : option (bool * tpd_store arena * outside iostreams) :=
  '(result, s, out) ← try_drain fuel s out;
  Some (result, s, if (result : bool) then flush out else out).

(** The service's registry, the stream's [impl_] (NULL once deleted) and
    the outside world. *)
Record world := mk_world {
  streams_ : list nat;
  stream_impl_ : option (tpd_store arena);
  out_ : outside iostreams
}.

(** [service::impl::add] and [service::impl::remove]. *)
Definition service_add (s : nat) (streams : list nat) : list nat :=
  streams ++ [s].

Fixpoint service_remove (s : nat) (streams : list nat) : list nat :=
  match streams with
  | [] => []
  | i :: rest => if Nat.eqb i s then rest else i :: service_remove s rest
  end.

(** [stream::stream(target, service)]: the two arenas, [buffer_.init],
    registration. *)
Definition stream_ctor (fuel : nat) (this : nat) (base : Z) (ep : bool)
    (w : world) : option world :=
  page1 ← allocator_ctor fuel base ep;
  page2 ← allocator_ctor fuel base ep;
  s ← init (Some buffer1) (Some buffer2) (mk_store tpd_ctor page1 page2 []);
  Some (mk_world (service_add this (streams_ w)) (Some s) (out_ w)).

(** [allocator::impl::~impl]. *)
Definition impl_dtor (fuel : nat) (a : impl iostreams)
    : option (impl iostreams) :=
  a ← impl_clear fuel a;
  Some (delete_page (first_ a) a).

(** The loop of [stream::~stream]. *)
Fixpoint stream_dtor_loop (inner fuel : nat) (s : tpd_store arena)
    (out : outside iostreams)
    : option (tpd_store arena * outside iostreams) :=
  match fuel with
  | O => None
  | S fuel =>
      e ← tpd_empty (queue s);
      if (e : bool) then Some (s, out)
      else
        '(r, s, out) ← try_drain inner s out;
        stream_dtor_loop inner fuel s (if (r : bool) then flush out else out)
  end.

(** [stream::~stream]: remove from the service, drain, [delete impl_]
    (which destroys [page2_] and [page1_]). *)
Definition stream_dtor (fuel : nat) (this : nat) (w : world) : option world :=
  let streams := service_remove this (streams_ w) in
  s ← stream_impl_ w;
  '(s, out) ← stream_dtor_loop fuel fuel s (out_ w);
  _ ← impl_dtor fuel (impl_ (at_buffer2 s));
  _ ← impl_dtor fuel (impl_ (at_buffer1 s));
  Some (mk_world streams None out).

(** Calls made on a live stream, one after the other. *)
Inductive stream_op :=
| call_submit (w : submission)
| call_warmup
| call_run.

Definition stream_step (fuel : nat) (o : stream_op) (w : world)
    : option world :=
  s ← stream_impl_ w;
  match o with
  | call_submit x =>
      s ← submit fuel x s; Some (mk_world (streams_ w) (Some s) (out_ w))
  | call_warmup =>
      s ← warmup_before_inserting fuel s;
      Some (mk_world (streams_ w) (Some s) (out_ w))
  | call_run =>
      '(_, s, out) ← run fuel s (out_ w);
      Some (mk_world (streams_ w) (Some s) out)
  end.

Fixpoint stream_steps (fuel : nat) (os : list stream_op) (w : world)
    : option world :=
  match os with
  | [] => Some w
  | o :: os => w ← stream_step fuel o w; stream_steps fuel os w
  end.

(** The work items submitted by a sequence of calls, in order. *)
Fixpoint submitted (os : list stream_op) : list worklet :=
  match os with
  | [] => []
  | call_submit x :: os => item x :: submitted os
  | _ :: os => submitted os
  end.

(** What happens to the outside world: a work item is applied (inside the
    [try] of the drain, with [ep] telling whether an error handler is
    installed) or the sink is flushed. *)
Inductive action :=
| act_apply (w : worklet)
| act_flush.

Definition perform (ep : bool) (out : outside iostreams) (x : action)
    : outside iostreams :=
  match x with
  | act_apply w => apply_caught ep w out
  | act_flush => flush out
  end.

Fixpoint applied (xs : list action) : list worklet :=
  match xs with
  | [] => []
  | act_apply w :: xs => w :: applied xs
  | act_flush :: xs => applied xs
  end.

End stream.

Arguments submission : clear implicits.
Arguments world : clear implicits.
Arguments stream_op : clear implicits.
Arguments action : clear implicits.

(** ** More of [tpd_consume_result] and [tpd_insert_result] *)

(** [tpd_consume_result::operator|=], with an outcome and with a result, and
    the conversions to [bool] of the two result types. *)
Definition consume_result_or_outcome (r : tpd_consume_result) (rhs : Z)
    : tpd_consume_result :=
  mk_consume_result (Z.lor (outcome_ r) rhs).

Definition consume_result_or (r rhs : tpd_consume_result)
    : tpd_consume_result :=
  mk_consume_result (Z.lor (outcome_ r) (outcome_ rhs)).

Definition consume_result_bool (r : tpd_consume_result) : bool := consumed r.

Definition insert_result_bool (r : tpd_insert_result) : bool :=
  inserting_into_new_page r.

(** ** The service over all its streams *)

Section service_run.
Context {iostreams : Type}.
Variable ostream_flush : iostreams -> iostreams.

(** The first loop of [service::impl::run]: [try_drain] on every stream of
    the registry, each with its own sink. *)
Fixpoint service_try_drain (fuel : nat) (result : bool)
    (streams : list (tpd_store (allocator iostreams) * outside iostreams))
    : option (bool * list (tpd_store (allocator iostreams)
                           * outside iostreams)) :=
  match streams with
  | [] => Some (result, [])
  | (s, out) :: rest =>
      '(r, s, out) ← try_drain fuel s out;
      '(result, rest) ←
        service_try_drain fuel (if (r : bool) then true else result) rest;
      Some (result, (s, out) :: rest)
  end.

(** [service::impl::run]: if any stream had work, every stream is flushed. *)
Definition service_run (fuel : nat)
    (streams : list (tpd_store (allocator iostreams) * outside iostreams))
    : option (bool * list (tpd_store (allocator iostreams)
                           * outside iostreams)) :=
  '(result, streams) ← service_try_drain fuel false streams;
  Some (result,
        if (result : bool)
        then
          map (fun x : tpd_store (allocator iostreams) * outside iostreams =>
                 (x.1, flush ostream_flush x.2)) streams
        else streams).

End service_run.

(* ===================================================================== *)
(** * Part II: the vocabulary of the properties                           *)
(* ===================================================================== *)

(** ** The queue *)

(** The one law [tpd] needs of its [buffer_type]. *)
Class buffer_laws (buffer_type : Type) {BT : buffer_ops buffer_type} : Prop := {
  get_set_sequence_number :
    forall n (b : buffer_type),
      get_sequence_number (set_sequence_number n b) = n
}.

Section tpd_vocabulary.
Context {buffer_type : Type} {BT : buffer_ops buffer_type}.
Implicit Types s : tpd_store buffer_type.
Implicit Types y : system buffer_type.

(** The three sequence numbers of a store. *)
Definition last_inserted s := last_inserted_sequence_number_ (queue s).
Definition last_enqueued s := last_enqueued_sequence_number_ (queue s).
Definition last_consumed s := last_consumed_sequence_number_ (queue s).

(** The sequence number stamped on the page a pointer refers to. *)
Definition stamp (p : option buffer_ptr) s : Z :=
  match p with
  | Some p => get_sequence_number (deref p s)
  | None => 0
  end.

(** The invariant of the queue, for sequence numbers up to [bound]. *)
Definition tpd_inv (bound : Z) s : Prop :=
  ((inserter_ (queue s) = Some buffer1 /\ consumer_ (queue s) = Some buffer2) \/
   (inserter_ (queue s) = Some buffer2 /\ consumer_ (queue s) = Some buffer1)) /\
  (1 <= last_consumed s /\ last_consumed s <= last_enqueued s /\
   last_enqueued s <= last_inserted s) /\
  (seq_no_generator_ (queue s) = last_inserted s /\ last_inserted s <= bound) /\
  (stamp (inserter_ (queue s)) s <= last_inserted s /\
   (last_enqueued s < last_inserted s ->
    stamp (inserter_ (queue s)) s = last_inserted s)) /\
  (stamp (consumer_ (queue s)) s <= last_enqueued s /\
   (last_consumed s < last_enqueued s ->
    stamp (consumer_ (queue s)) s = last_enqueued s)).

(** Between calls a lock is held exactly while its transaction is open. *)
Definition sys_inv (bound : Z) y : Prop :=
  tpd_inv bound (sys_store y) /\
  it_parent_ (producer_txn y) = inserting_ (queue (sys_store y)) /\
  (it_parent_ (producer_txn y) = true ->
   last_enqueued (sys_store y) < last_inserted (sys_store y)) /\
  ct_parent_ (consumer_txn y) = consuming_ (queue (sys_store y)).

(** None of the three sequence numbers of [s'] is behind that of [s]. *)
Definition no_older s s' : Prop :=
  last_inserted s <= last_inserted s' /\
  last_enqueued s <= last_enqueued s' /\
  last_consumed s <= last_consumed s'.

(** Every page swap recorded in [evs] was made with both locks taken. *)
Definition under_both_locks (evs : list event) : Prop :=
  forall il cl, ev_switch_pages il cl ∈ evs -> il = true /\ cl = true.

End tpd_vocabulary.

(** ** Calls that return *)

(** [returns f r]: with enough fuel, [f] returns [r]. *)
Definition returns {A : Type} (f : nat -> option A) (r : A) : Prop :=
  exists N : nat, forall fuel : nat, (N <= fuel)%nat -> f fuel = Some r.

(** ** The arena *)

Section arena_vocabulary.
Context {iostreams : Type}.
Implicit Types a : impl iostreams.
Implicit Types w : formatter_or_parser iostreams.
Implicit Types ws : list (formatter_or_parser iostreams).
Implicit Types out : outside iostreams.

(** [links m c k e]: following [k] non-null forward links from the word at
    [c] leads to the word at [e]. *)
Inductive links (m : gmap Z Z) : Z -> nat -> Z -> Prop :=
| links_end c : links m c O c
| links_step c nxt k e :
    c <> 0 -> m !! c = Some nxt -> nxt <> 0 ->
    links m nxt k e -> links m c (S k) e.

(** [page_list pg p ids]: [ids] are the pages met from [p] along [next_]. *)
Inductive page_list (pg : gmap Z page) : Z -> list Z -> Prop :=
| page_list_last p x : pg !! p = Some x -> page_list pg p [p]
| page_list_next p x ids :
    pg !! p = Some x -> page_list pg (next_ x) ids ->
    page_list pg p (p :: ids).

(** The live pages are exactly the chain from [first_] to [last_]. *)
Definition pages_wf a (ids : list Z) : Prop :=
  page_list (pages a) (first_ a) ids /\ NoDup ids /\
  last ids = Some (last_ a) /\ dom (pages a) = list_to_set ids.

(** What [clear] needs: the page chain, and a record chain that ends in a
    null link.  Every state the arena goes through satisfies it, also in
    the middle of a submission. *)
Definition clearable a (ids : list Z) : Prop :=
  pages_wf a ids /\
  (forall i x, pages a !! i = Some x -> storage_begin_ x <> 0) /\
  exists first k e,
    pages a !! first_ a = Some first /\ storage_begin_ first <> 0 /\
    links (cells a) (storage_begin_ first) k e /\
    e <> 0 /\ cells a !! e = Some 0.

(** [chain m o c ws e]: the forward links lead from the word at [c] to the
    word at [e] through records whose work items are [ws], in this order,
    and possibly through page breaks in between.  Links point upwards,
    since [operator new] hands out increasing addresses. *)
Inductive chain (m : gmap Z Z) (o : gmap Z (formatter_or_parser iostreams))
    : Z -> list (formatter_or_parser iostreams) -> Z -> Prop :=
| chain_end c : chain m o c [] c
| chain_item c nxt w ws e :
    0 < c -> m !! c = Some nxt -> c < nxt -> o !! index c 1 = Some w ->
    chain m o nxt ws e -> chain m o c (w :: ws) e
| chain_break c nxt ws e :
    0 < c -> m !! c = Some nxt -> c < nxt ->
    o !! index c 1 = Some page_break ->
    chain m o nxt ws e -> chain m o c ws e.

(** The cursor after an allocation of [size] bytes that starts at [c]. *)
Definition bump (c size : Z) : Z :=
  index c (1 + (size - 1 + sizeof_size_t - 1) / sizeof_size_t).

(** [allocate size] stays on the tail page. *)
Definition fits a (size : Z) : Prop := bump (cursor_ a) size < end_of_page_ a.

(** The page [allocate] creates when [size] bytes do not fit. *)
Definition grown_page a (size : Z) (tail : page) : page :=
  let newSize := grown_page_size (size - 1) tail in
  mk_page (brk a + sizeof_page)
    (index (brk a + sizeof_page) (newSize / sizeof_size_t)) 0.

(** Where [operator new] goes on after that page, and the live pages. *)
Definition grown_brk a (size : Z) (tail : page) : Z :=
  let newSize := grown_page_size (size - 1) tail in
  index (brk a + sizeof_page)
    ((newSize + sizeof_size_t - 1) / sizeof_size_t
     + page_break_size_in_std_size_ts).

Definition grown_pages a (size : Z) (tail : page) : gmap Z page :=
  <[last_ a := mk_page (storage_begin_ tail) (storage_end_ tail) (brk a)]>
    (<[brk a := grown_page a size tail]> (pages a)).

(** Pages and bounds, the same between and during submissions: [begin] is
    where the storage of the head page starts, [tail] is the tail page. *)
Definition grounded a (ids : list Z) (begin : Z) (tail : page) : Prop :=
  pages_wf a ids /\
  (forall i x, pages a !! i = Some x ->
               0 < storage_begin_ x /\ 0 < i < brk a) /\
  (exists first, pages a !! first_ a = Some first /\
                 storage_begin_ first = begin) /\
  pages a !! last_ a = Some tail /\
  end_of_page_ a = storage_end_ tail /\
  4088 <= storage_end_ tail - storage_begin_ tail /\
  0 < cursor_ a < brk a /\ end_of_page_ a < brk a /\
  storage_begin_ tail <= cursor_ a < storage_end_ tail.

(** Between submissions: the records of [ws] are chained from the head
    page up to [cursor_], where the chain ends. *)
Definition wf a ws : Prop :=
  exists ids begin tail,
    grounded a ids begin tail /\
    chain (cells a) (objects a) begin ws (cursor_ a) /\
    cells a !! cursor_ a = Some 0.

(** During a submission: the record at [prev_cursor_] is linked in and
    awaits its work item. *)
Definition building a ws : Prop :=
  exists ids begin tail,
    grounded a ids begin tail /\
    chain (cells a) (objects a) begin ws (prev_cursor_ a) /\
    0 < prev_cursor_ a < cursor_ a /\
    cells a !! prev_cursor_ a = Some (cursor_ a) /\
    cells a !! cursor_ a = Some 0.

(** [reachable_arena a ws]: the arena [a] was constructed, submitted to and
    cleared any number of times, and [ws] are the work items submitted
    since it was last cleared, in submission order. *)
Inductive reachable_arena : impl iostreams -> list (formatter_or_parser iostreams) -> Prop :=
| reach_ctor fuel base ep a :
    0 < base -> impl_ctor fuel base ep = Some a -> reachable_arena a []
| reach_place a ws (x : submission iostreams) a' :
    reachable_arena a ws -> 0 < sizeof_item x ->
    Forall (fun size => 0 < size) (payload x) ->
    place x a = Some a' -> reachable_arena a' (ws ++ [item x])
| reach_clear fuel a ws a' :
    reachable_arena a ws -> impl_clear fuel a = Some a' ->
    reachable_arena a' [].

(** The catch clause an exception object lands in. *)
Definition catch_clause (e : thrown) : ep_call :=
  if is_boost_exception e then catch_boost_exception e
  else if is_std_exception e then catch_std_exception e
  else catch_unknown_exception.

(** The sink and source after every work item of [ws] was applied, whether
    it threw or not. *)
Fixpoint applied_all ws (s : iostreams) : iostreams :=
  match ws with
  | [] => s
  | w :: ws => applied_all ws (fst (apply w s))
  end.

(** One call of the error handler for each work item of [ws] that throws. *)
Fixpoint reports ws (s : iostreams) : list ep_call :=
  match ws with
  | [] => []
  | w :: ws =>
      match apply w s with
      | (s', None) => reports ws s'
      | (s', Some e) => catch_clause e :: reports ws s'
      end
  end.

(** The byte capacity of a page. *)
Definition capacity (p : page) : Z := storage_end_ p - storage_begin_ p.

End arena_vocabulary.

(** ** The stream between calls *)

Section stream_vocabulary.
Context {iostreams : Type}.
Implicit Types pi pc : allocator iostreams.
Implicit Types out : outside iostreams.
Implicit Types C I : list (formatter_or_parser iostreams).

(** The pointer to the inserter page and to the consumer page; [flip]
    tells whether the two have been swapped an odd number of times. *)
Definition inserter_at (flip : bool) : buffer_ptr :=
  if flip then buffer2 else buffer1.
Definition consumer_at (flip : bool) : buffer_ptr :=
  if flip then buffer1 else buffer2.

(** The store of a stream between calls, when no call ever found the
    inserting lock taken: [pi] is the inserter page, [pc] the consumer
    page, [il] and [cl] the two locks. *)
Definition between_calls (il cl flip : bool) (li le lc : Z) pi pc
    (tr : list event) : tpd_store (allocator iostreams) :=
  mk_store
    (mk_tpd il li 0 li cl lc (Some (inserter_at flip))
       (Some (consumer_at flip)) le 0)
    (if flip then pc else pi) (if flip then pi else pc) tr.

(** The invariant of a stream between calls.  [C] are the work items
    handed to the consumer and not yet drained, [I] those inserted and not
    yet handed over; a page whose sequence number is behind holds only
    work items that were applied already. *)
Definition stream_inv (ep : bool) (li le lc : Z) pi pc C I : Prop :=
  (1 <= lc /\ lc <= le /\ le <= li) /\
  (sequence_number_ pi <= li /\ (le < li -> sequence_number_ pi = li)) /\
  (sequence_number_ pc <= le /\ (lc < le -> sequence_number_ pc = le)) /\
  (exists wc, wf (impl_ pc) wc /\ (lc < le -> wc = C)) /\
  (le <= lc -> C = []) /\
  (exists wi, wf (impl_ pi) wi /\ (le < li -> wi = I) /\
              (li <= le -> sequence_number_ pi = le -> wi = [])) /\
  (li <= le -> I = []) /\
  ep_ (impl_ pi) = ep /\ ep_ (impl_ pc) = ep.

(** [sizeof] of a work item and the sizes of its payload are positive, as
    the [assert(0 != size)] of [allocate] asks. *)
Definition valid_submission (x : submission iostreams) : Prop :=
  0 < sizeof_item x /\ Forall (fun size => 0 < size) (payload x).

(** A live stream between calls, with its pending work items. *)
Definition stream_ok (ep : bool) (bound : Z) (w : world iostreams)
    (pending : list (formatter_or_parser iostreams)) : Prop :=
  exists flip li le lc pi pc tr C I,
    stream_impl_ w = Some (between_calls false false flip li le lc pi pc tr) /\
    stream_inv ep li le lc pi pc C I /\ pending = C ++ I /\ li <= bound.

(** A call whose submission, if it makes one, is valid. *)
Definition valid_call (o : stream_op iostreams) : Prop :=
  match o with
  | call_submit x => valid_submission x
  | _ => True
  end.

End stream_vocabulary.

(** ** The queue with one consumer thread *)

Section tpd_consumers.
Context {buffer_type : Type} {BT : buffer_ops buffer_type}.
Implicit Types y : system buffer_type.

(** A consumer thread of its own: [try_consume] is not called while the
    consume transaction is open. *)
Definition single_consumer (o : operation) y : Prop :=
  o = op_try_consume -> ct_parent_ (consumer_txn y) = false.

(** [reachable_with_one_consumer n y]: [y] is reached by [n] calls after
    [init], the consumer calls coming from one thread. *)
Inductive reachable_with_one_consumer : nat -> system buffer_type -> Prop :=
| reach1_init b1 b2 s :
    init (Some buffer1) (Some buffer2) (mk_store tpd_ctor b1 b2 []) = Some s ->
    reachable_with_one_consumer 0
      (mk_system s insert_transaction_ctor consume_transaction_ctor)
| reach1_step n y o y' :
    reachable_with_one_consumer n y -> single_consumer o y ->
    step o y = Some y' -> reachable_with_one_consumer (S n) y'.

(** An open transaction holds the page its side of the queue points to. *)
Definition transactions_on_their_pages y : Prop :=
  (it_parent_ (producer_txn y) = true ->
   it_buffer_ (producer_txn y) = inserter_ (queue (sys_store y))) /\
  (ct_parent_ (consumer_txn y) = true ->
   ct_buffer_ (consumer_txn y) = consumer_ (queue (sys_store y))).

End tpd_consumers.

(** ** The alignment of the arena *)

Section arena_alignment.
Context {iostreams : Type}.
Implicit Types a : impl iostreams.

(** The cursor is a whole number of words into the storage of the tail
    page, whose capacity is a whole number of words. *)
Definition word_aligned a : Prop :=
  exists tail,
    pages a !! last_ a = Some tail /\
    (cursor_ a - storage_begin_ tail) mod sizeof_size_t = 0 /\
    capacity tail mod sizeof_size_t = 0.

End arena_alignment.

(** ** The sink of a serviced stream *)

Section service_vocabulary.
Context {iostreams : Type}.
Variable ostream_flush : iostreams -> iostreams.
Implicit Types pend : list (formatter_or_parser iostreams).
Implicit Types out : outside iostreams.

(** Nothing is pending. *)
Definition idle pend : bool := if pend is [] then true else false.

(** What one run of a service with this stream alone does to the sink. *)
Definition batch (ep : bool) pend out : outside iostreams :=
  if idle pend then out
  else flush ostream_flush (foldl (fun out w => apply_caught ep w out) out pend).

(** The pending work items and the sink after a call. *)
Definition pending_after (o : stream_op iostreams) pend :=
  match o with
  | call_submit x => pend ++ [item x]
  | call_warmup => pend
  | call_run => []
  end.

Definition sink_after (ep : bool) (o : stream_op iostreams) pend out :=
  match o with
  | call_run => batch ep pend out
  | _ => out
  end.

Fixpoint serviced (ep : bool) (os : list (stream_op iostreams)) pend out
    : list (formatter_or_parser iostreams) * outside iostreams :=
  match os with
  | [] => (pend, out)
  | o :: os => serviced ep os (pending_after o pend) (sink_after ep o pend out)
  end.

(** A live stream between calls whose pending work items are counted by
    the sequence numbers. *)
Definition stream_counted (ep : bool) (bound : Z)
    (s : tpd_store (allocator iostreams)) pend : Prop :=
  exists flip li le lc pi pc tr C I,
    s = between_calls false false flip li le lc pi pc tr /\
    stream_inv ep li le lc pi pc C I /\ pend = C ++ I /\
    Z.of_nat (length C) = le - lc /\ Z.of_nat (length I) = li - le /\
    li <= bound.

(** How a stream of a service came to be: constructed as [this] on the
    world [h_world], then used by the calls [h_calls]. *)
Record stream_history := mk_stream_history {
  h_this : nat;
  h_base : Z;
  h_world : world iostreams;
  h_calls : list (stream_op iostreams)
}.

Definition valid_history (h : stream_history) : Prop :=
  0 < h_base h /\ Forall valid_call (h_calls h) /\
  Z.of_nat (length (h_calls h)) + 1 < 2 ^ 64.

(** The store and the sink of the stream with history [h]. *)
Definition built (ep : bool) (h : stream_history)
    (x : tpd_store (allocator iostreams) * outside iostreams) : Prop :=
  returns
    (fun fuel =>
       w ← stream_ctor fuel (h_this h) (h_base h) ep (h_world h);
       stream_steps ostream_flush fuel (h_calls h) w)
    (mk_world (service_add (h_this h) (streams_ (h_world h))) (Some x.1) x.2).

Definition pending_of (ep : bool) (h : stream_history) :=
  (serviced ep (h_calls h) [] (out_ (h_world h))).1.

Definition sink_of (ep : bool) (h : stream_history) :=
  (serviced ep (h_calls h) [] (out_ (h_world h))).2.

End service_vocabulary.

Arguments stream_history : clear implicits.

(** ** The work items and the calls of the recorded runs *)

(** Work items of [stream.hpp] over a sink that records what is written to
    it: [formatter<T>], whose [apply] writes its value, and
    [callback_wrapper], whose [apply] calls the callback. *)
Definition formatter (l_ : nat) : formatter_or_parser (list nat) :=
  mk_formatter_or_parser (fun o => (o ++ [l_], None)).

Definition callback_wrapper (c_ : list nat -> list nat * option thrown)
    : formatter_or_parser (list nat) :=
  mk_formatter_or_parser c_.

(** A callback that writes 2 and then throws a [std::exception]. *)
Definition throwing_callback (o : list nat) : list nat * option thrown :=
  (o ++ [2%nat], Some (mk_thrown 7 false true)).

(** [flush] on the recording sink leaves the mark 0. *)
Definition flush_mark (o : list nat) : list nat := o ++ [0%nat].

(** A stream that is written to, drained by its service, and written to
    again, in a service that already has stream 3. *)
Definition recorded_calls : list (stream_op (list nat)) :=
  [call_submit (mk_submission (formatter 1) 8 []);
   call_run;
   call_submit (mk_submission (formatter 2) 8 [5000]);
   call_submit (mk_submission (formatter 3) 16 [])].

(** The service before the stream is constructed. *)
Definition recorded_world : world (list nat) :=
  mk_world [3%nat] None (mk_outside [] []).

(* ===================================================================== *)
(** * Part III: properties                                                *)
(* ===================================================================== *)

(** ** The result codes of [try_consume] *)

Section tpd_results.
Context {buffer_type : Type} {BT : buffer_ops buffer_type}.

(** The four values [try_consume] can return. *)
Lemma try_consume_outcomes (t : consume_transaction) (s : tpd_store buffer_type)
    r t' s' :
  try_consume t s = Some (r, t', s') ->
  outcome_ r = cr_queue_not_empty \/ outcome_ r = cr_no_more_work \/
  outcome_ r = cr_too_many_consumers \/ outcome_ r = cr_success.
Proof.
  unfold try_consume. intros H.
  repeat (case_match; simplify_option_eq); simpl; auto.
Qed.

(** C9: whenever [try_consume] returns a result with the consumed bit set,
    that result is [cr_success], the union of the consumed and the
    queue_not_empty bits, so it reports queue_not_empty as well. *)
Theorem try_consume_consumed_implies_queue_not_empty
    (t : consume_transaction) (s : tpd_store buffer_type) r t' s' :
  try_consume t s = Some (r, t', s') ->
  consumed r = true ->
  outcome_ r = cr_success /\
  cr_success = Z.lor cr_consumed cr_queue_not_empty /\
  queue_not_empty r = true.
Proof.
  intros H Hc. unfold consumed, queue_not_empty in *.
  destruct (try_consume_outcomes _ _ _ _ _ H) as [E|[E|[E|E]]];
    rewrite E in *; vm_compute in Hc |- *; try congruence; auto.
Qed.

End tpd_results.

(** ** Committing a transaction *)

Section tpd_commit.
Context {buffer_type : Type} {BT : buffer_ops buffer_type}.
Implicit Types s : tpd_store buffer_type.

Lemma releases_snoc l tr e :
  releases l (tr ++ [e]) =
  (releases l tr + if decide (e = ev_unlock l) then 1 else 0)%nat.
Proof.
  unfold releases. rewrite filter_app, length_app. f_equal.
  rewrite filter_cons, filter_nil. by case_decide.
Qed.

Lemma switch_pages_trace s s' :
  switch_pages s = Some s' ->
  trace s' = trace s ++ [ev_switch_pages (locked inserting s) (locked consuming s)]
  /\ (forall l, locked l s' = locked l s).
Proof.
  unfold switch_pages. intros H. unbind H. subst s'.
  split; [done | by intros []].
Qed.

Lemma insert_commit_closed s :
  insert_transaction_commit (mk_insert_transaction None false) s
  = Some (mk_insert_transaction None false, s).
Proof. reflexivity. Qed.

Lemma consume_commit_closed s :
  consume_transaction_commit (mk_consume_transaction None false) s
  = Some (mk_consume_transaction None false, s).
Proof. reflexivity. Qed.

Ltac count_releases :=
  repeat match goal with
         | H : switch_pages _ = Some _ |- _ =>
             apply switch_pages_trace in H; destruct H as [? ?]
         | H : (_, _) = (_, _) |- _ => injection H as ? ?
         end;
  subst; simpl in *; split; try done;
  repeat (rewrite releases_snoc; simpl);
  repeat match goal with H : trace _ = _ |- _ => rewrite H end;
  repeat (rewrite releases_snoc; simpl); lia.

Lemma insert_commit_releases t s t' s' :
  insert_transaction_commit t s = Some (t', s') ->
  it_parent_ t = true ->
  locked inserting s' = false /\
  releases inserting (trace s') = S (releases inserting (trace s)).
Proof.
  unfold insert_transaction_commit, try_lock, scoped_try_lock_dtor.
  intros H Hp. rewrite Hp in H. unbind H; count_releases.
Qed.

Lemma consume_commit_releases t s t' s' :
  consume_transaction_commit t s = Some (t', s') ->
  ct_parent_ t = true ->
  locked consuming s' = false /\
  releases consuming (trace s') = S (releases consuming (trace s)).
Proof.
  unfold consume_transaction_commit, try_lock, scoped_try_lock_dtor.
  intros H Hp. rewrite Hp in H. unbind H; count_releases.
Qed.


End tpd_commit.

(** ** The sequence numbers of the queue *)

Section tpd_invariant.
Context {buffer_type : Type} {BT : buffer_ops buffer_type}.
Context {BL : buffer_laws buffer_type}.
Implicit Types s : tpd_store buffer_type.
Implicit Types y : system buffer_type.

Lemma size_t_wrap_small z : 0 <= z < 2 ^ 64 -> size_t_wrap z = z.
Proof. unfold size_t_wrap. intros. zlia. Qed.

Lemma tpd_inv_mono b b' s : tpd_inv b s -> b <= b' -> tpd_inv b' s.
Proof. unfold tpd_inv. intros. intuition lia. Qed.

Ltac open_inv :=
  unfold sys_inv, tpd_inv, no_older, last_inserted, last_enqueued,
    last_consumed, stamp in *;
  repeat match goal with
         | H : _ /\ _ |- _ => destruct H
         | H : (_ /\ _) \/ (_ /\ _) |- _ => destruct H
         end.

Ltac close_inv :=
  simpl in *; rewrite ?get_set_sequence_number, ?Z.gtb_ltb in *;
  repeat match goal with
         | H : Some ?a = Some ?b |- _ => injection H as H; try subst
         | H : (_ <? _) = true |- _ => apply Z.ltb_lt in H
         | H : (_ <? _) = false |- _ => apply Z.ltb_ge in H
         | H : (_ <=? _) = true |- _ => apply Z.leb_le in H
         | H : (_ <=? _) = false |- _ => apply Z.leb_gt in H
         end;
  simpl in *; rewrite ?get_set_sequence_number in *;
  repeat match goal with
         | |- _ /\ _ => split
         | |- (_ /\ _) \/ (_ /\ _) =>
             first [ left; split; reflexivity | right; split; reflexivity ]
         end;
  try tauto; try lia; try congruence.

(** [switch_pages] at its call sites: there is something to enqueue. *)
Lemma switch_pages_inv b s :
  tpd_inv b s -> last_enqueued s < last_inserted s ->
  exists s',
    switch_pages s = Some s' /\ tpd_inv b s' /\
    last_inserted s' = last_inserted s /\
    last_enqueued s' = last_inserted s /\
    last_consumed s' = last_consumed s /\
    inserting_ (queue s') = inserting_ (queue s) /\
    consuming_ (queue s') = consuming_ (queue s).
Proof.
  intros Hinv Hlt. unfold switch_pages. open_inv.
  all: destruct s as [q b1 b2 tr]; simpl in *.
  all: repeat match goal with
              | H : inserter_ _ = Some _ |- _ => rewrite H in *; clear H
              | H : consumer_ _ = Some _ |- _ => rewrite H in *; clear H
              end.
  all: simpl.
  all: simpl in *; rewrite Z.gtb_ltb.
  all: match goal with
       | |- context [?a <? ?b] => destruct (Z.ltb_spec a b); [ | lia ]
       end.
  all: eexists; split; [ reflexivity | close_inv ].
Qed.

Ltac unfold_calls :=
  unfold step, begin_insert, insert_transaction_commit, try_consume,
    consume_transaction_commit, warmup_before_inserting, switch_pages,
    lock, try_lock, unlock, scoped_try_lock_dtor, insert_transaction_init,
    consume_transaction_init, insert_transaction_ctor,
    consume_transaction_ctor, initialized in *.

Ltac tidy :=
  repeat match goal with
         | H : (_, _) = (_, _) |- _ => injection H as ? ?
         | H : Some _ = Some _ |- _ => injection H as ?
         | H : ?x = _ |- _ => is_var x; subst x
         | H : _ = ?x |- _ => is_var x; subst x
         end.

Ltac unwrap :=
  repeat match goal with
         | |- context [size_t_wrap ?z] =>
             rewrite (size_t_wrap_small z) by lia
         | H : context [size_t_wrap ?z] |- _ =>
             rewrite (size_t_wrap_small z) in H by lia
         end.

(** Every call keeps the invariant and moves no sequence number back. *)
Lemma step_inv b y o y' :
  sys_inv b y -> b + 1 < 2 ^ 64 -> step o y = Some y' ->
  sys_inv (b + 1) y' /\ no_older (sys_store y) (sys_store y').
Proof.
  intros Hinv Hb Hstep.
  destruct y as [[[] b1 b2 tr] [] []]. destruct o; unfold_calls.
  all: unbind Hstep; tidy; simpl in *; open_inv; tidy; simpl in *.
  all: unwrap; close_inv.
Qed.

Lemma init_inv b1 b2 s :
  init (Some buffer1) (Some buffer2) (mk_store tpd_ctor b1 b2 []) = Some s ->
  sys_inv 1 (mk_system s insert_transaction_ctor consume_transaction_ctor).
Proof.
  unfold init. simpl. intros H. tidy. open_inv. close_inv.
Qed.

Lemma reachable_inv n y :
  reachable n y -> Z.of_nat n + 1 < 2 ^ 64 -> sys_inv (1 + Z.of_nat n) y.
Proof.
  induction 1 as [b1 b2 s Hinit | n y o y' Hreach IH Hstep]; intros Hn.
  - simpl. eapply init_inv; eauto.
  - replace (1 + Z.of_nat (S n)) with (1 + Z.of_nat n + 1) by lia.
    eapply step_inv; [ apply IH | | ]; eauto; lia.
Qed.


End tpd_invariant.

(** ** The arena: what [clear] keeps *)

Lemma returns_intro {A : Type} (N : nat) (f : nat -> option A) r :
  (forall fuel, (N <= fuel)%nat -> f fuel = Some r) -> returns f r.
Proof. intros H. by exists N. Qed.

Lemma returns_const {A : Type} (r : A) : returns (fun _ => Some r) r.
Proof. by exists O. Qed.

Lemma returns_bind {A B : Type} (f : nat -> option A)
    (g : nat -> A -> option B) r r' :
  returns f r -> returns (fun fuel => g fuel r) r' ->
  returns (fun fuel => f fuel ≫= g fuel) r'.
Proof.
  intros [N HN] [M HM]. exists (N `max` M)%nat. intros fuel Hf.
  rewrite HN by lia. simpl. apply HM. lia.
Qed.

Lemma returns_ext {A : Type} (f g : nat -> option A) r :
  (forall fuel, f fuel = g fuel) -> returns f r -> returns g r.
Proof. intros H [N HN]. exists N. intros fuel Hf. rewrite <- H. auto. Qed.

Lemma returns_inj {A : Type} (f : nat -> option A) r r' :
  returns f r -> returns f r' -> r = r'.
Proof.
  intros [N HN] [M HM].
  specialize (HN (N `max` M)%nat ltac:(lia)).
  specialize (HM (N `max` M)%nat ltac:(lia)). congruence.
Qed.

(** A function that keeps its result when given more fuel returns what it
    returns for some fuel. *)
Lemma returns_at {A : Type} (f : nat -> option A) (n : nat) r :
  (forall n m r, (n <= m)%nat -> f n = Some r -> f m = Some r) ->
  f n = Some r -> returns f r.
Proof. intros Hmono Hn. exists n. intros fuel Hf. eauto. Qed.

Section arena_clear.
Context {iostreams : Type}.
Implicit Types a : impl iostreams.

Lemma page_list_head pg p ids :
  page_list pg p ids -> exists rest, ids = p :: rest.
Proof. destruct 1; eauto. Qed.

Lemma page_list_lookup pg p ids i :
  page_list pg p ids -> i ∈ ids -> is_Some (pg !! i).
Proof.
  induction 1 as [p x Hp | p x ids Hp Hl IH]; intros Hi.
  - apply list_elem_of_singleton in Hi as ->. eauto.
  - apply elem_of_cons in Hi as [-> | Hi]; eauto.
Qed.

Lemma page_list_frame pg pg' p ids :
  page_list pg p ids -> (forall i, i ∈ ids -> pg' !! i = pg !! i) ->
  page_list pg' p ids.
Proof.
  induction 1 as [p x Hp | p x ids Hp Hl IH]; intros Hsame.
  - apply page_list_last with x. rewrite Hsame; [ done | set_solver ].
  - apply page_list_next with x.
    + rewrite Hsame; [ done | set_solver ].
    + apply IH. intros i Hi. apply Hsame. set_solver.
Qed.

Lemma clear_contents_loop_spec m c k e :
  links m c k e -> e <> 0 -> m !! e = Some 0 ->
  forall o, exists o',
  forall a fuel, cells a = m -> objects a = o -> (k < fuel)%nat ->
  clear_contents_loop fuel c a = Some (set_objects o' a).
Proof.
  induction 1 as [c | c nxt k e Hc Hm Hnxt Hl IH]; intros He He0 o.
  - exists o. intros a fuel Ha Ho Hf.
    destruct fuel as [|fuel]; [ lia | ]. simpl. unfold peek.
    destruct (Z.eqb_spec c 0); [ done | ]. rewrite Ha, He0. simpl.
    destruct a. simpl in *. by subst.
  - destruct (IH He He0 (delete (index c 1) o)) as [o' Ho'].
    exists o'. intros a fuel Ha Ho Hf.
    destruct fuel as [|fuel]; [ lia | ]. simpl. unfold peek.
    destruct (Z.eqb_spec c 0); [ done | ]. rewrite Ha, Hm. simpl.
    destruct (Z.eqb_spec nxt 0); [ done | ].
    rewrite Ho'; [ done | done | by rewrite <- Ho | lia ].
Qed.

Lemma clear_extra_pages_loop_spec ids :
  forall pg p l,
  page_list pg p ids -> NoDup ids -> last ids = Some l ->
  exists pg',
    pg' !! l = pg !! l
    /\ (forall i, i ∈ ids -> i <> l -> pg' !! i = None)
    /\ (forall i, i ∉ ids -> pg' !! i = pg !! i)
    /\ forall a fuel,
         pages a = pg -> first_ a = p -> last_ a = l ->
         (length ids <= fuel)%nat ->
         clear_extra_pages_loop fuel a = Some (set_first_ l (set_pages pg' a)).
Proof.
  induction ids as [|p ids IH]; intros pg p0 l Hl Hnd Hlast;
    [ inversion Hl | ].
  inversion Hl as [p' x Hp | p' x ids' Hp Hl']; subst.
  - simpl in Hlast. injection Hlast as Hlast. subst l. exists pg.
    split; [ done | ]. split; [ | split; [ done | ] ].
    + intros i Hi Hne. apply list_elem_of_singleton in Hi. congruence.
    + intros a fuel Ha Hf Hla Hfuel.
      destruct fuel as [|fuel]; [ simpl in Hfuel; lia | ]. simpl.
      rewrite Hf, Hla, Z.eqb_refl. f_equal.
      destruct a. simpl in *. by subst.
  - apply NoDup_cons in Hnd as [Hnotin Hnd].
    destruct (page_list_head _ _ _ Hl') as [rest ->].
    rewrite last_cons_cons in Hlast.
    assert (l ∈ next_ x :: rest) as Hin by by apply last_Some_elem_of.
    assert (p <> l) as Hne by (intros Heq; by rewrite Heq in Hnotin).
    destruct (IH (delete p pg) (next_ x) l)
      as (pg' & Hkeep & Hgone & Hother & Hloop); try done.
    { eapply page_list_frame; [ exact Hl' | ].
      intros i Hi. apply lookup_delete_ne. intros Heq.
      by rewrite Heq in Hnotin. }
    exists pg'. split; [ | split; [ | split ] ].
    + rewrite Hkeep. by apply lookup_delete_ne.
    + intros i Hi Hil. apply elem_of_cons in Hi as [Heq | Hi].
      * rewrite Heq, Hother by done. apply lookup_delete_eq.
      * by apply Hgone.
    + intros i Hi. apply not_elem_of_cons in Hi as [Hip Hi].
      rewrite Hother by done. by apply lookup_delete_ne.
    + intros a fuel <- <- <- Hfuel.
      destruct fuel as [|fuel]; [ simpl in Hfuel; lia | ]. simpl.
      destruct (Z.eqb_spec (first_ a) (last_ a)); [ done | ].
      rewrite Hp. simpl.
      rewrite (Hloop (set_first_ (next_ x) (delete_page (first_ a) a)) fuel);
        try done.
      simpl in Hfuel |- *. lia.
Qed.

(** A cleared arena is a fixed point of [clear]. *)
Lemma impl_clear_cleared a tail fuel :
  pages a !! first_ a = Some tail -> first_ a = last_ a ->
  cursor_ a = storage_begin_ tail -> prev_cursor_ a = 0 ->
  end_of_page_ a = storage_end_ tail -> last_allocated_ a = 0 ->
  cells a !! storage_begin_ tail = Some 0 -> storage_begin_ tail <> 0 ->
  (1 <= fuel)%nat ->
  impl_clear fuel a = Some a.
Proof.
  intros Hp Hfl Hc Hpc He Hla H0 Hb Hf.
  destruct fuel as [|fuel]; [ lia | ].
  destruct a as [c pc e f l ep la m o pg bk]. simpl in *. subst.
  unfold impl_clear, clear_contents, clear_extra_pages. simpl.
  rewrite Hp. simpl. unfold peek, poke. simpl.
  destruct (Z.eqb_spec (storage_begin_ tail) 0); [ done | ].
  rewrite H0. simpl. rewrite Z.eqb_refl. simpl. rewrite Hp. simpl.
  destruct (Z.eqb_spec (storage_begin_ tail) 0); [ done | ]. simpl.
  unfold set_last_allocated_, set_cells. simpl.
  rewrite !insert_id; [ done | done | ].
  by rewrite insert_id.
Qed.

(** What [clear] leaves: the one page that was the tail of the chain. *)
Lemma impl_clear_spec a ids :
  clearable a ids ->
  exists tail a',
    pages a !! last_ a = Some tail /\
    returns (fun fuel => impl_clear fuel a) a' /\
    pages a' = {[ last_ a := tail ]} /\
    first_ a' = last_ a /\ last_ a' = last_ a /\
    cursor_ a' = storage_begin_ tail /\ prev_cursor_ a' = 0 /\
    end_of_page_ a' = storage_end_ tail /\ last_allocated_ a' = 0 /\
    cells a' !! storage_begin_ tail = Some 0 /\
    brk a' = brk a /\ ep_ a' = ep_ a.
Proof.
  intros ((Hl & Hnd & Hlast & Hdom) & Hbegin & first & k & e
          & Hfirst & Hb & Hlinks & He & He0).
  assert (is_Some (pages a !! last_ a)) as [tail Htail].
  { eapply page_list_lookup; [ exact Hl | by apply last_Some_elem_of ]. }
  assert (storage_begin_ tail <> 0) as Hbt by (eapply Hbegin; eauto).
  destruct (clear_contents_loop_spec _ _ _ _ Hlinks He He0 (objects a))
    as [o' Ho'].
  destruct (clear_extra_pages_loop_spec ids _ _ _ Hl Hnd Hlast)
    as (pg' & Hkeep & Hgone & Hother & Hloop).
  exists tail.
  exists (mk_impl (storage_begin_ tail) 0 (storage_end_ tail) (last_ a)
            (last_ a) (ep_ a) 0
            (<[storage_begin_ tail := 0]>
               (<[storage_begin_ first := 0]> (cells a)))
            o' pg' (brk a)).
  simpl. split; [ done | ]. split.
  { apply (returns_intro (S k `max` length ids)). intros fuel Hf.
    unfold impl_clear, clear_contents. rewrite Hfirst. simpl.
    rewrite Ho' by (done || lia). simpl. unfold poke at 1.
    destruct (Z.eqb_spec (storage_begin_ first) 0); [ done | ]. simpl.
    unfold clear_extra_pages.
    rewrite Hloop by (done || lia). simpl. rewrite Hkeep, Htail. simpl.
    unfold poke. simpl.
    destruct (Z.eqb_spec (storage_begin_ tail) 0); [ done | ].
    reflexivity. }
  split; [ | by rewrite lookup_insert_eq ].
  apply map_eq. intros i. destruct (decide (i = last_ a)) as [-> | Hne].
  - by rewrite lookup_singleton_eq, Hkeep.
  - rewrite lookup_singleton_ne by done.
    destruct (decide (i ∈ ids)) as [Hi | Hi]; [ by apply Hgone | ].
    rewrite Hother by done. apply not_elem_of_dom. rewrite Hdom.
    by rewrite elem_of_list_to_set.
Qed.

(** C4 (amended): [clear] frees every page of the chain except the tail
    page [last_], which becomes the head; the first link of that page is
    reset to 0 and the cursors are reset to it; a second [clear] changes
    nothing. *)
Theorem clear_retains_tail_page_and_is_idempotent a ids :
  clearable a ids ->
  exists tail a',
    pages a !! last_ a = Some tail /\
    returns (fun fuel => impl_clear fuel a) a' /\
    pages a' = {[ last_ a := tail ]} /\
    first_ a' = last_ a /\ last_ a' = last_ a /\
    cells a' !! storage_begin_ tail = Some 0 /\
    cursor_ a' = storage_begin_ tail /\ prev_cursor_ a' = 0 /\
    end_of_page_ a' = storage_end_ tail /\
    returns (fun fuel => impl_clear fuel a') a'.
Proof.
  intros Hc.
  destruct (impl_clear_spec a ids Hc)
    as (tail & a' & Htail & Hret & Hpg & Hf & Hl & Hcur & Hprev & Hend
        & Hla & H0 & _).
  exists tail, a'. do 9 (split; [ done | ]).
  destruct Hc as (_ & Hbegin & _).
  apply (returns_intro 1). intros fuel Hfuel.
  apply impl_clear_cleared with tail; try done.
  - rewrite Hf, Hpg. apply lookup_singleton_eq.
  - congruence.
  - eapply Hbegin; eauto.
Qed.

End arena_clear.

(** ** The arena: the chain of records *)

Section arena_chain.
Context {iostreams : Type}.
Implicit Types a : impl iostreams.
Implicit Types w : formatter_or_parser iostreams.
Implicit Types ws : list (formatter_or_parser iostreams).

Lemma chain_le m o c ws e : chain m o c ws e -> c <= e.
Proof. induction 1; lia. Qed.

Lemma chain_frame m o m' o' c ws e :
  chain m o c ws e ->
  (forall k, c <= k < e -> m' !! k = m !! k) ->
  (forall k, c <= k < e -> o' !! index k 1 = o !! index k 1) ->
  chain m' o' c ws e.
Proof.
  induction 1 as [c | c nxt w ws e Hc Hm Hlt Ho Hch IH
                    | c nxt ws e Hc Hm Hlt Ho Hch IH]; intros Hm' Ho'.
  - constructor.
  - pose proof (chain_le _ _ _ _ _ Hch).
    eapply chain_item; eauto.
    + rewrite Hm' by lia. done.
    + rewrite Ho' by lia. done.
    + apply IH; intros; [ apply Hm' | apply Ho' ]; lia.
  - pose proof (chain_le _ _ _ _ _ Hch).
    eapply chain_break; eauto.
    + rewrite Hm' by lia. done.
    + rewrite Ho' by lia. done.
    + apply IH; intros; [ apply Hm' | apply Ho' ]; lia.
Qed.

Lemma chain_snoc_item m o c ws e nxt w :
  chain m o c ws e -> 0 < e -> m !! e = Some nxt -> e < nxt ->
  o !! index e 1 = Some w -> chain m o c (ws ++ [w]) nxt.
Proof.
  induction 1; intros; simpl.
  - eapply chain_item; eauto. constructor.
  - eapply chain_item; eauto.
  - eapply chain_break; eauto.
Qed.

Lemma chain_snoc_break m o c ws e nxt :
  chain m o c ws e -> 0 < e -> m !! e = Some nxt -> e < nxt ->
  o !! index e 1 = Some page_break -> chain m o c ws nxt.
Proof.
  induction 1; intros; simpl.
  - eapply chain_break; eauto. constructor.
  - eapply chain_item; eauto.
  - eapply chain_break; eauto.
Qed.

Lemma chain_links m o c ws e :
  chain m o c ws e -> exists k, links m c k e.
Proof.
  induction 1 as [c | c nxt w ws e Hc Hm Hlt Ho Hch [k IH]
                    | c nxt ws e Hc Hm Hlt Ho Hch [k IH]].
  - exists O. constructor.
  - exists (S k). eapply links_step; eauto; lia.
  - exists (S k). eapply links_step; eauto; lia.
Qed.

Lemma apply_caught_page_break ep (out : outside iostreams) :
  apply_caught ep page_break out = out.
Proof. by destruct out. Qed.

(** The drain walk applies the work items of the chain, first to last. *)
Lemma drain_loop_spec a c ws e :
  chain (cells a) (objects a) c ws e -> 0 < e -> cells a !! e = Some 0 ->
  exists N, forall fuel n out, (N <= fuel)%nat ->
    drain_loop fuel c n a out
    = Some (foldl (fun out w => apply_caught (ep_ a) w out) out ws).
Proof.
  induction 1 as [c | c nxt w ws e Hc Hm Hlt Ho Hch IH
                    | c nxt ws e Hc Hm Hlt Ho Hch IH]; intros He He0.
  - exists 1%nat. intros [|fuel] n out Hf; [ lia | ].
    simpl. unfold peek. destruct (Z.eqb_spec c 0); [ lia | ].
    by rewrite He0.
  - destruct (IH He He0) as [N HN]. exists (S N).
    intros [|fuel] n out Hf; [ lia | ].
    simpl. unfold peek. destruct (Z.eqb_spec c 0); [ lia | ].
    rewrite Hm. simpl. destruct (Z.eqb_spec nxt 0); [ lia | ].
    rewrite Ho. simpl. apply HN. lia.
  - destruct (IH He He0) as [N HN]. exists (S N).
    intros [|fuel] n out Hf; [ lia | ].
    simpl. unfold peek. destruct (Z.eqb_spec c 0); [ lia | ].
    rewrite Hm. simpl. destruct (Z.eqb_spec nxt 0); [ lia | ].
    rewrite Ho. simpl. rewrite apply_caught_page_break. apply HN. lia.
Qed.

End arena_chain.

(** ** The arena: [allocate] and [add] case by case *)

Section arena_allocate.
Context {iostreams : Type}.
Implicit Types a : impl iostreams.

(** Staying on the page. *)
Lemma allocate_stay a size :
  0 < size -> fits a size -> prev_cursor_ a <> 0 -> 0 < cursor_ a ->
  allocate size a =
  Some (cursor_ a,
        mk_impl (bump (cursor_ a) size) (prev_cursor_ a) (end_of_page_ a)
          (first_ a) (last_ a) (ep_ a) (cursor_ a)
          (<[bump (cursor_ a) size := 0]>
             (<[prev_cursor_ a := bump (cursor_ a) size]> (cells a)))
          (objects a) (pages a) (brk a)).
Proof.
  unfold fits, bump, allocate. intros Hs Hfit Hp Hc.
  destruct (Z.eqb_spec size 0); [ lia | ].
  destruct (Z.ltb_spec
    (index (cursor_ a) (1 + (size - 1 + sizeof_size_t - 1) / sizeof_size_t))
    (end_of_page_ a)); [ | lia ].
  unfold poke. simpl.
  destruct (Z.eqb_spec (prev_cursor_ a) 0); [ done | ]. simpl.
  match goal with |- context [?x =? 0] => destruct (Z.eqb_spec x 0) end.
  { unfold index, sizeof_size_t in *. zlia. }
  reflexivity.
Qed.

(** Growing the chain on behalf of [add]: a page break goes where the
    record would have started. *)
Lemma allocate_grow_fresh a size tail :
  0 < size -> ~ fits a size -> pages a !! last_ a = Some tail ->
  last_ a <> brk a -> prev_cursor_ a = cursor_ a -> 0 < cursor_ a ->
  0 < brk a ->
  let b := brk a + sizeof_page in
  allocate size a =
  Some (b,
        mk_impl (bump b size) b (storage_end_ (grown_page a size tail))
          (first_ a) (brk a) (ep_ a) b
          (<[bump b size := 0]>
             (<[b := bump b size]>
                (<[cursor_ a := b]> (<[b := 0]> (cells a)))))
          (<[index (cursor_ a) 1 := page_break]> (objects a))
          (grown_pages a size tail) (grown_brk a size tail)).
Proof.
  intros Hs Hfit Htail Hne Hp Hc Hb. cbv zeta. unfold fits, bump, allocate in *.
  destruct (Z.eqb_spec size 0); [ lia | ].
  destruct (Z.ltb_spec
    (index (cursor_ a) (1 + (size - 1 + sizeof_size_t - 1) / sizeof_size_t))
    (end_of_page_ a)); [ lia | ].
  rewrite Htail. simpl.
  rewrite lookup_insert_ne by done. rewrite lookup_insert_eq. simpl.
  rewrite Hp, Z.eqb_refl. unfold poke. simpl.
  destruct (Z.eqb_spec (cursor_ a) 0); [ lia | ]. simpl.
  destruct (Z.eqb_spec (brk a + sizeof_page) 0);
    [ unfold sizeof_page in *; lia | ]. simpl.
  match goal with |- context [?x =? 0] => destruct (Z.eqb_spec x 0) end.
  { unfold index, sizeof_size_t, sizeof_page in *. zlia. }
  reflexivity.
Qed.

(** Growing the chain for payload of the record under construction: the
    link of that record is redirected, no page break is placed. *)
Lemma allocate_grow_linked a size tail :
  0 < size -> ~ fits a size -> pages a !! last_ a = Some tail ->
  last_ a <> brk a -> prev_cursor_ a <> cursor_ a -> prev_cursor_ a <> 0 ->
  0 < brk a ->
  let b := brk a + sizeof_page in
  allocate size a =
  Some (b,
        mk_impl (bump b size) (prev_cursor_ a)
          (storage_end_ (grown_page a size tail))
          (first_ a) (brk a) (ep_ a) b
          (<[bump b size := 0]>
             (<[prev_cursor_ a := bump b size]> (<[b := 0]> (cells a))))
          (objects a)
          (grown_pages a size tail) (grown_brk a size tail)).
Proof.
  intros Hs Hfit Htail Hne Hp Hp0 Hb. cbv zeta. unfold fits, bump, allocate in *.
  destruct (Z.eqb_spec size 0); [ lia | ].
  destruct (Z.ltb_spec
    (index (cursor_ a) (1 + (size - 1 + sizeof_size_t - 1) / sizeof_size_t))
    (end_of_page_ a)); [ lia | ].
  rewrite Htail. simpl.
  rewrite lookup_insert_ne by done. rewrite lookup_insert_eq. simpl.
  destruct (Z.eqb_spec (prev_cursor_ a) (cursor_ a)); [ done | ].
  unfold poke. simpl.
  destruct (Z.eqb_spec (prev_cursor_ a) 0); [ lia | ]. simpl.
  match goal with |- context [?x =? 0] => destruct (Z.eqb_spec x 0) end.
  { unfold index, sizeof_size_t, sizeof_page in *. zlia. }
  reflexivity.
Qed.

End arena_allocate.

(** ** The arena: well-formed states *)

Section arena_wf.
Context {iostreams : Type}.
Implicit Types a : impl iostreams.
Implicit Types w : formatter_or_parser iostreams.
Implicit Types ws : list (formatter_or_parser iostreams).

Lemma page_list_grow pg p ids l tail q np :
  page_list pg p ids -> NoDup ids -> last ids = Some l ->
  pg !! l = Some tail -> q ∉ ids ->
  page_list
    (<[l := mk_page (storage_begin_ tail) (storage_end_ tail) q]>
       (<[q := np]> pg)) p (ids ++ [q]).
Proof.
  induction 1 as [p x Hp | p x ids Hp Hl IH]; intros Hnd Hlast Htail Hq.
  - simpl in Hlast. injection Hlast as <-. simpl.
    eapply page_list_next; [ apply lookup_insert_eq | ]. simpl.
    eapply page_list_last. rewrite lookup_insert_ne by set_solver.
    apply lookup_insert_eq.
  - apply NoDup_cons in Hnd as [Hnotin Hnd].
    destruct (page_list_head _ _ _ Hl) as [rest ->].
    rewrite last_cons_cons in Hlast.
    assert (l ∈ next_ x :: rest) as Hin by by apply last_Some_elem_of.
    assert (p <> l) by (intros ->; done).
    assert (p <> q) by set_solver.
    simpl. eapply page_list_next.
    + rewrite !lookup_insert_ne by done. exact Hp.
    + apply IH; try done. set_solver.
Qed.

Lemma bump_gt c size : 0 < size -> c < bump c size.
Proof. unfold bump, index, sizeof_size_t. intros. zlia. Qed.

Lemma grounded_stay a ids begin tail size a' :
  grounded a ids begin tail -> 0 < size -> fits a size ->
  pages a' = pages a -> first_ a' = first_ a -> last_ a' = last_ a ->
  end_of_page_ a' = end_of_page_ a -> brk a' = brk a ->
  cursor_ a' = bump (cursor_ a) size ->
  grounded a' ids begin tail.
Proof.
  unfold grounded, pages_wf, fits.
  intros (Hpg & Hall & Hfirst & Htail & Hend & Hcap & Hcur & Hbrk & Hcin)
    Hs Hfit -> -> -> -> -> ->.
  pose proof (bump_gt (cursor_ a) size Hs).
  split_and!; try done; try lia; apply Hpg.
Qed.

Lemma grounded_grow a ids begin tail size a' :
  grounded a ids begin tail -> 0 < size ->
  pages a' = grown_pages a size tail -> first_ a' = first_ a ->
  last_ a' = brk a ->
  end_of_page_ a' = storage_end_ (grown_page a size tail) ->
  brk a' = grown_brk a size tail ->
  cursor_ a' = bump (brk a + sizeof_page) size ->
  grounded a' (ids ++ [brk a]) begin (grown_page a size tail).
Proof.
  unfold grounded, pages_wf.
  intros ((Hl & Hnd & Hlast & Hdom) & Hall & (first & Hfirst & Hbegin)
          & Htail & Hend & Hcap & Hcur & Hbrk & Hcin) Hs Hpg Hf Hla He Hb Hc.
  assert (brk a ∉ ids) as Hfresh.
  { intros Hin. destruct (page_list_lookup _ _ _ _ Hl Hin) as [x Hx].
    apply Hall in Hx. lia. }
  assert (last_ a <> brk a) as Hne by (apply Hall in Htail; lia).
  assert (brk a < grown_brk a size tail /\
          bump (brk a + sizeof_page) size < grown_brk a size tail /\
          storage_end_ (grown_page a size tail) < grown_brk a size tail /\
          4088 <= storage_end_ (grown_page a size tail)
                  - storage_begin_ (grown_page a size tail) /\
          bump (brk a + sizeof_page) size
          < storage_end_ (grown_page a size tail))
    as (B1 & B2 & B3 & B4 & B5).
  { unfold grown_brk, grown_page, grown_page_size, bump, index,
      page_break_size_in_std_size_ts, sizeof_page, sizeof_page_break,
      sizeof_size_t. simpl.
    destruct (Z.ltb_spec (2 * (storage_end_ tail - storage_begin_ tail))
                (2 * (size - 1))); zlia. }
  rewrite Hpg, Hf, Hla, He, Hb, Hc. unfold grown_pages.
  split; [ split; [ | split; [ | split ] ] | ].
  - by apply page_list_grow.
  - apply NoDup_app. split; [ done | ]. split; [ | apply NoDup_singleton ].
    intros x Hx Hx'. apply list_elem_of_singleton in Hx'. by subst.
  - by rewrite last_snoc.
  - rewrite !dom_insert_L, Hdom, list_to_set_app_L. simpl.
    assert (last_ a ∈ ids) by by apply last_Some_elem_of.
    set_solver.
  - split; [ | split; [ | split; [ | split; [ done | ] ] ] ].
    + intros i x Hx.
      destruct (decide (i = last_ a)) as [-> | Hi].
      { rewrite lookup_insert_eq in Hx. injection Hx as <-. simpl.
        apply Hall in Htail. lia. }
      rewrite lookup_insert_ne in Hx by done.
      destruct (decide (i = brk a)) as [-> | Hi'].
      { rewrite lookup_insert_eq in Hx. injection Hx as <-.
        unfold grown_page, sizeof_page. simpl. lia. }
      rewrite lookup_insert_ne in Hx by done. apply Hall in Hx. lia.
    + destruct (decide (first_ a = last_ a)) as [Heq | Hneq].
      * rewrite Heq, lookup_insert_eq. eexists. split; [ done | ]. simpl.
        rewrite Heq in Hfirst. congruence.
      * rewrite lookup_insert_ne by done.
        assert (first_ a <> brk a) by (apply Hall in Hfirst; lia).
        rewrite lookup_insert_ne by done. eauto.
    + rewrite lookup_insert_ne by done. apply lookup_insert_eq.
    + pose proof (bump_gt (brk a + sizeof_page) size Hs).
      unfold grown_page, sizeof_page in *. simpl in *. lia.
Qed.

Lemma fits_dec a size : {fits a size} + {~ fits a size}.
Proof. unfold fits. apply Z_lt_dec. Qed.

(** [add] when the record fits on the tail page. *)
Lemma add_fits a ws size :
  wf a ws -> 0 < size -> fits a (size + sizeof_size_t) ->
  exists a',
    add size a = Some (index (cursor_ a) 1, a') /\
    building a' ws /\ prev_cursor_ a' = cursor_ a /\ ep_ a' = ep_ a /\
    pages a' = pages a /\ objects a' = objects a.
Proof.
  intros (ids & begin & tail & Hg & Hch & H0) Hs Hfit.
  assert (0 < cursor_ a < brk a) as Hcur by apply Hg.
  assert (sizeof_size_t = 8) as Hss by reflexivity.
  assert (0 < size + sizeof_size_t) as Hs' by lia.
  pose proof (bump_gt (cursor_ a) _ Hs') as Hgt.
  unfold add.
  rewrite (allocate_stay (set_prev_cursor_ (cursor_ a) a)); simpl;
    try done; try lia.
  eexists. split; [ reflexivity | ]. simpl.
  split; [ | done ].
  exists ids, begin, tail. simpl. split_and!.
  - eapply grounded_stay; eauto.
  - eapply chain_frame; [ exact Hch | | done ].
    intros k Hk. rewrite !lookup_insert_ne by lia. done.
  - lia.
  - lia.
  - rewrite lookup_insert_ne by lia. apply lookup_insert_eq.
  - apply lookup_insert_eq.
Qed.

(** [add] when the record does not fit: a page break takes its place. *)
Lemma add_grows a ws size :
  wf a ws -> 0 < size -> ~ fits a (size + sizeof_size_t) ->
  exists a' tail,
    let fresh := grown_page a (size + sizeof_size_t) tail in
    pages a !! last_ a = Some tail /\
    add size a = Some (index (storage_begin_ fresh) 1, a') /\
    objects a' !! index (cursor_ a) 1 = Some page_break /\
    cells a' !! cursor_ a = Some (storage_begin_ fresh) /\
    storage_begin_ fresh <> 0 /\
    pages a' !! last_ a' = Some fresh /\ last_ a' = brk a /\
    building a' ws /\ prev_cursor_ a' = storage_begin_ fresh /\
    ep_ a' = ep_ a.
Proof.
  intros (ids & begin & tail & Hg & Hch & H0) Hs Hfit.
  assert (0 < cursor_ a < brk a) as Hcur by apply Hg.
  assert (pages a !! last_ a = Some tail) as Htail by apply Hg.
  assert (last_ a <> brk a) as Hne.
  { destruct Hg as (_ & Hall & _). apply Hall in Htail. lia. }
  assert (sizeof_size_t = 8) as Hss by reflexivity.
  assert (sizeof_page = 24) as Hsp by reflexivity.
  assert (0 < size + sizeof_size_t) as Hs' by lia.
  pose proof (bump_gt (brk a + sizeof_page) _ Hs') as Hgt.
  pose proof (chain_le _ _ _ _ _ Hch) as Hle.
  exists (mk_impl (bump (brk a + sizeof_page) (size + sizeof_size_t))
            (brk a + sizeof_page)
            (storage_end_ (grown_page a (size + sizeof_size_t) tail))
            (first_ a) (brk a) (ep_ a) (brk a + sizeof_page)
            (<[bump (brk a + sizeof_page) (size + sizeof_size_t) := 0]>
               (<[brk a + sizeof_page :=
                    bump (brk a + sizeof_page) (size + sizeof_size_t)]>
                  (<[cursor_ a := brk a + sizeof_page]>
                     (<[brk a + sizeof_page := 0]> (cells a)))))
            (<[index (cursor_ a) 1 := page_break]> (objects a))
            (grown_pages a (size + sizeof_size_t) tail)
            (grown_brk a (size + sizeof_size_t) tail)), tail.
  cbv zeta.
  change (storage_begin_ (grown_page a (size + sizeof_size_t) tail))
    with (brk a + sizeof_page).
  cbn [objects cells pages last_ prev_cursor_ ep_].
  split; [ done | ]. split.
  { unfold add.
    rewrite (allocate_grow_fresh (set_prev_cursor_ (cursor_ a) a)
               (size + sizeof_size_t) tail); simpl; try done; lia. }
  split; [ apply lookup_insert_eq | ]. split.
  { rewrite !lookup_insert_ne by lia. apply lookup_insert_eq. }
  split; [ lia | ]. split.
  { unfold grown_pages. rewrite lookup_insert_ne by done.
    apply lookup_insert_eq. }
  split; [ done | ]. split; [ | done ].
  exists (ids ++ [brk a]), begin,
    (grown_page a (size + sizeof_size_t) tail).
  cbn [objects cells pages last_ prev_cursor_ ep_ cursor_]. split_and!.
  - eapply grounded_grow; eauto.
  - eapply chain_snoc_break with (e := cursor_ a).
    + eapply chain_frame; [ exact Hch | | ].
      * intros k Hk. rewrite !lookup_insert_ne by lia. done.
      * intros k Hk. rewrite lookup_insert_ne; [ done | ].
        unfold index. lia.
    + lia.
    + rewrite !lookup_insert_ne by lia. apply lookup_insert_eq.
    + lia.
    + apply lookup_insert_eq.
  - lia.
  - lia.
  - rewrite lookup_insert_ne by lia. apply lookup_insert_eq.
  - apply lookup_insert_eq.
Qed.

(** An allocation made by the constructor of the work item. *)
Lemma allocate_building a ws size :
  building a ws -> 0 < size ->
  exists p a',
    allocate size a = Some (p, a') /\ building a' ws /\
    prev_cursor_ a' = prev_cursor_ a /\ ep_ a' = ep_ a /\
    objects a' = objects a.
Proof.
  intros (ids & begin & tail & Hg & Hch & Hprev & Hlink & H0) Hs.
  assert (0 < cursor_ a < brk a) as Hcur by apply Hg.
  assert (pages a !! last_ a = Some tail) as Htail by apply Hg.
  assert (last_ a <> brk a) as Hne.
  { destruct Hg as (_ & Hall & _). apply Hall in Htail. lia. }
  pose proof (chain_le _ _ _ _ _ Hch) as Hle.
  destruct (fits_dec a size) as [Hfit | Hfit].
  - pose proof (bump_gt (cursor_ a) _ Hs) as Hgt.
    rewrite allocate_stay; try done; try lia.
    eexists _, _. split; [ reflexivity | ]. simpl. split; [ | done ].
    exists ids, begin, tail. simpl. split_and!.
    + eapply grounded_stay; eauto.
    + eapply chain_frame; [ exact Hch | | done ].
      intros k Hk. rewrite !lookup_insert_ne by lia. done.
    + lia.
    + lia.
    + rewrite lookup_insert_ne by lia. apply lookup_insert_eq.
    + apply lookup_insert_eq.
  - pose proof (bump_gt (brk a + sizeof_page) _ Hs) as Hgt.
    rewrite (allocate_grow_linked a size tail); try done; try lia.
    eexists _, _. split; [ reflexivity | ].
    cbn [objects cells pages last_ prev_cursor_ ep_ cursor_].
    split; [ | done ].
    assert (sizeof_page = 24) as Hsp by reflexivity.
    exists (ids ++ [brk a]), begin, (grown_page a size tail).
    cbn [objects cells pages last_ prev_cursor_ ep_ cursor_].
    split_and!.
    + eapply grounded_grow; eauto.
    + eapply chain_frame; [ exact Hch | | done ].
      intros k Hk. rewrite !lookup_insert_ne by lia. done.
    + lia.
    + lia.
    + rewrite lookup_insert_ne by lia. apply lookup_insert_eq.
    + apply lookup_insert_eq.
Qed.

(** The placement [new] completes the record. *)
Lemma construct_wf a ws w :
  building a ws ->
  wf (set_objects (<[index (prev_cursor_ a) 1 := w]> (objects a)) a)
     (ws ++ [w]).
Proof.
  intros (ids & begin & tail & Hg & Hch & Hprev & Hlink & H0).
  exists ids, begin, tail. simpl. split_and!; try done.
  eapply chain_snoc_item with (e := prev_cursor_ a); try done; try lia.
  - eapply chain_frame; [ exact Hch | done | ].
    intros k Hk. rewrite lookup_insert_ne; [ done | ].
    unfold index, sizeof_size_t. lia.
  - apply lookup_insert_eq.
Qed.

Lemma allocate_all_building sizes :
  forall a ws,
  building a ws -> Forall (fun size => 0 < size) sizes ->
  exists a',
    allocate_all sizes a = Some a' /\ building a' ws /\
    prev_cursor_ a' = prev_cursor_ a /\ ep_ a' = ep_ a.
Proof.
  induction sizes as [|size sizes IH]; intros a ws Hb Hs.
  - exists a. by split.
  - apply Forall_cons in Hs as [Hs Hss].
    destruct (allocate_building a ws size Hb Hs)
      as (p & a1 & Ha1 & Hb1 & Hp1 & He1 & _).
    destruct (IH a1 ws Hb1 Hss) as (a' & Ha' & Hb' & Hp' & He').
    exists a'. simpl. rewrite Ha1. simpl. rewrite Ha'.
    split_and!; [ done | done | congruence | congruence ].
Qed.

(** One submission on a well-formed arena appends its work item. *)
Lemma place_spec a ws (x : submission iostreams) :
  wf a ws -> 0 < sizeof_item x ->
  Forall (fun size => 0 < size) (payload x) ->
  exists a', place x a = Some a' /\ wf a' (ws ++ [item x]) /\ ep_ a' = ep_ a.
Proof.
  intros Hwf Hs Hp. unfold place, construct.
  assert (exists loc a1, add (sizeof_item x) a = Some (loc, a1) /\
                         building a1 ws /\ loc = index (prev_cursor_ a1) 1 /\
                         ep_ a1 = ep_ a) as (loc & a1 & Hadd & Hb1 & Hloc & He1).
  { destruct (fits_dec a (sizeof_item x + sizeof_size_t)) as [Hfit | Hfit].
    - destruct (add_fits a ws _ Hwf Hs Hfit)
        as (a1 & Hadd & Hb1 & Hp1 & He1 & _).
      exists (index (cursor_ a) 1), a1. by rewrite Hp1.
    - destruct (add_grows a ws _ Hwf Hs Hfit)
        as (a1 & tail & Htail & Hadd & _ & _ & _ & _ & _ & Hb1 & Hp1 & He1).
      eexists _, a1. split; [ exact Hadd | ]. by rewrite Hp1. }
  destruct (allocate_all_building (payload x) a1 ws Hb1 Hp)
    as (a2 & Ha2 & Hb2 & Hp2 & He2).
  rewrite Hadd. simpl. rewrite Ha2. simpl.
  eexists. split; [ reflexivity | ]. split; [ | simpl; congruence ].
  rewrite Hloc, <- Hp2. by apply construct_wf.
Qed.

Lemma links_snoc m c k e nxt :
  links m c k e -> e <> 0 -> m !! e = Some nxt -> nxt <> 0 ->
  links m c (S k) nxt.
Proof.
  induction 1; intros.
  - eapply links_step; eauto. constructor.
  - eapply links_step; eauto.
Qed.

Lemma grounded_clearable a ids begin tail k e :
  grounded a ids begin tail -> links (cells a) begin k e ->
  e <> 0 -> cells a !! e = Some 0 -> clearable a ids.
Proof.
  intros (Hpg & Hall & (first & Hfirst & Hbegin) & _) Hl He He0.
  split; [ done | ]. split.
  - intros i x Hx. apply Hall in Hx. lia.
  - exists first, k, e. rewrite Hbegin. split_and!; try done.
    apply Hall in Hfirst. lia.
Qed.

Lemma wf_clearable a ws : wf a ws -> exists ids, clearable a ids.
Proof.
  intros (ids & begin & tail & Hg & Hch & H0).
  destruct (chain_links _ _ _ _ _ Hch) as [k Hk].
  exists ids. eapply grounded_clearable; eauto.
  destruct Hg as (_ & _ & _ & _ & _ & _ & Hcur & _). lia.
Qed.

Lemma building_clearable a ws : building a ws -> exists ids, clearable a ids.
Proof.
  intros (ids & begin & tail & Hg & Hch & Hprev & Hlink & H0).
  destruct (chain_links _ _ _ _ _ Hch) as [k Hk].
  exists ids.
  apply (grounded_clearable a ids begin tail (S k) (cursor_ a));
    [ done | | lia | done ].
  eapply links_snoc; [ exact Hk | lia | exact Hlink | lia ].
Qed.

Lemma wf_of_cleared a l tail :
  pages a = {[ l := tail ]} -> first_ a = l -> last_ a = l ->
  cursor_ a = storage_begin_ tail -> end_of_page_ a = storage_end_ tail ->
  cells a !! storage_begin_ tail = Some 0 ->
  0 < storage_begin_ tail ->
  4088 <= storage_end_ tail - storage_begin_ tail ->
  storage_end_ tail < brk a -> 0 < l < brk a ->
  wf a [].
Proof.
  intros Hpg Hf Hl Hc He H0 Hb Hcap Hend Hlb.
  exists [l], (storage_begin_ tail), tail.
  unfold grounded, pages_wf. rewrite Hpg, Hf, Hl, Hc, He.
  split; [ split; [ split; [ | split; [ | split ] ] | ] | split ].
  - eapply page_list_last. apply lookup_singleton_eq.
  - apply NoDup_singleton.
  - done.
  - rewrite dom_singleton_L. set_solver.
  - split.
    { intros i x [<- <-]%lookup_singleton_Some. lia. }
    split.
    { exists tail. split; [ apply lookup_singleton_eq | done ]. }
    split; [ apply lookup_singleton_eq | ].
    split; [ done | ]. split; [ done | ]. lia.
  - constructor.
  - done.
Qed.

(** [clear] on a well-formed arena: well-formed and empty. *)
Lemma impl_clear_wf a ws :
  wf a ws ->
  exists a', returns (fun fuel => impl_clear fuel a) a' /\ wf a' [] /\
             ep_ a' = ep_ a.
Proof.
  intros Hwf. destruct (wf_clearable a ws Hwf) as [ids' Hc].
  destruct (impl_clear_spec a ids' Hc)
    as (tail' & a' & Htail' & Hret & Hpg & Hf & Hl & Hcur & Hprev & Hend
        & Hla & H0 & Hbrk & Hep).
  destruct Hwf as (ids & begin & tail & Hg & Hch & Hz).
  destruct Hg as (_ & Hall & _ & Htail & He & Hcap & _ & Hb & _).
  assert (tail' = tail) as -> by congruence.
  exists a'. split; [ done | ]. split; [ | done ].
  apply Hall in Htail.
  eapply wf_of_cleared; eauto; rewrite ?Hbrk; lia.
Qed.

(** The constructor: one page of 4088 bytes, no record. *)
Lemma impl_ctor_spec base ep :
  0 < base ->
  exists a, returns (fun fuel => impl_ctor fuel base ep) a /\ wf a [] /\
            ep_ a = ep.
Proof.
  intros Hbase.
  pose (a1 := set_last_ base (set_first_ base
         (snd (new_page
                 (4096 - sizeof_size_t * page_break_size_in_std_size_ts)
                 (mk_impl (iostreams := iostreams)
                    0 0 0 0 0 ep 0 ∅ ∅ ∅ base))))).
  assert (forall fuel, impl_clear fuel a1 = impl_ctor fuel base ep) as Hctor
    by reflexivity.
  assert (clearable a1 [base]) as Hc.
  { split; [ | split ].
    - unfold pages_wf. simpl.
      split; [ | split; [ | split ] ].
      + eapply page_list_last. apply lookup_insert_eq.
      + apply NoDup_singleton.
      + done.
      + rewrite dom_insert_L, dom_empty_L. set_solver.
    - intros i x. simpl. rewrite insert_empty.
      intros [<- <-]%lookup_singleton_Some. simpl.
      unfold sizeof_page. lia.
    - eexists _, O, _. simpl. split_and!.
      + apply lookup_insert_eq.
      + simpl. unfold sizeof_page. lia.
      + constructor.
      + simpl. unfold sizeof_page. lia.
      + simpl. apply lookup_insert_eq. }
  destruct (impl_clear_spec a1 [base] Hc)
    as (tail & a' & Htail & Hret & Hpg & Hf & Hl & Hcur & Hprev & Hend
        & Hla & H0 & Hbrk & Hep).
  simpl in Htail. rewrite lookup_insert_eq in Htail. injection Htail as <-.
  exists a'. split; [ by apply (returns_ext _ _ _ Hctor) | ].
  split; [ | done ].
  simpl in *. eapply wf_of_cleared; eauto; rewrite ?Hbrk; simpl;
    unfold index, page_break_size_in_std_size_ts, sizeof_page,
      sizeof_page_break, sizeof_size_t; simpl; zlia.
Qed.

End arena_wf.

(** ** The arena: reachable states, drain order, errors, page breaks *)

Section arena_reachable.
Context {iostreams : Type}.
Implicit Types a : impl iostreams.
Implicit Types w : formatter_or_parser iostreams.
Implicit Types ws : list (formatter_or_parser iostreams).
Implicit Types out : outside iostreams.

Lemma clear_contents_loop_mono n :
  forall m c a r, (n <= m)%nat ->
  clear_contents_loop n c a = Some r -> clear_contents_loop m c a = Some r.
Proof.
  induction n as [|n IH]; intros m c a r Hnm H; [ discriminate | ].
  destruct m as [|m]; [ lia | ]. simpl in *.
  destruct (peek c a) as [link|]; simpl in *; [ | done ].
  destruct (link =? 0); [ done | ]. apply IH; [ lia | done ].
Qed.

Lemma clear_extra_pages_loop_mono n :
  forall m a r, (n <= m)%nat ->
  clear_extra_pages_loop n a = Some r -> clear_extra_pages_loop m a = Some r.
Proof.
  induction n as [|n IH]; intros m a r Hnm H; [ discriminate | ].
  destruct m as [|m]; [ lia | ]. simpl in *.
  destruct (first_ a =? last_ a); [ done | ].
  destruct (pages a !! first_ a) as [first|]; simpl in *; [ | done ].
  apply IH; [ lia | done ].
Qed.

Lemma impl_clear_mono n m a r :
  (n <= m)%nat -> impl_clear n a = Some r -> impl_clear m a = Some r.
Proof.
  unfold impl_clear, clear_contents, clear_extra_pages. intros Hnm H.
  destruct (pages a !! first_ a) as [first|]; simpl in *; [ | done ].
  destruct (clear_contents_loop n (storage_begin_ first) a) as [a1|] eqn:E1;
    simpl in *; [ | done ].
  rewrite (clear_contents_loop_mono _ _ _ _ _ Hnm E1). simpl.
  destruct (poke (storage_begin_ first) 0 a1) as [a2|]; simpl in *; [ | done ].
  destruct (clear_extra_pages_loop n a2) as [a3|] eqn:E3; simpl in *; [ | done ].
  rewrite (clear_extra_pages_loop_mono _ _ _ _ Hnm E3). done.
Qed.

Lemma reachable_arena_wf a ws : reachable_arena a ws -> wf a ws.
Proof.
  induction 1 as [fuel base ep a Hbase Hctor
                 | a ws x a' Hr IH Hs Hp Hplace
                 | fuel a ws a' Hr IH Hclear].
  - destruct (impl_ctor_spec (iostreams := iostreams) base ep Hbase)
      as (a0 & Hret & Hwf & _).
    assert (returns (fun fuel => impl_ctor fuel base ep) a) as Hret'.
    { apply returns_at with fuel; [ | done ].
      intros n m r. apply impl_clear_mono. }
    by rewrite (returns_inj _ _ _ Hret' Hret).
  - destruct (place_spec a ws x IH Hs Hp) as (a0 & Hplace' & Hwf & _).
    congruence.
  - destruct (impl_clear_wf a ws IH) as (a0 & Hret & Hwf & _).
    assert (returns (fun fuel => impl_clear fuel a) a') as Hret'.
    { apply returns_at with fuel; [ | done ].
      intros n m r. apply impl_clear_mono. }
    by rewrite (returns_inj _ _ _ Hret' Hret).
Qed.

Lemma drain_wf a ws :
  wf a ws ->
  forall out,
    returns (fun fuel => drain fuel a out)
      (foldl (fun out w => apply_caught (ep_ a) w out) out ws).
Proof.
  intros (ids & begin & tail & Hg & Hch & H0) out.
  destruct Hg as (_ & _ & (first & Hfirst & Hbegin) & _ & _ & _ & Hcur & _).
  destruct (drain_loop_spec a begin ws (cursor_ a)) as [N HN];
    [ done | lia | done | ].
  exists N. intros fuel Hf. unfold drain. rewrite Hfirst. simpl.
  rewrite Hbegin. by apply HN.
Qed.


Lemma foldl_apply_caught ep ws :
  forall out,
    foldl (fun out w => apply_caught ep w out) out ws
    = mk_outside (applied_all ws (io out))
        (ep_calls out ++ if ep then reports ws (io out) else []).
Proof.
  induction ws as [|w ws IH]; intros [s calls]; simpl.
  - destruct ep; by rewrite app_nil_r.
  - rewrite IH. unfold apply_caught, catch_clause, report. simpl.
    destruct (apply w s) as [s' [e|]]; simpl; [ | done ].
    destruct ep; simpl.
    + destruct (is_boost_exception e), (is_std_exception e); simpl;
        by rewrite <- app_assoc.
    + by destruct (is_boost_exception e), (is_std_exception e).
Qed.



(** C7 (as the code has it): when the record [add] places does not fit, the
    fresh page has room for the greater of twice the tail page's capacity
    and twice the size passed to [allocate] less one, rounded down to whole
    words; when the request is larger than the tail page this is less than
    twice the requested size. *)
Theorem add_grows_to_twice_tail_or_twice_size_less_one a ws size :
  reachable_arena a ws -> 0 < size -> ~ fits a (size + sizeof_size_t) ->
  exists tail p a' fresh,
    pages a !! last_ a = Some tail /\
    add size a = Some (p, a') /\
    pages a' !! last_ a' = Some fresh /\ last_ a' <> last_ a /\
    let requested_size := size + sizeof_size_t in
    capacity fresh
    = sizeof_size_t *
      (Z.max (2 * capacity tail) (2 * (requested_size - 1)) / sizeof_size_t) /\
    (capacity tail < requested_size - 1 ->
     capacity fresh < Z.max (2 * capacity tail) (2 * requested_size)).
Proof.
  intros Hr Hs Hfit. pose proof (reachable_arena_wf a ws Hr) as Hwf.
  destruct (add_grows a ws size Hwf Hs Hfit)
    as (a' & tail & Htail & Hadd & _ & _ & _ & Hfresh & Hlast & _).
  exists tail, (index (storage_begin_ (grown_page a (size + sizeof_size_t) tail)) 1),
    a', (grown_page a (size + sizeof_size_t) tail).
  destruct Hwf as (ids & begin & tail0 & Hg & _).
  destruct Hg as (_ & Hall & _).
  split; [ done | ]. split; [ done | ]. split; [ done | ]. split.
  { rewrite Hlast. apply Hall in Htail. lia. }
  cbv zeta.
  assert (capacity (grown_page a (size + sizeof_size_t) tail)
          = sizeof_size_t *
            (Z.max (2 * capacity tail) (2 * (size + sizeof_size_t - 1))
             / sizeof_size_t)) as Hcap.
  { unfold capacity, grown_page, grown_page_size, index. cbn [storage_end_ storage_begin_].
    destruct (Z.ltb_spec (2 * (storage_end_ tail - storage_begin_ tail))
                (2 * (size + sizeof_size_t - 1))).
    - rewrite Z.max_r by lia. lia.
    - rewrite Z.max_l by lia. lia. }
  split; [ done | ]. intros Hbig. rewrite Hcap.
  rewrite Z.max_r by lia. rewrite (Z.max_r (2 * capacity tail)) by lia.
  unfold sizeof_size_t in *. zlia.
Qed.

End arena_reachable.

(** ** The stream between calls *)

Section stream_quiescent.
Context {iostreams : Type}.
Variable ostream_flush : iostreams -> iostreams.
Implicit Types pi pc : allocator iostreams.
Implicit Types out : outside iostreams.

Lemma ltb_true x y : x < y -> (x <? y) = true.
Proof. apply Z.ltb_lt. Qed.
Lemma ltb_false x y : y <= x -> (x <? y) = false.
Proof. apply Z.ltb_ge. Qed.
Lemma gtb_true x y : y < x -> (x >? y) = true.
Proof. rewrite Z.gtb_ltb. apply Z.ltb_lt. Qed.
Lemma gtb_false x y : x <= y -> (x >? y) = false.
Proof. rewrite Z.gtb_ltb. apply Z.ltb_ge. Qed.
Lemma leb_true x y : x <= y -> (x <=? y) = true.
Proof. apply Z.leb_le. Qed.
Lemma leb_false x y : y < x -> (x <=? y) = false.
Proof. apply Z.leb_gt. Qed.

Ltac compare :=
  repeat first
    [ rewrite ltb_true by lia | rewrite ltb_false by lia
    | rewrite gtb_true by lia | rewrite gtb_false by lia
    | rewrite leb_true by lia | rewrite leb_false by lia
    | progress simpl ].

Ltac evaluate :=
  unfold between_calls, inserter_at, consumer_at, submit, begin_insert,
    insert_transaction_dtor, insert_transaction_commit,
    consume_transaction_dtor, consume_transaction_commit, try_consume,
    warmup_before_inserting, switch_pages, lock, try_lock, unlock,
    scoped_try_lock_dtor, insert_transaction_init, consume_transaction_init,
    insert_transaction_ctor, consume_transaction_ctor, initialized;
  simpl.
Ltac normalize_store :=
  cbv [emit with_queue unlock set_locked set_inserting_ set_consuming_
       set_last_inserted_sequence_number_ set_inserter_switched_pages_
       set_seq_no_generator_ set_last_consumed_sequence_number_
       set_inserter_ set_consumer_ set_last_enqueued_sequence_number_
       set_consumer_couldnt_switch_ queue at_buffer1 at_buffer2 trace
       inserting_ last_inserted_sequence_number_ inserter_switched_pages_
       seq_no_generator_ consuming_ last_consumed_sequence_number_
       inserter_ consumer_ last_enqueued_sequence_number_
       consumer_couldnt_switch_ negb].
Lemma submit_after_clear x flip li le lc pi pc tr :
  0 <= li -> li + 1 < 2 ^ 64 -> sequence_number_ pi < le ->
  exists tr', forall fuel a a',
    impl_clear fuel (impl_ pi) = Some a -> place x a = Some a' ->
    submit fuel x (between_calls false false flip li le lc pi pc tr)
    = Some (between_calls false false flip (li + 1) le lc
              (mk_allocator (li + 1) a') pc tr').
Proof.
  intros H0 Hw Hsn. eexists. intros fuel a a' Hclear Hplace. evaluate.
  rewrite (size_t_wrap_small (li + 1)) by lia.
  destruct flip; simpl; compare; unfold allocator_clear;
    rewrite Hclear; compare; rewrite Hplace; compare; normalize_store;
    reflexivity.
Qed.

Lemma submit_appending x flip li le lc pi pc tr :
  0 <= li -> li + 1 < 2 ^ 64 -> le <= sequence_number_ pi ->
  exists tr', forall fuel a',
    place x (impl_ pi) = Some a' ->
    submit fuel x (between_calls false false flip li le lc pi pc tr)
    = Some (between_calls false false flip (li + 1) le lc
              (mk_allocator (li + 1) a') pc tr').
Proof.
  intros H0 Hw Hsn. eexists. intros fuel a' Hplace. evaluate.
  rewrite (size_t_wrap_small (li + 1)) by lia.
  destruct flip; simpl; destruct (Z.leb_spec (sequence_number_ pi) le);
    compare; rewrite Hplace; compare; normalize_store; reflexivity.
Qed.

Lemma warmup_after_clear flip li le lc pi pc tr :
  sequence_number_ pi < le ->
  exists tr', forall fuel a,
    impl_clear fuel (impl_ pi) = Some a ->
    warmup_before_inserting fuel
      (between_calls false false flip li le lc pi pc tr)
    = Some (between_calls false false flip li le lc (mk_allocator le a) pc tr').
Proof.
  intros Hsn. eexists. intros fuel a Hclear. evaluate.
  destruct flip; simpl; compare; unfold allocator_clear;
    rewrite Hclear; compare; normalize_store; reflexivity.
Qed.

Lemma warmup_nothing flip li le lc pi pc tr :
  le <= sequence_number_ pi ->
  exists tr', forall fuel,
    warmup_before_inserting fuel
      (between_calls false false flip li le lc pi pc tr)
    = Some (between_calls false false flip li le lc pi pc tr').
Proof.
  intros Hsn. eexists. intros fuel. evaluate.
  destruct flip; simpl; compare; normalize_store; reflexivity.
Qed.

Lemma deref_consumer il cl flip li le lc pi pc tr :
  deref (consumer_at flip) (between_calls il cl flip li le lc pi pc tr) = pc.
Proof. by destruct flip. Qed.

Lemma try_consume_handed flip li le lc pi pc tr :
  lc < le ->
  exists tr',
    try_consume consume_transaction_ctor
      (between_calls false false flip li le lc pi pc tr)
    = Some (mk_consume_result cr_success,
            mk_consume_transaction (Some (consumer_at flip)) true,
            between_calls false true flip li le (sequence_number_ pc)
              pi pc tr').
Proof.
  intros Hc. evaluate. destruct flip; simpl; compare; normalize_store;
    eexists; reflexivity.
Qed.

Lemma try_consume_switching flip li le lc pi pc tr :
  le <= lc -> le < li -> sequence_number_ pi = li -> lc < li ->
  exists tr',
    try_consume consume_transaction_ctor
      (between_calls false false flip li le lc pi pc tr)
    = Some (mk_consume_result cr_success,
            mk_consume_transaction (Some (consumer_at (negb flip))) true,
            between_calls false true (negb flip) li li li pc pi tr').
Proof.
  intros Hc Hi Hsn Hlc. evaluate.
  destruct flip; simpl; compare; rewrite ?Hsn; compare; normalize_store;
    rewrite ?Hsn; eexists; reflexivity.
Qed.

Lemma try_consume_nothing flip li le lc pi pc tr :
  le <= lc -> li <= le ->
  exists tr',
    try_consume consume_transaction_ctor
      (between_calls false false flip li le lc pi pc tr)
    = Some (mk_consume_result cr_no_more_work, consume_transaction_ctor,
            between_calls false false flip li le lc pi pc tr').
Proof.
  intros Hc Hi. evaluate. destruct flip; simpl; compare; normalize_store;
    eexists; reflexivity.
Qed.

Lemma consume_commit_keeping b flip li le lc pi pc tr :
  li <= le ->
  exists tr',
    consume_transaction_dtor (mk_consume_transaction b true)
      (between_calls false true flip li le lc pi pc tr)
    = Some (mk_consume_transaction None false,
            between_calls false false flip li le lc pi pc tr').
Proof.
  intros Hi. evaluate. destruct flip; simpl; compare; normalize_store;
    eexists; reflexivity.
Qed.

Lemma consume_commit_switching b flip li le lc pi pc tr :
  le < li -> le < sequence_number_ pi ->
  exists tr',
    consume_transaction_dtor (mk_consume_transaction b true)
      (between_calls false true flip li le lc pi pc tr)
    = Some (mk_consume_transaction None false,
            between_calls false false (negb flip) li (sequence_number_ pi)
              lc pc pi tr').
Proof.
  intros Hi Hsn. evaluate. destruct flip; simpl; compare; normalize_store;
    eexists; reflexivity.
Qed.

Lemma consume_commit_unbegun s :
  consume_transaction_dtor consume_transaction_ctor s
  = Some (mk_consume_transaction None false, s :> tpd_store (allocator iostreams)).
Proof. reflexivity. Qed.

Lemma try_drain_loop_unfold inner fuel r (s : tpd_store (allocator iostreams)) out :
  try_drain_loop inner (S fuel) r s out =
  '(c, t, s) ← try_consume consume_transaction_ctor s;
  if negb (consumed c) then
    '(_, s) ← consume_transaction_dtor t s;
    Some (r, s, out)
  else
    b ← ct_buffer_ t;
    out ← drain inner (impl_ (deref b s)) out;
    '(_, s) ← consume_transaction_dtor t s;
    try_drain_loop inner fuel true s out.
Proof. reflexivity. Qed.

Lemma try_drain_consume flip li le lc pi pc tr :
  lc < le -> li <= le ->
  exists tr', forall inner fuel r out out1,
    drain inner (impl_ pc) out = Some out1 ->
    try_drain_loop inner (S fuel) r
      (between_calls false false flip li le lc pi pc tr) out
    = try_drain_loop inner fuel true
        (between_calls false false flip li le (sequence_number_ pc) pi pc tr')
        out1.
Proof.
  intros Hc Hi.
  destruct (try_consume_handed flip li le lc pi pc tr Hc) as [tr1 H1].
  destruct (consume_commit_keeping (Some (consumer_at flip)) flip li le
              (sequence_number_ pc) pi pc tr1 Hi) as [tr2 H2].
  exists tr2. intros inner fuel r out out1 Hdrain.
  rewrite try_drain_loop_unfold, H1.
  cbn [mbind option_bind consumed outcome_ ct_buffer_].
  change (negb (negb (Z.land cr_success cr_consumed =? 0))) with false.
  cbv iota. rewrite deref_consumer, Hdrain.
  cbn [mbind option_bind]. rewrite H2. reflexivity.
Qed.

Lemma try_drain_consume_switch flip li le lc pi pc tr :
  lc < le -> le < li -> le < sequence_number_ pi ->
  exists tr', forall inner fuel r out out1,
    drain inner (impl_ pc) out = Some out1 ->
    try_drain_loop inner (S fuel) r
      (between_calls false false flip li le lc pi pc tr) out
    = try_drain_loop inner fuel true
        (between_calls false false (negb flip) li (sequence_number_ pi)
           (sequence_number_ pc) pc pi tr')
        out1.
Proof.
  intros Hc Hi Hsn.
  destruct (try_consume_handed flip li le lc pi pc tr Hc) as [tr1 H1].
  destruct (consume_commit_switching (Some (consumer_at flip)) flip li le
              (sequence_number_ pc) pi pc tr1 Hi Hsn) as [tr2 H2].
  exists tr2. intros inner fuel r out out1 Hdrain.
  rewrite try_drain_loop_unfold, H1.
  cbn [mbind option_bind consumed outcome_ ct_buffer_].
  change (negb (negb (Z.land cr_success cr_consumed =? 0))) with false.
  cbv iota. rewrite deref_consumer, Hdrain.
  cbn [mbind option_bind]. rewrite H2. reflexivity.
Qed.

Lemma try_drain_switch_consume flip li le lc pi pc tr :
  le <= lc -> le < li -> sequence_number_ pi = li -> lc < li ->
  exists tr', forall inner fuel r out out1,
    drain inner (impl_ pi) out = Some out1 ->
    try_drain_loop inner (S fuel) r
      (between_calls false false flip li le lc pi pc tr) out
    = try_drain_loop inner fuel true
        (between_calls false false (negb flip) li li li pc pi tr')
        out1.
Proof.
  intros Hc Hi Hsn Hlc.
  destruct (try_consume_switching flip li le lc pi pc tr Hc Hi Hsn Hlc)
    as [tr1 H1].
  destruct (consume_commit_keeping (Some (consumer_at (negb flip)))
              (negb flip) li li li pc pi tr1 ltac:(lia)) as [tr2 H2].
  exists tr2. intros inner fuel r out out1 Hdrain.
  rewrite try_drain_loop_unfold, H1.
  cbn [mbind option_bind consumed outcome_ ct_buffer_].
  change (negb (negb (Z.land cr_success cr_consumed =? 0))) with false.
  cbv iota. rewrite deref_consumer, Hdrain.
  cbn [mbind option_bind]. rewrite H2. reflexivity.
Qed.

Lemma try_drain_no_more_work flip li le lc pi pc tr :
  le <= lc -> li <= le ->
  exists tr', forall inner fuel r out,
    try_drain_loop inner (S fuel) r
      (between_calls false false flip li le lc pi pc tr) out
    = Some (r, between_calls false false flip li le lc pi pc tr', out).
Proof.
  intros Hc Hi.
  destruct (try_consume_nothing flip li le lc pi pc tr Hc Hi) as [tr1 H1].
  exists tr1. intros inner fuel r out.
  rewrite try_drain_loop_unfold, H1.
  cbn [mbind option_bind consumed outcome_].
  change (negb (negb (Z.land cr_no_more_work cr_consumed =? 0))) with true.
  cbv iota. rewrite consume_commit_unbegun. reflexivity.
Qed.

End stream_quiescent.

(** ** The stream: nothing is lost *)

Section stream_theory.
Context {iostreams : Type}.
Variable ostream_flush : iostreams -> iostreams.
Implicit Types pi pc : allocator iostreams.
Implicit Types out : outside iostreams.
Implicit Types C I : list (formatter_or_parser iostreams).

Lemma submit_inv ep x flip li le lc pi pc tr C I :
  stream_inv ep li le lc pi pc C I -> li + 1 < 2 ^ 64 ->
  valid_submission x ->
  exists pi' tr',
    returns
      (fun fuel =>
         submit fuel x (between_calls false false flip li le lc pi pc tr))
      (between_calls false false flip (li + 1) le lc pi' pc tr') /\
    stream_inv ep (li + 1) le lc pi' pc C (I ++ [item x]).
Proof.
  intros (Hord & (Hi1 & Hi2) & Hc & HC & HC0 & (wi & Hwi & HwiI & Hwi0)
          & HI0 & Hepi & Hepc) Hw (Hs & Hp).
  destruct (Z_lt_le_dec (sequence_number_ pi) le) as [Hlt | Hge].
  - assert (li = le) as -> by lia.
    rewrite (HI0 ltac:(lia)). simpl.
    destruct (impl_clear_wf _ _ Hwi) as (a & [N HN] & Hwa & Hepa).
    destruct (place_spec a [] x Hwa Hs Hp) as (a' & Hplace & Hwa' & Hepa').
    destruct (submit_after_clear x flip le le lc pi pc tr) as [tr' Hsub];
      [ lia | lia | lia | ].
    exists (mk_allocator (le + 1) a'), tr'. split.
    + exists N. intros fuel Hf. eapply Hsub; eauto.
    + unfold stream_inv. simpl. split_and!; try done; try lia;
        try congruence.
      exists [item x]. split_and!; [ done | done | lia ].
  - destruct (place_spec _ wi x Hwi Hs Hp) as (a' & Hplace & Hwa' & Hepa').
    destruct (submit_appending x flip li le lc pi pc tr) as [tr' Hsub];
      [ lia | lia | lia | ].
    exists (mk_allocator (li + 1) a'), tr'. split.
    + exists O. intros fuel Hf. eapply Hsub; eauto.
    + unfold stream_inv. simpl. split_and!; try done; try lia;
        try congruence.
      exists (wi ++ [item x]). split_and!; [ done | | lia ].
      intros _. destruct (Z_lt_le_dec le li) as [Hlt' | Hge'].
      * by rewrite HwiI.
      * rewrite (Hwi0 Hge' ltac:(lia)), (HI0 Hge'). done.
Qed.

Lemma warmup_inv ep flip li le lc pi pc tr C I :
  stream_inv ep li le lc pi pc C I ->
  exists pi' tr',
    returns
      (fun fuel =>
         warmup_before_inserting fuel
           (between_calls false false flip li le lc pi pc tr))
      (between_calls false false flip li le lc pi' pc tr') /\
    stream_inv ep li le lc pi' pc C I.
Proof.
  intros (Hord & (Hi1 & Hi2) & Hc & HC & HC0 & (wi & Hwi & HwiI & Hwi0)
          & HI0 & Hepi & Hepc).
  destruct (Z_lt_le_dec (sequence_number_ pi) le) as [Hlt | Hge].
  - assert (li = le) as -> by lia.
    destruct (impl_clear_wf _ _ Hwi) as (a & [N HN] & Hwa & Hepa).
    destruct (warmup_after_clear flip le le lc pi pc tr Hlt) as [tr' Hwarm].
    exists (mk_allocator le a), tr'. split.
    + exists N. intros fuel Hf. eapply Hwarm; eauto.
    + unfold stream_inv. simpl. split_and!; try done; try lia;
        try congruence.
      exists []. split_and!; [ done | lia | done ].
  - destruct (warmup_nothing flip li le lc pi pc tr Hge) as [tr' Hwarm].
    exists pi, tr'. split.
    + exists O. intros fuel Hf. apply Hwarm.
    + unfold stream_inv. split_and!; try done; try lia; try tauto.
      by exists wi.
Qed.

(** [try_drain] applies everything that is pending, in order, and leaves
    the queue empty. *)
Lemma try_drain_inv ep flip li le lc pi pc tr C I out :
  stream_inv ep li le lc pi pc C I ->
  exists flip' pi' pc' tr',
    returns
      (fun fuel =>
         try_drain fuel (between_calls false false flip li le lc pi pc tr) out)
      (bool_decide (lc < li),
       between_calls false false flip' li li li pi' pc' tr',
       foldl (fun out w => apply_caught ep w out) out (C ++ I)) /\
    stream_inv ep li li li pi' pc' [] [].
Proof.
  intros (Hord & (Hi1 & Hi2) & (Hc1 & Hc2) & (wc & Hwc & HwcC) & HC0
          & (wi & Hwi & HwiI & Hwi0) & HI0 & Hepi & Hepc).
  destruct (Z_lt_le_dec lc le) as [Hcl | Hcl];
    destruct (Z_lt_le_dec le li) as [Hil | Hil].
  - (* both pages hold pending work *)
    specialize (HwcC Hcl). specialize (HwiI Hil). subst wc wi.
    specialize (Hi2 Hil). specialize (Hc2 Hcl).
    destruct (drain_wf _ _ Hwc out) as [N1 H1].
    destruct (drain_wf _ _ Hwi
                (foldl (fun out w => apply_caught ep w out) out C))
      as [N2 H2].
    rewrite Hepc in H1. rewrite Hepi in H2.
    destruct (try_drain_consume_switch flip li le lc pi pc tr)
      as [tr1 R1]; [ lia | lia | lia | ].
    rewrite Hi2, Hc2 in R1.
    destruct (try_drain_consume (negb flip) li li le pc pi tr1)
      as [tr2 R2]; [ lia | lia | ].
    rewrite Hi2 in R2.
    destruct (try_drain_no_more_work (negb flip) li li li pc pi tr2)
      as [tr3 R3]; [ lia | lia | ].
    exists (negb flip), pc, pi, tr3. split.
    + exists (3 + N1 + N2)%nat. intros fuel Hf. unfold try_drain.
      destruct fuel as [|[|[|fuel]]]; try lia.
      erewrite R1 by (apply H1; lia).
      erewrite R2 by (apply H2; lia).
      rewrite R3, foldl_app, bool_decide_eq_true_2 by lia. done.
    + unfold stream_inv. split_and!; try done; try lia.
      * exists I. split_and!; intros; first [ done | lia ].
      * exists C. split_and!; intros; first [ done | lia ].
  - (* only the consumer page holds pending work *)
    specialize (HwcC Hcl). subst wc. specialize (Hc2 Hcl).
    assert (li = le) as -> by lia. rewrite (HI0 ltac:(lia)), app_nil_r.
    destruct (drain_wf _ _ Hwc out) as [N1 H1]. rewrite Hepc in H1.
    destruct (try_drain_consume flip le le lc pi pc tr)
      as [tr1 R1]; [ lia | lia | ].
    rewrite Hc2 in R1.
    destruct (try_drain_no_more_work flip le le le pi pc tr1)
      as [tr2 R2]; [ lia | lia | ].
    exists flip, pi, pc, tr2. split.
    + exists (2 + N1)%nat. intros fuel Hf. unfold try_drain.
      destruct fuel as [|[|fuel]]; try lia.
      erewrite R1 by (apply H1; lia).
      rewrite R2, bool_decide_eq_true_2 by lia. done.
    + unfold stream_inv. split_and!; try done; try lia.
      * exists C. split_and!; intros; first [ done | lia ].
      * exists wi. split_and!; intros; first [ done | lia | auto ].
  - (* only the inserter page holds pending work *)
    specialize (HwiI Hil). subst wi. specialize (Hi2 Hil).
    rewrite (HC0 Hcl). simpl.
    destruct (drain_wf _ _ Hwi out) as [N1 H1]. rewrite Hepi in H1.
    destruct (try_drain_switch_consume flip li le lc pi pc tr)
      as [tr1 R1]; [ lia | lia | lia | lia | ].
    destruct (try_drain_no_more_work (negb flip) li li li pc pi tr1)
      as [tr2 R2]; [ lia | lia | ].
    exists (negb flip), pc, pi, tr2. split.
    + exists (2 + N1)%nat. intros fuel Hf. unfold try_drain.
      destruct fuel as [|[|fuel]]; try lia.
      erewrite R1 by (apply H1; lia).
      rewrite R2, bool_decide_eq_true_2 by lia. done.
    + unfold stream_inv. split_and!; try done; try lia.
      * exists I. split_and!; intros; first [ done | lia ].
      * exists wc. split_and!; intros; first [ done | lia ].
  - (* nothing is pending *)
    assert (lc = le) as -> by lia. assert (li = le) as -> by lia.
    rewrite (HC0 ltac:(lia)), (HI0 ltac:(lia)). simpl.
    destruct (try_drain_no_more_work flip le le le pi pc tr)
      as [tr1 R1]; [ lia | lia | ].
    exists flip, pi, pc, tr1. split.
    + exists 1%nat. intros fuel Hf. unfold try_drain.
      destruct fuel as [|fuel]; try lia.
      rewrite R1, bool_decide_eq_false_2 by lia. done.
    + unfold stream_inv. split_and!; try done; try lia.
      * exists wc. split_and!; intros; first [ done | lia ].
      * exists wi. split_and!; intros; first [ done | lia | auto ].
Qed.

Lemma foldl_perform_apply ep ws out :
  foldl (perform ostream_flush ep) out (act_apply <$> ws)
  = foldl (fun out w => apply_caught ep w out) out ws.
Proof. revert out. induction ws as [|w ws IH]; intros out; simpl; auto. Qed.

Lemma applied_apply (ws : list (formatter_or_parser iostreams)) :
  applied (act_apply <$> ws) = ws.
Proof.
  induction ws as [|w ws IH]; [ done | ].
  rewrite fmap_cons. simpl. by rewrite IH.
Qed.

Lemma applied_app (xs ys : list (action iostreams)) :
  applied (xs ++ ys) = applied xs ++ applied ys.
Proof.
  induction xs as [|[w|] xs IH]; simpl; [ done | by rewrite IH | done ].
Qed.

Lemma submitted_cons (o : stream_op iostreams) os :
  submitted (o :: os) = submitted [o] ++ submitted os.
Proof. by destruct o. Qed.

Lemma stream_step_ok ep b w pend o :
  stream_ok ep b w pend -> b + 1 < 2 ^ 64 -> valid_call o ->
  exists w' acts pend',
    returns (fun fuel => stream_step ostream_flush fuel o w) w' /\
    stream_ok ep (b + 1) w' pend' /\
    streams_ w' = streams_ w /\
    out_ w' = foldl (perform ostream_flush ep) (out_ w) acts /\
    applied acts ++ pend' = pend ++ submitted [o].
Proof.
  intros (flip & li & le & lc & pi & pc & tr & C & I & Hs & Hinv & -> & Hb)
    Hw Hvalid.
  destruct o as [x | | ]; simpl in Hvalid.
  - destruct (submit_inv ep x flip li le lc pi pc tr C I Hinv ltac:(lia) Hvalid)
      as (pi' & tr' & [N HN] & Hinv').
    eexists (mk_world (streams_ w) (Some _) (out_ w)), [], _.
    split; [ | split; [ | split; [ done | split; [ done | ] ] ] ].
    + exists N. intros fuel Hf. unfold stream_step. rewrite Hs. simpl.
      rewrite HN by done. reflexivity.
    + exists flip, (li + 1), le, lc, pi', pc, tr', C, (I ++ [item x]).
      simpl. split_and!; [ done | done | done | lia ].
    + simpl. by rewrite app_assoc.
  - destruct (warmup_inv ep flip li le lc pi pc tr C I Hinv)
      as (pi' & tr' & [N HN] & Hinv').
    eexists (mk_world (streams_ w) (Some _) (out_ w)), [], _.
    split; [ | split; [ | split; [ done | split; [ done | ] ] ] ].
    + exists N. intros fuel Hf. unfold stream_step. rewrite Hs. simpl.
      rewrite HN by done. reflexivity.
    + exists flip, li, le, lc, pi', pc, tr', C, I.
      simpl. split_and!; [ done | done | done | lia ].
    + simpl. by rewrite app_nil_r.
  - destruct (try_drain_inv ep flip li le lc pi pc tr C I (out_ w) Hinv)
      as (flip' & pi' & pc' & tr' & [N HN] & Hinv').
    eexists (mk_world (streams_ w) (Some _) _),
      ((act_apply <$> (C ++ I))
         ++ if bool_decide (lc < li) then [act_flush] else []), [].
    split; [ | split; [ | split; [ done | split ] ] ].
    + exists N. intros fuel Hf. unfold stream_step, run. rewrite Hs. simpl.
      rewrite HN by done. reflexivity.
    + exists flip', li, li, li, pi', pc', tr', [], [].
      simpl. split_and!; [ done | done | done | lia ].
    + simpl. rewrite <- (foldl_perform_apply ep (C ++ I)).
      destruct (bool_decide (lc < li)); rewrite foldl_app; done.
    + simpl. rewrite applied_app, applied_apply, !app_nil_r.
      destruct (bool_decide (lc < li)); simpl; by rewrite app_nil_r.
Qed.

Lemma stream_steps_ok os :
  forall ep b w pend,
  stream_ok ep b w pend -> b + Z.of_nat (length os) < 2 ^ 64 ->
  Forall valid_call os ->
  exists w' acts pend',
    returns (fun fuel => stream_steps ostream_flush fuel os w) w' /\
    stream_ok ep (b + Z.of_nat (length os)) w' pend' /\
    streams_ w' = streams_ w /\
    out_ w' = foldl (perform ostream_flush ep) (out_ w) acts /\
    applied acts ++ pend' = pend ++ submitted os.
Proof.
  induction os as [|o os IH]; intros ep b w pend Hok Hb Hvalid.
  - exists w, [], pend. simpl. split; [ apply returns_const | ].
    rewrite Z.add_0_r, app_nil_r. by split_and!.
  - apply Forall_cons in Hvalid as [Ho Hos]. simpl length in *.
    destruct (stream_step_ok ep b w pend o Hok ltac:(lia) Ho)
      as (w1 & acts1 & pend1 & Hret1 & Hok1 & Hstr1 & Hout1 & Happ1).
    destruct (IH ep (b + 1) w1 pend1 Hok1 ltac:(lia) Hos)
      as (w2 & acts2 & pend2 & Hret2 & Hok2 & Hstr2 & Hout2 & Happ2).
    exists w2, (acts1 ++ acts2), pend2.
    split; [ | split; [ | split; [ congruence | split ] ] ].
    + simpl. by apply returns_bind with w1.
    + replace (b + Z.of_nat (S (length os)))
        with (b + 1 + Z.of_nat (length os)) by lia. done.
    + by rewrite foldl_app, <- Hout1.
    + rewrite applied_app, <- app_assoc, Happ2, app_assoc, Happ1,
        (submitted_cons o os), app_assoc. done.
Qed.

Lemma stream_ctor_ok this base ep (w0 : world iostreams) :
  0 < base ->
  exists w,
    returns (fun fuel => stream_ctor fuel this base ep w0) w /\
    stream_ok ep 1 w [] /\
    streams_ w = service_add this (streams_ w0) /\ out_ w = out_ w0.
Proof.
  intros Hbase.
  destruct (impl_ctor_spec (iostreams := iostreams) base ep Hbase)
    as (a & [N HN] & Hwf & Hep).
  exists (mk_world (service_add this (streams_ w0))
            (Some (between_calls false false false 1 1 1
                     (mk_allocator 0 a) (mk_allocator 0 a) []))
            (out_ w0)).
  split; [ | split; [ | done ] ].
  - exists N. intros fuel Hf. unfold stream_ctor, allocator_ctor.
    rewrite HN by done. reflexivity.
  - exists false, 1, 1, 1, (mk_allocator 0 a), (mk_allocator 0 a), [], [], [].
    split; [ done | ]. split; [ | done ].
    unfold stream_inv. simpl. split_and!; try done; try lia.
    + exists []. split; [ done | lia ].
    + exists []. split_and!; [ done | lia | done ].
Qed.

Lemma impl_dtor_ok (a : impl iostreams) ws :
  wf a ws -> exists a', returns (fun fuel => impl_dtor fuel a) a'.
Proof.
  intros Hwf. destruct (impl_clear_wf a ws Hwf) as (a' & [N HN] & _).
  exists (delete_page (first_ a') a'). exists N. intros fuel Hf.
  unfold impl_dtor. by rewrite HN.
Qed.

Lemma tpd_empty_between_calls il cl flip li le lc pi pc tr :
  tpd_empty (queue (between_calls il cl flip li le lc pi pc tr))
  = Some (li =? lc).
Proof. by destruct flip. Qed.

Lemma stream_dtor_loop_unfold inner fuel
    (s : tpd_store (allocator iostreams)) out :
  stream_dtor_loop ostream_flush inner (S fuel) s out =
  e ← tpd_empty (queue s);
  if (e : bool) then Some (s, out)
  else
    '(r, s, out) ← try_drain inner s out;
    stream_dtor_loop ostream_flush inner fuel s
      (if (r : bool) then flush ostream_flush out else out).
Proof. reflexivity. Qed.

(** The loop of the destructor, then the destructors of the two pages. *)
Lemma stream_dtor_ok ep b (w : world iostreams) pend this :
  stream_ok ep b w pend ->
  exists w' s0 s out acts,
    stream_impl_ w = Some s0 /\
    returns (fun fuel => stream_dtor_loop ostream_flush fuel fuel s0 (out_ w))
      (s, out) /\
    tpd_empty (queue s) = Some true /\
    returns (fun fuel => stream_dtor ostream_flush fuel this w) w' /\
    streams_ w' = service_remove this (streams_ w) /\
    stream_impl_ w' = None /\ out_ w' = out /\
    out = foldl (perform ostream_flush ep) (out_ w) acts /\
    applied acts = pend.
Proof.
  intros (flip & li & le & lc & pi & pc & tr & C & I & Hs & Hinv & -> & Hb).
  destruct (try_drain_inv ep flip li le lc pi pc tr C I (out_ w) Hinv)
    as (flip' & pi' & pc' & tr' & [N HN] & Hinv').
  assert (exists flip1 pi1 pc1 tr1 out1 acts,
             returns (fun fuel =>
                        stream_dtor_loop ostream_flush fuel fuel
                          (between_calls false false flip li le lc pi pc tr)
                          (out_ w))
               (between_calls false false flip1 li li li pi1 pc1 tr1, out1) /\
             stream_inv ep li li li pi1 pc1 [] [] /\
             out1 = foldl (perform ostream_flush ep) (out_ w) acts /\
             applied acts = C ++ I)
    as (flip1 & pi1 & pc1 & tr1 & out1 & acts & [M HM] & Hinv1 & Hout & Happ).
  { destruct Hinv as (Hord & Hrest).
    destruct (Z.eq_dec li lc) as [Heq | Hne].
    - assert (lc = le) as -> by lia. assert (li = le) as -> by lia.
      destruct Hrest as (Hi & Hc & HC & HC0 & HI & HI0 & Heps).
      rewrite (HC0 ltac:(lia)), (HI0 ltac:(lia)).
      exists flip, pi, pc, tr, (out_ w), []. split; [ | split; [ | done ] ].
      + exists 1%nat. intros fuel Hf. destruct fuel as [|fuel]; [ lia | ].
        rewrite stream_dtor_loop_unfold, tpd_empty_between_calls.
        simpl. by rewrite Z.eqb_refl.
      + destruct HC as (wc & Hwc & _), HI as (wi & Hwi & _ & Hwi0).
        unfold stream_inv.
        split_and!; try done; try lia; try tauto;
          [ exists wc | exists wi ];
          split_and!; intros; first [ done | lia | auto ].
    - exists flip', pi', pc', tr',
        (flush ostream_flush
           (foldl (fun out w => apply_caught ep w out) (out_ w) (C ++ I))),
        ((act_apply <$> (C ++ I)) ++ [act_flush]).
      split; [ | split; [ done | split ] ].
      + exists (2 + N)%nat. intros fuel Hf.
        destruct fuel as [|[|fuel]]; try lia.
        rewrite stream_dtor_loop_unfold, tpd_empty_between_calls.
        destruct (Z.eqb_spec li lc); [ done | ].
        cbn [mbind option_bind]. rewrite HN by lia.
        cbn [mbind option_bind]. rewrite bool_decide_eq_true_2 by lia.
        rewrite stream_dtor_loop_unfold, tpd_empty_between_calls.
        cbn [mbind option_bind]. rewrite Z.eqb_refl. reflexivity.
      + rewrite <- (foldl_perform_apply ep (C ++ I)), foldl_app. done.
      + by rewrite applied_app, applied_apply, app_nil_r. }
  destruct Hinv1 as (_ & _ & _ & (wc & Hwc & _) & _ & (wi & Hwi & _) & _).
  destruct (impl_dtor_ok _ _ Hwc) as (ac' & [Nc HNc]).
  destruct (impl_dtor_ok _ _ Hwi) as (ai' & [Ni HNi]).
  exists (mk_world (service_remove this (streams_ w)) None out1),
    (between_calls false false flip li le lc pi pc tr),
    (between_calls false false flip1 li li li pi1 pc1 tr1), out1, acts.
  split; [ done | ]. split; [ by exists M | ]. split.
  { rewrite tpd_empty_between_calls. by rewrite Z.eqb_refl. }
  split; [ | done ].
  exists (M + Nc + Ni)%nat. intros fuel Hf. unfold stream_dtor.
  rewrite Hs. simpl. rewrite HM by lia. simpl.
  destruct flip1; simpl; rewrite ?HNc, ?HNi by lia; simpl;
    rewrite ?HNc, ?HNi by lia; reflexivity.
Qed.


End stream_theory.

(** ** The call sites of [switch_pages] *)

Section tpd_switch.
Context {buffer_type : Type} {BT : buffer_ops buffer_type}.
Implicit Types s : tpd_store buffer_type.

Ltac trace_events :=
  repeat match goal with
         | H : switch_pages _ = Some _ |- _ =>
             apply switch_pages_trace in H; destruct H as [? ?]
         | H : (_, _) = (_, _) |- _ => injection H as ? ?
         end;
  subst; simpl in *;
  repeat match goal with H : trace _ = _ |- _ => rewrite H end;
  simpl in *; rewrite <- ?app_assoc; eexists;
  (split; [ first [ reflexivity | symmetry; apply app_nil_r ] | ]);
  intros il cl Hin; simpl in Hin; set_solver.

(** The two commits swap the pages, if they do, holding both locks. *)
Lemma insert_commit_switches_under_both_locks t s t' s' :
  insert_transaction_commit t s = Some (t', s') ->
  locked inserting s = true ->
  exists evs, trace s' = trace s ++ evs /\ under_both_locks evs.
Proof.
  unfold insert_transaction_commit, try_lock, scoped_try_lock_dtor, unlock.
  intros H Hl. unbind H; trace_events.
Qed.

Lemma consume_commit_switches_under_both_locks t s t' s' :
  consume_transaction_commit t s = Some (t', s') ->
  locked consuming s = true ->
  exists evs, trace s' = trace s ++ evs /\ under_both_locks evs.
Proof.
  unfold consume_transaction_commit, try_lock, scoped_try_lock_dtor, unlock.
  intros H Hl. unbind H; trace_events.
Qed.

(** [try_consume] swaps the pages as soon as it holds [inserting_]; it does
    not look at [consuming_] before. *)
Lemma try_consume_switches_whatever_consuming t s r t' s' :
  try_consume t s = Some (r, t', s') ->
  last_enqueued s <= last_consumed s -> last_enqueued s < last_inserted s ->
  locked inserting s = false ->
  exists evs,
    trace s' = trace s ++ [ev_lock inserting;
                           ev_switch_pages true (locked consuming s)] ++ evs.
Proof.
  unfold try_consume, try_lock, scoped_try_lock_dtor, unlock, last_enqueued,
    last_consumed, last_inserted.
  intros H Hle Hli Hl. simpl in Hl.
  destruct (negb (initialized (queue s))); [ done | ].
  destruct (negb (bool_decide (ct_buffer_ t = None))); [ done | ].
  rewrite (gtb_false _ _ Hle) in H. simpl in H. rewrite Hl in H. simpl in H.
  rewrite gtb_true in H by lia.
  unbind H;
  repeat match goal with
         | H : switch_pages _ = Some _ |- _ =>
             apply switch_pages_trace in H; destruct H as [? ?]
         | H : (_, _) = (_, _) |- _ => injection H as ? ?
         end;
  subst; simpl in *;
  repeat match goal with H : trace _ = _ |- _ => rewrite H end;
  simpl in *; rewrite <- ?app_assoc; simpl; eexists; reflexivity.
Qed.
End tpd_switch.

(** ** The calls of the queue, one by one *)

Section tpd_calls.
Context {buffer_type : Type} {BT : buffer_ops buffer_type}.
Context {BL : buffer_laws buffer_type}.
Implicit Types s : tpd_store buffer_type.
Implicit Types y : system buffer_type.

Ltac inv_open :=
  unfold sys_inv, tpd_inv, no_older, last_inserted, last_enqueued,
    last_consumed, stamp in *;
  repeat match goal with
         | H : _ /\ _ |- _ => destruct H
         | H : (_ /\ _) \/ (_ /\ _) |- _ => destruct H
         end.

Ltac inv_close :=
  simpl in *; rewrite ?get_set_sequence_number, ?Z.gtb_ltb in *;
  repeat match goal with
         | H : Some ?a = Some ?b |- _ => injection H as H; try subst
         | H : (_ <? _) = true |- _ => apply Z.ltb_lt in H
         | H : (_ <? _) = false |- _ => apply Z.ltb_ge in H
         | H : (_ <=? _) = true |- _ => apply Z.leb_le in H
         | H : (_ <=? _) = false |- _ => apply Z.leb_gt in H
         | H : (_ =? _) = true |- _ => apply Z.eqb_eq in H
         | H : (_ =? _) = false |- _ => apply Z.eqb_neq in H
         end;
  simpl in *; rewrite ?get_set_sequence_number in *;
  repeat match goal with
         | |- _ /\ _ => split
         | |- (_ /\ _) \/ (_ /\ _) =>
             first [ left; split; reflexivity | right; split; reflexivity ]
         end;
  try tauto; try lia; try congruence.

Ltac calls_unfold :=
  unfold step, begin_insert, insert_transaction_commit, try_consume,
    consume_transaction_commit, warmup_before_inserting, switch_pages,
    lock, try_lock, unlock, scoped_try_lock_dtor, insert_transaction_init,
    consume_transaction_init, insert_transaction_ctor,
    consume_transaction_ctor, initialized, init, tpd_empty in *.

Ltac eqs_tidy :=
  repeat match goal with
         | H : (_, _) = (_, _) |- _ => injection H as ? ?
         | H : Some _ = Some _ |- _ => injection H as ?
         | H : ?x = _ |- _ => is_var x; subst x
         | H : _ = ?x |- _ => is_var x; subst x
         end.

Ltac wrap_off :=
  repeat match goal with
         | |- context [size_t_wrap ?z] =>
             rewrite (size_t_wrap_small z) by lia
         | H : context [size_t_wrap ?z] |- _ =>
             rewrite (size_t_wrap_small z) in H by lia
         end.

(** X1: before [init] every call on the queue fails its assertion, and
    [init] itself fails on a null page.  [init] with two pages opens an
    empty queue of size 0 with both locks free, both pages stamped 0 and
    the pointers set as given; a second [init] fails its assertion. *)
Theorem init_opens_an_empty_queue s :
  initialized (queue s) = false ->
  (forall fuel ti tc,
      tpd_empty (queue s) = None /\ begin_insert fuel ti s = None /\
      try_consume tc s = None /\ warmup_before_inserting fuel s = None) /\
  (forall p, init None p s = None /\ init p None s = None) /\
  (forall p1 p2,
      exists s',
        init (Some p1) (Some p2) s = Some s' /\
        initialized (queue s') = true /\
        tpd_empty (queue s') = Some true /\ tpd_size (queue s') = 0 /\
        locked inserting s' = false /\ locked consuming s' = false /\
        inserter_ (queue s') = Some p1 /\ consumer_ (queue s') = Some p2 /\
        get_sequence_number (deref p1 s') = 0 /\
        get_sequence_number (deref p2 s') = 0 /\
        trace s' = trace s /\
        forall q1 q2, init q1 q2 s' = None).
Proof.
  intros Hi. split; [ | split ].
  - intros fuel ti tc. unfold tpd_empty, begin_insert, try_consume,
      warmup_before_inserting. rewrite Hi. simpl. done.
  - intros p. unfold init. rewrite Hi. destruct p; done.
  - intros p1 p2. unfold init. rewrite Hi. eexists. split; [ reflexivity | ].
    destruct s as [q b1 b2 tr]. destruct p1, p2; simpl;
      rewrite ?get_set_sequence_number; done.
Qed.

(** X2: in every state reached from [init] by whole calls, [size] is the
    number of sequence numbers inserted and not yet consumed, it lies
    between 0 and the number of calls made, and [empty] holds exactly when
    [size] is 0. *)
Theorem size_counts_what_is_not_consumed n y :
  reachable n y -> Z.of_nat n + 2 < 2 ^ 64 ->
  tpd_size (queue (sys_store y))
  = last_inserted (sys_store y) - last_consumed (sys_store y) /\
  0 <= tpd_size (queue (sys_store y)) <= Z.of_nat n /\
  tpd_empty (queue (sys_store y))
  = Some (tpd_size (queue (sys_store y)) =? 0).
Proof.
  intros Hr Hn. pose proof (reachable_inv n y Hr ltac:(lia)) as Hinv.
  unfold tpd_size, tpd_empty, initialized. inv_open.
  all: repeat match goal with H : _ = Some _ |- _ => rewrite H end; simpl.
  all: wrap_off; split; [ done | ]; split; [ lia | ].
  all: f_equal.
  all: match goal with
       | |- (?a =? ?b) = (?c =? 0) =>
           destruct (Z.eqb_spec a b), (Z.eqb_spec c 0); try done; lia
       end.
Qed.

(** X3: while [consuming_] is held, [try_consume] never consumes: it
    returns without the consumed bit, leaves the caller's transaction as it
    was, the lock held and [last_consumed] unchanged. *)
Theorem try_consume_never_consumes_while_consuming_is_held
    (t : consume_transaction) s r t' s' :
  locked consuming s = true ->
  try_consume t s = Some (r, t', s') ->
  consumed r = false /\ t' = t /\ locked consuming s' = true /\
  last_consumed s' = last_consumed s.
Proof.
  intros Hl H. destruct s as [[] b1 b2 tr]. simpl in Hl. subst.
  calls_unfold. unfold last_consumed. simpl in *.
  unbind H; eqs_tidy; simpl in *; done.
Qed.


(** The invariant does not look at the locks, the trace or the two
    complaint counters. *)
Lemma tpd_inv_ext b s s' :
  last_inserted s' = last_inserted s -> last_enqueued s' = last_enqueued s ->
  last_consumed s' = last_consumed s ->
  seq_no_generator_ (queue s') = seq_no_generator_ (queue s) ->
  inserter_ (queue s') = inserter_ (queue s) ->
  consumer_ (queue s') = consumer_ (queue s) ->
  at_buffer1 s' = at_buffer1 s -> at_buffer2 s' = at_buffer2 s ->
  tpd_inv b s -> tpd_inv b s'.
Proof.
  intros Hi He Hc Hg Hins Hcon H1 H2. unfold tpd_inv, stamp, deref.
  rewrite Hi, He, Hc, Hg, Hins, Hcon, H1, H2. done.
Qed.

Lemma tpd_inv_initialized b s : tpd_inv b s -> initialized (queue s) = true.
Proof.
  unfold initialized. intros [[[-> ->]|[-> ->]] _]; done.
Qed.

(** Taking [consuming_] and stamping the consumer's page as consumed. *)
Lemma try_consume_acquires b s :
  tpd_inv b s -> locked consuming s = false ->
  last_consumed s < last_enqueued s ->
  exists t s',
    try_consume consume_transaction_ctor s
    = Some (mk_consume_result cr_success, t, s') /\
    ct_parent_ t = true /\ ct_buffer_ t = consumer_ (queue s) /\
    locked consuming s' = true /\ locked inserting s' = locked inserting s /\
    last_inserted s' = last_inserted s /\ last_enqueued s' = last_enqueued s /\
    last_consumed s' = last_enqueued s /\
    inserter_ (queue s') = inserter_ (queue s) /\
    consumer_ (queue s') = consumer_ (queue s) /\
    at_buffer1 s' = at_buffer1 s /\ at_buffer2 s' = at_buffer2 s /\
    stamp (consumer_ (queue s)) s = last_enqueued s /\
    tpd_inv b s'.
Proof.
  intros Hinv Hc Hlt. pose proof (tpd_inv_initialized _ _ Hinv) as Hin.
  assert (exists c, consumer_ (queue s) = Some c
                    /\ get_sequence_number (deref c s) = last_enqueued s)
    as (c & Hcon & Hstamp).
  { unfold tpd_inv, stamp in Hinv.
    destruct Hinv as ([[_ Hcon]|[_ Hcon]] & _ & _ & _ & _ & Hs);
      rewrite Hcon in Hs; eexists; (split; [ done | ]); apply Hs, Hlt. }
  unfold try_consume, try_lock. rewrite Hin. cbn [negb bool_decide].
  unfold last_consumed, last_enqueued in Hlt.
  rewrite gtb_true by lia. cbn [negb]. rewrite Hc. cbn [negb].
  destruct s as [[] b1 b2 tr]. simpl in *. subst. simpl.
  do 2 eexists. split; [ reflexivity | ]. simpl.
  do 11 (split; [ first [ done | by destruct c ] | ]).
  split; [ done | ].
  revert Hinv. unfold tpd_inv, stamp, last_inserted, last_enqueued,
    last_consumed in *. simpl in *. destruct c; simpl in *; intuition lia.
Qed.

(** With nothing handed over yet, [try_consume] takes [inserting_], swaps,
    releases [inserting_] and goes on as it does on the swapped queue. *)
Lemma try_consume_swaps_first b s :
  tpd_inv b s -> locked inserting s = false ->
  last_enqueued s <= last_consumed s -> last_enqueued s < last_inserted s ->
  exists s1,
    try_consume consume_transaction_ctor s
    = try_consume consume_transaction_ctor s1 /\
    tpd_inv b s1 /\
    locked inserting s1 = false /\ locked consuming s1 = locked consuming s /\
    last_inserted s1 = last_inserted s /\ last_enqueued s1 = last_inserted s /\
    last_consumed s1 = last_consumed s /\
    inserter_ (queue s1) = consumer_ (queue s) /\
    consumer_ (queue s1) = inserter_ (queue s) /\
    at_buffer1 s1 = at_buffer1 s /\ at_buffer2 s1 = at_buffer2 s.
Proof.
  intros Hinv Hi Hle Hlt. pose proof (tpd_inv_initialized _ _ Hinv) as Hin.
  assert (last_consumed s <= last_enqueued s) as Hcl
    by (destruct Hinv as (_ & (_ & Hcl & _) & _); exact Hcl).
  set (sA := emit (ev_lock inserting) (set_locked inserting true s)).
  assert (tpd_inv b sA) as HinvA by (revert Hinv; by apply tpd_inv_ext).
  destruct (switch_pages_inv b sA HinvA Hlt)
    as (sB & Hsw & HinvB & HliB & HleB & HlcB & HiB & HcB).
  assert (inserter_ (queue sB) = consumer_ (queue s)
          /\ consumer_ (queue sB) = inserter_ (queue s)
          /\ at_buffer1 sB = at_buffer1 s /\ at_buffer2 sB = at_buffer2 s
          /\ seq_no_generator_ (queue sB) = seq_no_generator_ (queue s))
    as (HinsB & HconB & H1B & H2B & HgB).
  { unfold switch_pages in Hsw. unbind Hsw. subst sB. done. }
  exists (unlock inserting sB).
  assert (tpd_inv b (unlock inserting sB)) as HinvC
    by (revert HinvB; by apply tpd_inv_ext).
  split.
  - unfold last_consumed, last_enqueued, last_inserted in *.
    assert (forall s0,
      initialized (queue s0) = true ->
      (last_enqueued_sequence_number_ (queue s0)
       >? last_consumed_sequence_number_ (queue s0)) = true ->
      try_consume consume_transaction_ctor s0
      = (let '(got, s2) := try_lock consuming s0 in
         if negb got
         then Some (mk_consume_result cr_too_many_consumers,
                    consume_transaction_ctor, s2)
         else
           transaction ← consume_transaction_init (consumer_ (queue s2))
                            consume_transaction_ctor;
           c ← consumer_ (queue s2);
           Some (mk_consume_result cr_success, transaction,
                 with_queue (set_last_consumed_sequence_number_
                               (get_sequence_number (deref c s2))) s2)))
      as Hacq.
    { intros s0 Hin0 Hgt. unfold try_consume. rewrite Hin0, Hgt. reflexivity. }
    rewrite (Hacq (unlock inserting sB)).
    2: by apply tpd_inv_initialized with b.
    2: { change (last_enqueued_sequence_number_ (queue (unlock inserting sB)))
           with (last_enqueued_sequence_number_ (queue sB)).
         change (last_consumed_sequence_number_ (queue (unlock inserting sB)))
           with (last_consumed_sequence_number_ (queue sB)).
         rewrite HleB, HlcB. unfold sA. simpl. apply gtb_true. lia. }
    unfold try_consume, try_lock at 1. rewrite Hin. cbn [negb bool_decide].
    rewrite (gtb_false (last_enqueued_sequence_number_ (queue s))
               (last_consumed_sequence_number_ (queue s))) by lia.
    cbn [negb]. rewrite Hi. cbn [negb]. fold sA.
    rewrite (gtb_true (last_inserted_sequence_number_ (queue sA))
               (last_enqueued_sequence_number_ (queue sA)))
      by (unfold sA; simpl; lia).
    rewrite Hsw. cbn [mbind option_bind].
    rewrite (gtb_true (last_enqueued_sequence_number_ (queue sB))
               (last_consumed_sequence_number_ (queue sB)))
      by (rewrite HleB, HlcB; unfold sA; simpl; lia).
    reflexivity.
  - unfold last_inserted, last_enqueued, last_consumed, sA in *.
    simpl in HliB, HleB, HlcB, HiB, HcB.
    split_and!; try done; simpl; congruence.
Qed.

(** X5: on a queue with both locks free and an insertion that was not
    consumed, [try_consume] succeeds: it returns [cr_success] with a
    transaction on the consumer page, holding [consuming_] and not
    [inserting_]; that page carries the sequence number now consumed, which
    is the last enqueued one, or the last inserted one when the pages had
    to be swapped first. *)
Theorem try_consume_succeeds_on_an_idle_queue_with_work b s :
  tpd_inv b s ->
  locked inserting s = false -> locked consuming s = false ->
  last_consumed s < last_inserted s ->
  exists t s',
    try_consume consume_transaction_ctor s
    = Some (mk_consume_result cr_success, t, s') /\
    ct_parent_ t = true /\ ct_buffer_ t = consumer_ (queue s') /\
    locked consuming s' = true /\ locked inserting s' = false /\
    last_inserted s' = last_inserted s /\
    last_enqueued s' = last_consumed s' /\
    stamp (ct_buffer_ t) s' = last_consumed s' /\
    last_consumed s' =
      (if last_consumed s <? last_enqueued s
       then last_enqueued s else last_inserted s) /\
    tpd_inv b s'.
Proof.
  intros Hinv Hi Hc Hlt.
  assert (forall s0 t s',
    try_consume consume_transaction_ctor s0
    = Some (mk_consume_result cr_success, t, s') /\
    ct_parent_ t = true /\ ct_buffer_ t = consumer_ (queue s0) /\
    locked consuming s' = true /\ locked inserting s' = locked inserting s0 /\
    last_inserted s' = last_inserted s0 /\
    last_enqueued s' = last_enqueued s0 /\
    last_consumed s' = last_enqueued s0 /\
    inserter_ (queue s') = inserter_ (queue s0) /\
    consumer_ (queue s') = consumer_ (queue s0) /\
    at_buffer1 s' = at_buffer1 s0 /\ at_buffer2 s' = at_buffer2 s0 /\
    stamp (consumer_ (queue s0)) s0 = last_enqueued s0 /\
    tpd_inv b s' ->
    ct_buffer_ t = consumer_ (queue s') /\
    last_enqueued s' = last_consumed s' /\
    stamp (ct_buffer_ t) s' = last_consumed s') as Hpack.
  { intros s0 t s' (_ & _ & Hb & _ & _ & _ & Hle' & Hlc & _ & Hcon & H1 & H2
                    & Hst & _).
    split; [ congruence | ]. split; [ congruence | ].
    rewrite Hb, Hlc, <- Hst. unfold stamp, deref. by rewrite H1, H2. }
  destruct (Z.ltb_spec (last_consumed s) (last_enqueued s)) as [Hle|Hle].
  - destruct (try_consume_acquires b s Hinv Hc Hle) as (t & s' & Hall).
    destruct (Hpack _ _ _ Hall) as (Hb & He & Hst).
    destruct Hall as (Hcall & Hp & _ & Hc' & Hi' & Hli & _ & Hlc & _ & _ & _
                      & _ & _ & Hinv').
    exists t, s'. split_and!; try done. congruence.
  - destruct (try_consume_swaps_first b s Hinv Hi Hle ltac:(lia))
      as (s1 & Hsame & Hinv1 & Hi1 & Hc1 & Hli1 & Hle1 & Hlc1 & _).
    destruct (try_consume_acquires b s1 Hinv1 ltac:(congruence) ltac:(lia))
      as (t & s' & Hall).
    destruct (Hpack _ _ _ Hall) as (Hb & He & Hst).
    destruct Hall as (Hcall & Hp & _ & Hc' & Hi' & Hli & _ & Hlc & _ & _ & _
                      & _ & _ & Hinv').
    exists t, s'. rewrite Hsame. split_and!; try done; congruence.
Qed.

(** X6: [begin_insert] on a fresh transaction reports a new page exactly
    when everything inserted before was handed to the consumer (the pages
    were swapped since the last insertion).  It takes [inserting_], hands
    out the inserter page, advances the last inserted sequence number by
    one and stamps it on that page; it moves neither pointer and does not
    touch the consumer page. *)
Theorem begin_insert_reports_a_new_page_after_a_swap b fuel s r t s' :
  tpd_inv b s -> b + 1 < 2 ^ 64 ->
  begin_insert fuel insert_transaction_ctor s = Some (r, t, s') ->
  inserting_into_new_page r
  = bool_decide (last_enqueued s = last_inserted s) /\
  t = mk_insert_transaction (inserter_ (queue s)) true /\
  locked inserting s = false /\ locked inserting s' = true /\
  last_inserted s' = last_inserted s + 1 /\
  stamp (inserter_ (queue s')) s' = last_inserted s' /\
  last_enqueued s' = last_enqueued s /\
  last_consumed s' = last_consumed s /\
  inserter_ (queue s') = inserter_ (queue s) /\
  consumer_ (queue s') = consumer_ (queue s) /\
  (forall c, consumer_ (queue s) = Some c -> deref c s' = deref c s).
Proof.
  intros Hinv Hb H. destruct s as [[] b1 b2 tr].
  calls_unfold. unfold inserting_into_new_page.
  unbind H; eqs_tidy; simpl in *.
  all: inv_open; simpl in *; eqs_tidy; simpl in *.
  all: try discriminate.
  all: wrap_off; inv_close.
  all: try (intros c Hc; injection Hc as <-; reflexivity).
  all: try (rewrite bool_decide_eq_true_2 by lia; reflexivity).
  all: try (rewrite bool_decide_eq_false_2 by lia; reflexivity).
Qed.

(** X7: [warmup_before_inserting] releases [inserting_], changes no
    sequence number and no pointer, and touches only the inserter page,
    which it leaves stamped no older than the last enqueued number; the
    next [begin_insert] then returns whatever the fuel, that is without
    clearing the page, and only restamps it. *)
Theorem warmup_spares_begin_insert_the_clear fuel s s1 :
  warmup_before_inserting fuel s = Some s1 ->
  locked inserting s1 = false /\
  last_inserted s1 = last_inserted s /\ last_enqueued s1 = last_enqueued s /\
  last_consumed s1 = last_consumed s /\
  inserter_ (queue s1) = inserter_ (queue s) /\
  consumer_ (queue s1) = consumer_ (queue s) /\
  last_enqueued s1 <= stamp (inserter_ (queue s1)) s1 /\
  (forall c, consumer_ (queue s) = Some c -> inserter_ (queue s) <> Some c ->
             deref c s1 = deref c s) /\
  exists r t s2,
    (forall fuel', begin_insert fuel' insert_transaction_ctor s1
                   = Some (r, t, s2)) /\
    forall i, inserter_ (queue s1) = Some i ->
      deref i s2
      = set_sequence_number (size_t_wrap (seq_no_generator_ (queue s1) + 1))
          (deref i s1).
Proof.
  intros H. destruct s as [[? ? ? ? ? ? [i|] [c|] ? ?] b1 b2 tr].
  all: calls_unfold; simpl in H; try discriminate H.
  unfold last_inserted, last_enqueued, last_consumed, stamp.
  destruct i, c; unbind H; simpl in *; eqs_tidy; simpl in *.
  all: eqs_tidy; simpl in *.
  all: rewrite ?get_set_sequence_number in *.
  all: repeat match goal with
              | H : (_ <? _) = true |- _ => apply Z.ltb_lt in H
              | H : (_ <? _) = false |- _ => apply Z.ltb_ge in H
              end.
  all: do 7 (split; [ first [ done | lia ] | ]).
  all: split; [ intros [] ? ?; try done | ].
  all: repeat match goal with
              | |- context [?a <=? ?b] =>
                  destruct (Z.leb_spec a b); simpl
              | |- context [?a <? ?b] =>
                  destruct (Z.ltb_spec a b); simpl; try lia
              end.
  all: do 3 eexists; split; [ intros fuel'; reflexivity | ].
  all: intros i Hi; injection Hi as <-; reflexivity.
Qed.

(** A consumer that finds [inserting_] taken only leaves its complaint. *)
Lemma try_consume_blocked b s :
  tpd_inv b s -> locked inserting s = true ->
  last_enqueued s <= last_consumed s ->
  try_consume consume_transaction_ctor s
  = Some (mk_consume_result cr_queue_not_empty, consume_transaction_ctor,
          with_queue
            (set_consumer_couldnt_switch_
               (size_t_wrap (consumer_couldnt_switch_ (queue s) + 1))) s).
Proof.
  intros Hinv Hi Hle. pose proof (tpd_inv_initialized _ _ Hinv) as Hin.
  unfold try_consume, try_lock. rewrite Hin. cbn [negb bool_decide].
  unfold last_enqueued, last_consumed in Hle.
  rewrite (gtb_false (last_enqueued_sequence_number_ (queue s))
             (last_consumed_sequence_number_ (queue s))) by lia.
  cbn [negb]. rewrite Hi. reflexivity.
Qed.

(** The commit of a producer that finds a complaint swaps the pages. *)
Lemma insert_commit_catches_up b s (t : insert_transaction) :
  tpd_inv b s -> it_parent_ t = true ->
  locked consuming s = false ->
  inserter_switched_pages_ (queue s) <> consumer_couldnt_switch_ (queue s) ->
  last_enqueued s <= last_consumed s -> last_enqueued s < last_inserted s ->
  exists s2,
    insert_transaction_commit t s = Some (insert_transaction_ctor, s2) /\
    tpd_inv b s2 /\
    inserter_ (queue s2) = consumer_ (queue s) /\
    consumer_ (queue s2) = inserter_ (queue s) /\
    last_inserted s2 = last_inserted s /\ last_enqueued s2 = last_inserted s /\
    last_consumed s2 = last_consumed s /\
    inserter_switched_pages_ (queue s2) = consumer_couldnt_switch_ (queue s) /\
    consumer_couldnt_switch_ (queue s2) = consumer_couldnt_switch_ (queue s) /\
    locked inserting s2 = false /\ locked consuming s2 = false.
Proof.
  intros Hinv Hp Hc Hne Hle Hlt.
  set (sA := emit (ev_lock consuming) (set_locked consuming true s)).
  assert (tpd_inv b sA) as HinvA by (revert Hinv; by apply tpd_inv_ext).
  destruct (switch_pages_inv b sA HinvA Hlt)
    as (sB & Hsw & HinvB & HliB & HleB & HlcB & HiB & HcB).
  assert (inserter_ (queue sB) = consumer_ (queue s)
          /\ consumer_ (queue sB) = inserter_ (queue s)
          /\ at_buffer1 sB = at_buffer1 s /\ at_buffer2 sB = at_buffer2 s
          /\ seq_no_generator_ (queue sB) = seq_no_generator_ (queue s)
          /\ consumer_couldnt_switch_ (queue sB)
             = consumer_couldnt_switch_ (queue s)
          /\ inserter_switched_pages_ (queue sB)
             = inserter_switched_pages_ (queue s))
    as (HinsB & HconB & H1B & H2B & HgB & HccB & HisB).
  { unfold switch_pages in Hsw. unbind Hsw. subst sB. done. }
  set (s2 := unlock inserting
               (unlock consuming
                  (with_queue (set_inserter_switched_pages_
                                 (consumer_couldnt_switch_ (queue sB))) sB))).
  exists s2. split.
  - unfold insert_transaction_commit, try_lock. rewrite Hp.
    rewrite (proj2 (Z.eqb_neq _ _) Hne). cbn [negb]. rewrite Hc. fold sA.
    unfold last_enqueued, last_consumed in Hle.
    rewrite (gtb_false (last_enqueued_sequence_number_ (queue sA))
               (last_consumed_sequence_number_ (queue sA)))
      by (unfold sA; simpl; lia).
    cbn [negb andb]. rewrite Hsw. reflexivity.
  - unfold last_inserted, last_enqueued, last_consumed, sA in *.
    simpl in HliB, HleB, HlcB, HiB, HcB.
    split; [ | subst s2; split_and!; simpl; congruence ].
    revert HinvB. apply tpd_inv_ext; subst s2; try done; simpl; congruence.
Qed.

(** X8: a consumer that calls [try_consume] while a producer holds
    [inserting_] gets [cr_queue_not_empty] without a transaction and leaves
    a complaint; the producer's commit sees it, swaps the two pages and
    enqueues what was inserted, releasing both locks; the consumer's next
    [try_consume] succeeds on the page the producer filled. *)
Theorem producer_swaps_for_a_consumer_it_blocked b s (t : insert_transaction) :
  tpd_inv b s ->
  locked inserting s = true -> locked consuming s = false ->
  it_parent_ t = true ->
  last_enqueued s <= last_consumed s ->
  last_enqueued s < last_inserted s ->
  inserter_switched_pages_ (queue s) = consumer_couldnt_switch_ (queue s) ->
  0 <= consumer_couldnt_switch_ (queue s) < 2 ^ 64 ->
  exists s1 s2 t3 s3,
    try_consume consume_transaction_ctor s
    = Some (mk_consume_result cr_queue_not_empty, consume_transaction_ctor, s1) /\
    consumer_couldnt_switch_ (queue s1)
    = size_t_wrap (consumer_couldnt_switch_ (queue s) + 1) /\
    inserter_ (queue s1) = inserter_ (queue s) /\
    insert_transaction_commit t s1 = Some (insert_transaction_ctor, s2) /\
    inserter_ (queue s2) = consumer_ (queue s) /\
    consumer_ (queue s2) = inserter_ (queue s) /\
    last_enqueued s2 = last_inserted s /\
    inserter_switched_pages_ (queue s2) = consumer_couldnt_switch_ (queue s2) /\
    locked inserting s2 = false /\ locked consuming s2 = false /\
    try_consume consume_transaction_ctor s2
    = Some (mk_consume_result cr_success, t3, s3) /\
    ct_buffer_ t3 = inserter_ (queue s) /\
    last_consumed s3 = last_inserted s /\
    tpd_inv b s3.
Proof.
  intros Hinv Hi Hc Hp Hle Hlt Hsw Hr.
  set (s1 := with_queue
               (set_consumer_couldnt_switch_
                  (size_t_wrap (consumer_couldnt_switch_ (queue s) + 1))) s).
  assert (tpd_inv b s1) as Hinv1 by (revert Hinv; by apply tpd_inv_ext).
  assert (inserter_switched_pages_ (queue s1)
          <> consumer_couldnt_switch_ (queue s1)) as Hne.
  { subst s1. simpl. rewrite Hsw. unfold size_t_wrap. zlia. }
  destruct (insert_commit_catches_up b s1 t Hinv1 Hp Hc Hne Hle Hlt)
    as (s2 & Hcommit & Hinv2 & Hins2 & Hcon2 & Hli2 & Hle2 & Hlc2 & Hisp2
        & Hccs2 & Hi2 & Hc2).
  assert (last_consumed s <= last_enqueued s) as Hcl
    by (destruct Hinv as (_ & (_ & Hcl & _) & _); exact Hcl).
  destruct (try_consume_acquires b s2 Hinv2 Hc2)
    as (t3 & s3 & Hcall & _ & Hb3 & _ & _ & _ & _ & Hlc3 & _ & _ & _ & _ & _
        & Hinv3).
  { rewrite Hlc2, Hle2. change (last_consumed s1) with (last_consumed s).
    change (last_inserted s1) with (last_inserted s). lia. }
  change (inserter_ (queue s1)) with (inserter_ (queue s)) in *.
  change (consumer_ (queue s1)) with (consumer_ (queue s)) in *.
  change (last_inserted s1) with (last_inserted s) in *.
  change (consumer_couldnt_switch_ (queue s1))
    with (size_t_wrap (consumer_couldnt_switch_ (queue s) + 1)) in *.
  exists s1, s2, t3, s3.
  split; [ by apply try_consume_blocked with b | ].
  split_and!; try done; congruence.
Qed.

(** One consumer thread. *)
Lemma reachable_with_one_consumer_reachable n y :
  reachable_with_one_consumer n y -> reachable n y.
Proof.
  induction 1; [ by eapply reach_init | by eapply reach_step ].
Qed.

Lemma begin_insert_frame fuel s r t s' :
  begin_insert fuel insert_transaction_ctor s = Some (r, t, s') ->
  it_parent_ t = true /\ it_buffer_ t = inserter_ (queue s') /\
  inserter_ (queue s') = inserter_ (queue s) /\
  consumer_ (queue s') = consumer_ (queue s).
Proof.
  intros H. destruct s as [[] b1 b2 tr]. calls_unfold.
  unbind H; simpl in *; eqs_tidy; simpl in *; eqs_tidy; try done.
  all: repeat match goal with p : buffer_ptr |- _ => destruct p end; done.
Qed.

Lemma insert_commit_frame (t : insert_transaction) s t' s' :
  insert_transaction_commit t s = Some (t', s') ->
  it_parent_ t' = false /\
  (locked consuming s = true ->
   inserter_ (queue s') = inserter_ (queue s) /\
   consumer_ (queue s') = consumer_ (queue s)).
Proof.
  intros H. destruct s as [[] b1 b2 tr]. calls_unfold.
  unbind H; simpl in *; eqs_tidy; simpl in *; eqs_tidy; split; try done;
    intros ->; try done.
  all: repeat match goal with p : buffer_ptr |- _ => destruct p end; done.
Qed.

Lemma try_consume_frame (t : consume_transaction) s r t' s' :
  try_consume t s = Some (r, t', s') ->
  (consumed r = true ->
   ct_parent_ t' = true /\ ct_buffer_ t' = consumer_ (queue s')) /\
  (locked inserting s = true ->
   inserter_ (queue s') = inserter_ (queue s) /\
   consumer_ (queue s') = consumer_ (queue s)).
Proof.
  intros H. destruct s as [[] b1 b2 tr]. calls_unfold.
  unbind H; simpl in *; eqs_tidy; simpl in *; eqs_tidy; split; try done;
    intros ->; try done.
  all: repeat match goal with p : buffer_ptr |- _ => destruct p end; done.
Qed.

Lemma consume_commit_frame (t : consume_transaction) s t' s' :
  consume_transaction_commit t s = Some (t', s') ->
  ct_parent_ t' = false /\
  (locked inserting s = true ->
   inserter_ (queue s') = inserter_ (queue s) /\
   consumer_ (queue s') = consumer_ (queue s)).
Proof.
  intros H. destruct s as [[] b1 b2 tr]. calls_unfold.
  unbind H; simpl in *; eqs_tidy; simpl in *; eqs_tidy; split; try done;
    intros ->; try done.
  all: repeat match goal with p : buffer_ptr |- _ => destruct p end; done.
Qed.

Lemma warmup_frame fuel s s' :
  warmup_before_inserting fuel s = Some s' ->
  inserter_ (queue s') = inserter_ (queue s) /\
  consumer_ (queue s') = consumer_ (queue s).
Proof.
  intros H. destruct s as [[] b1 b2 tr]. calls_unfold.
  unbind H; simpl in *; eqs_tidy; simpl in *; eqs_tidy; try done.
  all: repeat match goal with p : buffer_ptr |- _ => destruct p end; done.
Qed.

Lemma step_keeps_transactions_on_their_pages b y o y' :
  sys_inv b y -> single_consumer o y -> step o y = Some y' ->
  transactions_on_their_pages y -> transactions_on_their_pages y'.
Proof.
  intros (_ & Hip & _ & Hcp) Hone Hstep [Hi Hc].
  destruct y as [s ti tc]. unfold transactions_on_their_pages in *.
  simpl in *. destruct o; simpl in Hstep.
  - destruct (begin_insert fuel insert_transaction_ctor s)
      as [[[r t] s']|] eqn:E; [ | done ].
    injection Hstep as <-. simpl.
    destruct (begin_insert_frame _ _ _ _ _ E) as (Hp & Hb & Hins & Hcon).
    rewrite Hcon. done.
  - destruct (insert_transaction_commit ti s) as [[t s']|] eqn:E; [ | done ].
    injection Hstep as <-. simpl.
    destruct (insert_commit_frame _ _ _ _ E) as (Hp & Hframe).
    split; [ by rewrite Hp | ]. intros Hopen.
    destruct (Hframe ltac:(simpl; congruence)) as [_ ->]. auto.
  - destruct (try_consume consume_transaction_ctor s)
      as [[[r t] s']|] eqn:E; [ | done ].
    injection Hstep as <-. simpl.
    destruct (try_consume_frame _ _ _ _ _ E) as (Hgot & Hframe).
    split.
    + intros Hopen. destruct (Hframe ltac:(simpl; congruence)) as [-> _]. auto.
    + destruct (consumed r); [ intros _; by apply Hgot | ].
      intros Hopen. rewrite Hone in Hopen; done.
  - destruct (consume_transaction_commit tc s) as [[t s']|] eqn:E; [ | done ].
    injection Hstep as <-. simpl.
    destruct (consume_commit_frame _ _ _ _ E) as (Hp & Hframe).
    split; [ | by rewrite Hp ]. intros Hopen.
    destruct (Hframe ltac:(simpl; congruence)) as [-> _]. auto.
  - destruct (warmup_before_inserting fuel s) as [s'|] eqn:E; [ | done ].
    injection Hstep as <-. simpl.
    destruct (warmup_frame _ _ _ E) as [-> ->]. done.
Qed.

(** X9: when [try_consume] is never called while the consume transaction
    is open, an open transaction holds the page its side of the queue
    points to, the two sides point to different pages, and so an open
    insert transaction and an open consume transaction are never on the
    same page. *)
Theorem one_consumer_never_shares_a_page_with_the_producer n y :
  reachable_with_one_consumer n y -> Z.of_nat n + 2 < 2 ^ 64 ->
  transactions_on_their_pages y /\
  inserter_ (queue (sys_store y)) <> consumer_ (queue (sys_store y)) /\
  (it_parent_ (producer_txn y) = true -> ct_parent_ (consumer_txn y) = true ->
   it_buffer_ (producer_txn y) <> ct_buffer_ (consumer_txn y) /\
   is_Some (it_buffer_ (producer_txn y)) /\
   is_Some (ct_buffer_ (consumer_txn y))).
Proof.
  intros Hr Hn.
  assert (transactions_on_their_pages y) as Hon.
  { induction Hr as [b1 b2 s Hinit | n y o y' Hr IH Hone Hstep].
    - split; simpl; done.
    - eapply step_keeps_transactions_on_their_pages; eauto.
      + apply reachable_inv; [ by apply reachable_with_one_consumer_reachable | lia ].
      + apply IH. lia. }
  pose proof (reachable_inv n y (reachable_with_one_consumer_reachable _ _ Hr)
                ltac:(lia)) as ([Hptr _] & _).
  assert (inserter_ (queue (sys_store y)) <> consumer_ (queue (sys_store y))
          /\ is_Some (inserter_ (queue (sys_store y)))
          /\ is_Some (consumer_ (queue (sys_store y)))) as (Hne & Hsi & Hsc).
  { destruct Hptr as [[-> ->]|[-> ->]]; split_and!; done. }
  split; [ done | ]. split; [ done | ].
  intros Hi Hc. destruct Hon as [Hi' Hc'].
  rewrite (Hi' Hi), (Hc' Hc). done.
Qed.

(** X10: between calls [inserting_] is held exactly while the insert
    transaction is open and [consuming_] exactly while the consume
    transaction is open; while an insertion is open, something inserted is
    not yet enqueued. *)
Theorem locks_are_held_exactly_by_the_open_transactions n y :
  reachable n y -> Z.of_nat n + 2 < 2 ^ 64 ->
  locked inserting (sys_store y) = it_parent_ (producer_txn y) /\
  locked consuming (sys_store y) = ct_parent_ (consumer_txn y) /\
  (it_parent_ (producer_txn y) = true ->
   last_enqueued (sys_store y) < last_inserted (sys_store y)).
Proof.
  intros Hr Hn. destruct (reachable_inv n y Hr ltac:(lia))
    as (_ & Hi & Hlt & Hc).
  simpl. done.
Qed.

(** X11: [operator|=] on consume results is the union of the flags: each
    of [consumed], [queue_not_empty] and [too_many_consumers] of the
    result is the disjunction of the flags of the operands, the two
    overloads agree, a result joined with itself is unchanged, and the
    conversion to [bool] follows [consumed]. *)
Theorem consume_result_or_is_the_union r rhs :
  consumed (consume_result_or r rhs) = consumed r || consumed rhs /\
  queue_not_empty (consume_result_or r rhs)
  = queue_not_empty r || queue_not_empty rhs /\
  too_many_consumers (consume_result_or r rhs)
  = too_many_consumers r || too_many_consumers rhs /\
  consume_result_or r rhs
  = consume_result_or_outcome r (outcome_ rhs) /\
  consume_result_or r r = r /\
  consume_result_bool (consume_result_or r rhs)
  = consume_result_bool r || consume_result_bool rhs.
Proof.
  assert (forall a b m,
    negb (Z.land (Z.lor a b) m =? 0)
    = negb (Z.land a m =? 0) || negb (Z.land b m =? 0)) as H.
  { intros a b m. rewrite Z.land_lor_distr_l.
    destruct (Z.eqb_spec (Z.lor (Z.land a m) (Z.land b m)) 0) as [E|E].
    - apply Z.lor_eq_0_iff in E as [-> ->]. reflexivity.
    - destruct (Z.eqb_spec (Z.land a m) 0) as [Ea|Ea];
        destruct (Z.eqb_spec (Z.land b m) 0) as [Eb|Eb]; try reflexivity.
      rewrite Ea, Eb in E. done. }
  unfold consume_result_bool, consumed, queue_not_empty, too_many_consumers,
    consume_result_or, consume_result_or_outcome. simpl.
  split_and!; try apply H; try done.
  destruct r as [o]. simpl. by rewrite Z.lor_diag.
Qed.

End tpd_calls.

(** ** Where the arena puts its blocks *)

Section arena_geometry.
Context {iostreams : Type}.
Implicit Types a : impl iostreams.
Implicit Types w : formatter_or_parser iostreams.
Implicit Types ws : list (formatter_or_parser iostreams).
Implicit Types out : outside iostreams.

(** The two ways [allocate] returns. *)
Lemma allocate_cases size a p a' :
  last_ a <> brk a ->
  allocate size a = Some (p, a') ->
  size <> 0 /\ last_allocated_ a' = p /\ first_ a' = first_ a /\
  ep_ a' = ep_ a /\
  ((fits a size /\ p = cursor_ a /\ cursor_ a' = bump (cursor_ a) size /\
    pages a' = pages a /\ last_ a' = last_ a /\ brk a' = brk a /\
    end_of_page_ a' = end_of_page_ a) \/
   (~ fits a size /\
    exists tail,
      pages a !! last_ a = Some tail /\
      p = brk a + sizeof_page /\ cursor_ a' = bump p size /\
      pages a' = grown_pages a size tail /\ last_ a' = brk a /\
      brk a' = grown_brk a size tail /\
      end_of_page_ a' = storage_end_ (grown_page a size tail))).
Proof.
  intros Hne H. unfold allocate in H.
  destruct (Z.eqb_spec size 0) as [|Hs]; [ done | ]. split; [ done | ].
  cbv zeta in H. fold (bump (cursor_ a) size) in H.
  destruct (Z.ltb_spec (bump (cursor_ a) size) (end_of_page_ a)) as [Hf|Hf].
  - unfold poke in H. unbind H. injection H as <- <-. subst. simpl.
    do 3 (split; [ done | ]). left. done.
  - destruct (pages a !! last_ a) as [tail|] eqn:Htail; [ | done ].
    simpl in H. rewrite lookup_insert_ne in H by done.
    rewrite lookup_insert_eq in H. simpl in H.
    unfold poke in H.
    unbind H; injection H as <- <-; subst; simpl; do 3 (split; [ done | ]).
    all: right; (split; [ unfold fits; lia | ]); exists tail; done.
Qed.
(** Where the block of an allocation lies. *)
Lemma allocate_geometry a ids begin tail size p a' ids' begin' tail' :
  grounded a ids begin tail -> word_aligned a -> 0 < size ->
  allocate size a = Some (p, a') -> grounded a' ids' begin' tail' ->
  word_aligned a' /\ pages a' !! last_ a' = Some tail' /\
  cursor_ a <= p /\ storage_begin_ tail' <= p /\
  (p - storage_begin_ tail') mod sizeof_size_t = 0 /\
  p + size <= cursor_ a' /\ cursor_ a' < storage_end_ tail' /\
  cursor_ a < cursor_ a' /\
  (fits a size -> tail' = tail /\ last_ a' = last_ a /\ p = cursor_ a) /\
  (~ fits a size ->
   last_ a' = brk a /\ p = storage_begin_ tail' /\ brk a < p /\
   2 * capacity tail <= capacity tail').
Proof.
  intros Hg (tail0 & Htail0 & Hcur & Hcap) Hs Hal Hg'.
  assert (pages a !! last_ a = Some tail) as Htail by apply Hg.
  assert (tail0 = tail) as -> by congruence.
  assert (last_ a <> brk a) as Hne.
  { destruct Hg as (_ & Hall & _). apply Hall in Htail. lia. }
  assert (pages a' !! last_ a' = Some tail') as Htail' by apply Hg'.
  assert (storage_begin_ tail' <= cursor_ a' < storage_end_ tail') as Hin'
    by apply Hg'.
  assert (storage_begin_ tail <= cursor_ a < storage_end_ tail) as Hin
    by apply Hg.
  assert (0 < cursor_ a < brk a) as Hbrk by apply Hg.
  assert (sizeof_size_t = 8) as Hss by reflexivity.
  assert (sizeof_page = 24) as Hsp by reflexivity.
  destruct (allocate_cases size a p a' Hne Hal)
    as (_ & _ & _ & _ & [(Hfit & -> & Hc' & Hpg & Hl & _)
                        |(Hfit & tl & Htl & -> & Hc' & Hpg & Hl & _)]).
  - assert (tail' = tail) as -> by (rewrite Hpg, Hl in Htail'; congruence).
    assert (cursor_ a + size <= bump (cursor_ a) size
            /\ (bump (cursor_ a) size - cursor_ a) mod 8 = 0) as [Hb1 Hb2].
    { unfold bump, index. rewrite Hss. zlia. }
    split.
    { exists tail. rewrite Hpg, Hl, Hc', Hss in *. split; [ done | ].
      split; [ zlia | done ]. }
    split_and!; try done; try lia.
  - assert (tl = tail) as -> by congruence.
    assert (tail' = grown_page a size tail) as ->.
    { rewrite Hpg, Hl in Htail'. unfold grown_pages in Htail'.
      rewrite lookup_insert_ne in Htail' by done.
      rewrite lookup_insert_eq in Htail'. congruence. }
    cbn [grown_page storage_begin_ storage_end_] in *.
    set (b := brk a + sizeof_page) in *.
    assert (b + size <= bump b size /\ (bump b size - b) mod 8 = 0)
      as [Hb1 Hb2].
    { unfold bump, index. rewrite Hss. zlia. }
    assert (2 * capacity tail
            <= capacity (grown_page a size tail)) as Hgrow.
    { unfold capacity, grown_page, grown_page_size, index in *.
      cbn [storage_begin_ storage_end_]. rewrite Hss in *.
      destruct (Z.ltb_spec (2 * (storage_end_ tail - storage_begin_ tail))
                  (2 * (size - 1))); zlia. }
    split.
    { exists (grown_page a size tail). split; [ done | ].
      rewrite Hc'. cbn [grown_page storage_begin_]. fold b.
      split; [ by rewrite Hss | ].
      unfold capacity, grown_page, index. cbn [storage_begin_ storage_end_].
      rewrite Hss. zlia. }
    split_and!; try done; try lia.
    all: try (rewrite Hss; replace (b - b) with 0 by lia; done).
    all: try (intros _; split_and!; try done; lia).
Qed.

Lemma add_geometry a ws size :
  wf a ws -> word_aligned a -> 0 < size ->
  exists p a' tail tail',
    add size a = Some (p, a') /\ building a' ws /\ word_aligned a' /\
    pages a !! last_ a = Some tail /\
    pages a' !! last_ a' = Some tail' /\
    cursor_ a < p /\ storage_begin_ tail' < p /\
    (p - storage_begin_ tail') mod sizeof_size_t = 0 /\
    p + size <= cursor_ a' /\ cursor_ a' < storage_end_ tail' /\
    prev_cursor_ a' = p - sizeof_size_t /\
    (fits a (size + sizeof_size_t) -> tail' = tail /\ last_ a' = last_ a) /\
    (~ fits a (size + sizeof_size_t) ->
     last_ a' = brk a /\ brk a < p /\
     2 * capacity tail <= capacity tail').
Proof.
  intros Hwf Hal Hs.
  assert (exists q a', add size a = Some (q, a') /\ building a' ws
                       /\ prev_cursor_ a' = q - sizeof_size_t)
    as (q & a' & Hadd & Hb & Hprev).
  { destruct (fits_dec a (size + sizeof_size_t)) as [Hfit|Hfit].
    - destruct (add_fits a ws size Hwf Hs Hfit) as (a' & Hadd & Hb & Hp & _).
      eexists _, a'. split_and!; [ done | done | ].
      rewrite Hp. unfold index, sizeof_size_t. lia.
    - destruct (add_grows a ws size Hwf Hs Hfit)
        as (a' & tl & _ & Hadd & _ & _ & _ & _ & _ & Hb & Hp & _).
      eexists _, a'. split_and!; [ done | done | ].
      rewrite Hp. unfold index, sizeof_size_t. lia. }
  destruct Hwf as (ids & begin & tail & Hg & _).
  destruct Hb as (ids' & begin' & tail' & Hg' & Hrest).
  unfold add in Hadd.
  destruct (allocate (size + sizeof_size_t) (set_prev_cursor_ (cursor_ a) a))
    as [[p0 a0]|] eqn:Hal0; [ | done ].
  simpl in Hadd. injection Hadd as <- <-.
  assert (sizeof_size_t = 8) as Hss by reflexivity.
  destruct (allocate_geometry (set_prev_cursor_ (cursor_ a) a) ids begin tail
              (size + sizeof_size_t) p0 a0 ids' begin' tail' Hg Hal
              ltac:(lia) Hal0 Hg')
    as (Hal' & Htail' & Hle & Hb' & Hmod & Hend & Hlt & Hmono & Hstay & Hgrow).
  exists (index p0 1), a0, tail, tail'.
  split; [ by unfold add; rewrite Hal0 | ].
  split; [ by exists ids', begin', tail' | ]. split; [ done | ].
  split; [ apply Hg | ]. split; [ done | ].
  unfold index in *. rewrite Hss in *. simpl in Hle.
  split; [ lia | ]. split; [ lia | ]. split.
  { replace (p0 + 8 * 1 - storage_begin_ tail')
      with (p0 - storage_begin_ tail' + 1 * 8) by lia.
    by rewrite Z.mod_add. }
  split; [ lia | ]. split; [ exact Hlt | ]. split; [ exact Hprev | ]. split.
  - intros Hf. by destruct (Hstay Hf) as (-> & -> & _).
  - intros Hf. destruct (Hgrow Hf) as (Hl & Hp & Hbrk & Hcap).
    simpl in Hl, Hbrk. split_and!; try done; lia.
Qed.

Lemma allocate_step a ws size :
  building a ws -> word_aligned a -> 0 < size ->
  exists p a' tail',
    allocate size a = Some (p, a') /\ building a' ws /\ word_aligned a' /\
    pages a' !! last_ a' = Some tail' /\
    cursor_ a <= p /\ storage_begin_ tail' <= p /\
    (p - storage_begin_ tail') mod sizeof_size_t = 0 /\
    p + size <= cursor_ a' /\ cursor_ a' < storage_end_ tail' /\
    cursor_ a < cursor_ a' /\
    prev_cursor_ a' = prev_cursor_ a /\ objects a' = objects a.
Proof.
  intros Hb Hal Hs.
  destruct (allocate_building a ws size Hb Hs)
    as (p & a' & Hcall & Hb' & Hprev & _ & Hobj).
  destruct Hb as (ids & begin & tail & Hg & _).
  pose proof Hb' as (ids' & begin' & tail' & Hg' & _).
  destruct (allocate_geometry a ids begin tail size p a' ids' begin' tail'
              Hg Hal Hs Hcall Hg')
    as (Hal' & Htail' & Hle & Hb1 & Hmod & Hend & Hlt & Hmono & _).
  exists p, a', tail'. split_and!; done.
Qed.

Lemma allocate_all_step sizes :
  forall a ws,
  building a ws -> word_aligned a -> Forall (fun size => 0 < size) sizes ->
  exists a',
    allocate_all sizes a = Some a' /\ building a' ws /\ word_aligned a' /\
    cursor_ a <= cursor_ a' /\ prev_cursor_ a' = prev_cursor_ a /\
    objects a' = objects a.
Proof.
  induction sizes as [|size sizes IH]; intros a ws Hb Hal Hs.
  - exists a. simpl. split_and!; try done; lia.
  - inversion Hs as [|? ? Hs1 Hs2]; subst.
    destruct (allocate_step a ws size Hb Hal Hs1)
      as (p & a1 & tl & Hcall & Hb1 & Hal1 & _ & _ & _ & _ & _ & _ & Hmono
          & Hprev & Hobj).
    destruct (IH a1 ws Hb1 Hal1 Hs2)
      as (a' & Hall & Hb' & Hal' & Hle & Hprev' & Hobj').
    exists a'. simpl. rewrite Hcall. simpl.
    split_and!; try done; try lia; congruence.
Qed.

Lemma word_aligned_set_objects a o :
  word_aligned a -> word_aligned (set_objects o a).
Proof. intros (tail & ? & ? & ?). by exists tail. Qed.

Lemma place_word_aligned a ws (x : submission iostreams) a' :
  wf a ws -> word_aligned a -> 0 < sizeof_item x ->
  Forall (fun size => 0 < size) (payload x) ->
  place x a = Some a' -> word_aligned a'.
Proof.
  intros Hwf Hal Hs Hp Hplace.
  destruct (add_geometry a ws (sizeof_item x) Hwf Hal Hs)
    as (p & a1 & tl & tl1 & Hadd & Hb1 & Hal1 & _).
  destruct (allocate_all_step (payload x) a1 ws Hb1 Hal1 Hp)
    as (a2 & Hall & _ & Hal2 & _).
  unfold place, construct in Hplace. rewrite Hadd in Hplace. simpl in Hplace.
  rewrite Hall in Hplace. simpl in Hplace. injection Hplace as <-.
  by apply word_aligned_set_objects.
Qed.

Lemma impl_clear_word_aligned fuel a ids a' :
  clearable a ids ->
  (exists tail, pages a !! last_ a = Some tail
                /\ capacity tail mod sizeof_size_t = 0) ->
  impl_clear fuel a = Some a' -> word_aligned a'.
Proof.
  intros Hc (tail & Htail & Hcap) Hclear.
  destruct (impl_clear_spec a ids Hc)
    as (tail' & r & Htail' & Hret & Hpg & Hf & Hl & Hcur & _).
  assert (tail' = tail) as -> by congruence.
  assert (returns (fun fuel => impl_clear fuel a) a') as Hret'.
  { apply returns_at with fuel; [ | done ].
    intros n m r0. apply impl_clear_mono. }
  rewrite (returns_inj _ _ _ Hret' Hret).
  exists tail. rewrite Hpg, Hl, Hcur, lookup_singleton_eq.
  split; [ done | ]. split; [ | done ].
  replace (storage_begin_ tail - storage_begin_ tail) with 0 by lia. done.
Qed.

Lemma reachable_arena_word_aligned a ws :
  reachable_arena a ws -> word_aligned a.
Proof.
  induction 1 as [fuel base ep a Hbase Hctor
                 | a ws x a' Hr IH Hs Hp Hplace
                 | fuel a ws a' Hr IH Hclear].
  - pose (a1 := set_last_ base (set_first_ base
           (snd (new_page
                   (4096 - sizeof_size_t * page_break_size_in_std_size_ts)
                   (mk_impl (iostreams := iostreams)
                      0 0 0 0 0 ep 0 ∅ ∅ ∅ base))))).
    change (impl_clear fuel a1 = Some a) in Hctor.
    assert (clearable a1 [base]) as Hc.
    { split; [ | split ].
      - unfold pages_wf. simpl.
        split; [ | split; [ | split ] ].
        + eapply page_list_last. apply lookup_insert_eq.
        + apply NoDup_singleton.
        + done.
        + rewrite dom_insert_L, dom_empty_L. set_solver.
      - intros i x. simpl. rewrite insert_empty.
        intros [<- <-]%lookup_singleton_Some. simpl.
        unfold sizeof_page. lia.
      - eexists _, O, _. simpl. split_and!.
        + apply lookup_insert_eq.
        + simpl. unfold sizeof_page. lia.
        + constructor.
        + simpl. unfold sizeof_page. lia.
        + simpl. apply lookup_insert_eq. }
    eapply impl_clear_word_aligned; [ exact Hc | | exact Hctor ].
    eexists. split; [ simpl; apply lookup_insert_eq | ].
    unfold capacity, index, page_break_size_in_std_size_ts,
      sizeof_page_break, sizeof_page, sizeof_size_t. simpl. zlia.
  - eapply place_word_aligned; eauto. by apply reachable_arena_wf.
  - destruct (wf_clearable a ws (reachable_arena_wf _ _ Hr)) as [ids Hc].
    eapply impl_clear_word_aligned; [ exact Hc | | exact Hclear ].
    destruct IH as (tail & ? & _ & ?). by exists tail.
Qed.



(** X14: a work item whose constructor copies a block of no bytes, as
    [stream::write(s, 0)] does, fails [assert(0 != size)] of [allocate]:
    neither the placement nor the submission returns, on any arena and any
    stream. *)
Theorem a_payload_of_no_bytes_fails_the_assertion (x : submission iostreams) :
  In 0 (payload x) ->
  (forall a, allocate 0 a = None) /\
  (forall a, place x a = None) /\
  (forall fuel (s : tpd_store (allocator iostreams)), submit fuel x s = None).
Proof.
  intros Hin.
  assert (forall sizes a, In 0 sizes -> allocate_all sizes a = None) as Hall.
  { induction sizes as [|size sizes IH]; intros a; [ done | ].
    intros [->|Hrest]; simpl; [ done | ].
    destruct (allocate size a) as [[p a']|]; simpl; [ by apply IH | done ]. }
  assert (forall a, place x a = None) as Hplace.
  { intros a. unfold place, construct.
    destruct (add (sizeof_item x) a) as [[location a']|]; simpl; [ | done ].
    by rewrite Hall. }
  split; [ done | ]. split; [ done | ].
  intros fuel s. unfold submit.
  destruct (begin_insert fuel insert_transaction_ctor s)
    as [[[r t] s']|]; simpl; [ | done ].
  destruct (it_buffer_ t); simpl; [ | done ]. by rewrite Hplace.
Qed.


(** X16: the destructor of a reachable arena returns and leaves no page
    allocated, however many pages the arena had grown to. *)
Theorem the_destructor_frees_every_page a ws :
  reachable_arena a ws ->
  exists a', returns (fun fuel => impl_dtor fuel a) a' /\ pages a' = ∅.
Proof.
  intros Hr.
  destruct (wf_clearable a ws (reachable_arena_wf _ _ Hr)) as [ids Hc].
  destruct (impl_clear_spec a ids Hc)
    as (tail & r & Htail & [N HN] & Hpg & Hf & _).
  exists (delete_page (first_ r) r). split.
  - exists N. intros fuel Hfuel. unfold impl_dtor. by rewrite HN.
  - unfold delete_page. simpl. rewrite Hpg, Hf. apply delete_singleton_eq.
Qed.

End arena_geometry.

(** ** The service, its registry and its runs *)

Section service_theory.
Context {iostreams : Type}.
Variable ostream_flush : iostreams -> iostreams.
Implicit Types pend : list (formatter_or_parser iostreams).
Implicit Types out : outside iostreams.

Lemma service_remove_absent (this : nat) l :
  this ∉ l -> service_remove this l = l.
Proof.
  induction l as [|i l IH]; [ done | ]. intros Hnot.
  apply not_elem_of_cons in Hnot as [Hne Hnot]. simpl.
  destruct (Nat.eqb_spec i this); [ congruence | ]. by rewrite IH.
Qed.

Lemma service_remove_app_absent (this : nat) l l' :
  this ∉ l -> service_remove this (l ++ l') = l ++ service_remove this l'.
Proof.
  induction l as [|i l IH]; [ done | ]. intros Hnot.
  apply not_elem_of_cons in Hnot as [Hne Hnot]. simpl.
  destruct (Nat.eqb_spec i this); [ congruence | ]. by rewrite IH.
Qed.

Lemma service_remove_add (this : nat) l :
  this ∉ l -> service_remove this (service_add this l) = l.
Proof.
  intros Hnot. unfold service_add. rewrite service_remove_app_absent by done.
  simpl. rewrite Nat.eqb_refl. apply app_nil_r.
Qed.

(** X17: [remove] erases the first registration of the stream and nothing
    else: after [add], [remove] gives back a registry the stream was not
    in; removing a stream that is not registered changes nothing; a stream
    registered twice stays registered once. *)
Theorem remove_erases_the_first_registration (this : nat) before after :
  this ∉ before ->
  service_remove this (before ++ this :: after) = before ++ after /\
  service_remove this (service_add this before) = before /\
  service_remove this before = before /\
  service_remove this (service_add this (before ++ this :: after))
  = before ++ after ++ [this].
Proof.
  intros Hnot. split_and!.
  - rewrite service_remove_app_absent by done. simpl.
    by rewrite Nat.eqb_refl.
  - by apply service_remove_add.
  - by apply service_remove_absent.
  - unfold service_add. rewrite <- app_assoc.
    rewrite service_remove_app_absent by done. simpl.
    by rewrite Nat.eqb_refl.
Qed.

Lemma idle_counted (C I : list (formatter_or_parser iostreams)) li le lc :
  Z.of_nat (length C) = le - lc -> Z.of_nat (length I) = li - le ->
  bool_decide (lc < li) = negb (idle (C ++ I)).
Proof.
  intros HC HI. destruct C as [|c C]; [ destruct I as [|i I] | ]; simpl in *.
  - apply bool_decide_eq_false_2. lia.
  - apply bool_decide_eq_true_2. lia.
  - apply bool_decide_eq_true_2. lia.
Qed.

Lemma counted_ctor this base ep (w0 : world iostreams) :
  0 < base ->
  exists s,
    returns (fun fuel => stream_ctor fuel this base ep w0)
      (mk_world (service_add this (streams_ w0)) (Some s) (out_ w0)) /\
    stream_counted ep 1 s [].
Proof.
  intros Hbase.
  destruct (impl_ctor_spec (iostreams := iostreams) base ep Hbase)
    as (a & [N HN] & Hwf & Hep).
  exists (between_calls false false false 1 1 1
            (mk_allocator 0 a) (mk_allocator 0 a) []).
  split.
  - exists N. intros fuel Hf. unfold stream_ctor, allocator_ctor.
    rewrite HN by done. reflexivity.
  - exists false, 1, 1, 1, (mk_allocator 0 a), (mk_allocator 0 a), [], [], [].
    split; [ done | ]. split; [ | done ].
    unfold stream_inv. simpl. split_and!; try done; try lia.
    + exists []. split; [ done | lia ].
    + exists []. split_and!; [ done | lia | done ].
Qed.

Lemma counted_try_drain ep b (s : tpd_store (allocator iostreams)) pend out :
  stream_counted ep b s pend ->
  exists s',
    returns (fun fuel => try_drain fuel s out)
      (negb (idle pend), s',
       foldl (fun out w => apply_caught ep w out) out pend) /\
    stream_counted ep b s' [] /\ tpd_empty (queue s') = Some true.
Proof.
  intros (flip & li & le & lc & pi & pc & tr & C & I & -> & Hinv & -> & HC
          & HI & Hb).
  destruct (try_drain_inv ep flip li le lc pi pc tr C I out Hinv)
    as (flip' & pi' & pc' & tr' & Hret & Hinv').
  exists (between_calls false false flip' li li li pi' pc' tr').
  rewrite <- (idle_counted C I li le lc HC HI). split; [ done | ]. split.
  - exists flip', li, li, li, pi', pc', tr', [], [].
    split_and!; try done; simpl; lia.
  - rewrite tpd_empty_between_calls. by rewrite Z.eqb_refl.
Qed.

Lemma counted_step ep b (s : tpd_store (allocator iostreams)) pend o l out :
  stream_counted ep b s pend -> b + 1 < 2 ^ 64 -> valid_call o ->
  exists s',
    returns
      (fun fuel => stream_step ostream_flush fuel o (mk_world l (Some s) out))
      (mk_world l (Some s') (sink_after ostream_flush ep o pend out)) /\
    stream_counted ep (b + 1) s' (pending_after o pend).
Proof.
  intros Hc Hb Hvalid. destruct o as [x | | ]; simpl in Hvalid.
  - destruct Hc as (flip & li & le & lc & pi & pc & tr & C & I & -> & Hinv
                    & -> & HC & HI & Hli).
    destruct (submit_inv ep x flip li le lc pi pc tr C I Hinv ltac:(lia) Hvalid)
      as (pi' & tr' & [N HN] & Hinv').
    eexists. split.
    + exists N. intros fuel Hf. unfold stream_step. simpl.
      rewrite HN by done. reflexivity.
    + exists flip, (li + 1), le, lc, pi', pc, tr', C, (I ++ [item x]).
      simpl. rewrite length_app. simpl.
      split_and!; try done; try lia. by rewrite app_assoc.
  - destruct Hc as (flip & li & le & lc & pi & pc & tr & C & I & -> & Hinv
                    & -> & HC & HI & Hli).
    destruct (warmup_inv ep flip li le lc pi pc tr C I Hinv)
      as (pi' & tr' & [N HN] & Hinv').
    eexists. split.
    + exists N. intros fuel Hf. unfold stream_step. simpl.
      rewrite HN by done. reflexivity.
    + exists flip, li, le, lc, pi', pc, tr', C, I.
      simpl. split_and!; try done; lia.
  - destruct (counted_try_drain ep b s pend out Hc)
      as (s' & [N HN] & Hc' & _).
    exists s'. split.
    + exists N. intros fuel Hf. unfold stream_step, run. simpl.
      rewrite HN by done. simpl. unfold batch. by destruct pend.
    + destruct Hc' as (flip & li & le & lc & pi & pc & tr & C & I & -> & Hinv
                       & HCI & HC & HI & Hli).
      exists flip, li, le, lc, pi, pc, tr, C, I. split_and!; try done; lia.
Qed.

Lemma counted_steps ep os :
  forall b (s : tpd_store (allocator iostreams)) pend l out,
  stream_counted ep b s pend -> b + Z.of_nat (length os) < 2 ^ 64 ->
  Forall valid_call os ->
  exists s',
    returns
      (fun fuel => stream_steps ostream_flush fuel os (mk_world l (Some s) out))
      (mk_world l (Some s') (serviced ostream_flush ep os pend out).2) /\
    stream_counted ep (b + Z.of_nat (length os)) s'
      (serviced ostream_flush ep os pend out).1.
Proof.
  induction os as [|o os IH]; intros b s pend l out Hc Hb Hvalid.
  - exists s. simpl. split; [ apply returns_const | ].
    by rewrite Z.add_0_r.
  - apply Forall_cons in Hvalid as [Ho Hos]. simpl length in *.
    destruct (counted_step ep b s pend o l out Hc ltac:(lia) Ho)
      as (s1 & Hret1 & Hc1).
    destruct (IH (b + 1) s1 _ l (sink_after ostream_flush ep o pend out)
                Hc1 ltac:(lia) Hos) as (s2 & Hret2 & Hc2).
    exists s2. split.
    + simpl. eapply returns_bind; [ exact Hret1 | exact Hret2 ].
    + replace (b + Z.of_nat (S (length os)))
        with (b + 1 + Z.of_nat (length os)) by lia. done.
Qed.

Lemma counted_dtor ep b (s : tpd_store (allocator iostreams)) pend this l out :
  stream_counted ep b s pend ->
  returns
    (fun fuel => stream_dtor ostream_flush fuel this (mk_world l (Some s) out))
    (mk_world (service_remove this l) None (batch ostream_flush ep pend out)).
Proof.
  intros Hc.
  destruct (counted_try_drain ep b s pend out Hc)
    as (s' & [N HN] & Hc' & Hempty').
  assert (tpd_empty (queue s) = Some (idle pend)) as Hempty.
  { destruct Hc as (flip & li & le & lc & pi & pc & tr & C & I & -> & Hinv
                    & -> & HC & HI & Hli).
    rewrite tpd_empty_between_calls. f_equal.
    destruct Hinv as (Hord & _).
    pose proof (idle_counted C I li le lc HC HI) as Hi.
    destruct (idle (C ++ I)); simpl in Hi.
    - apply bool_decide_eq_false_1 in Hi. lia.
    - apply bool_decide_eq_true_1 in Hi. lia. }
  assert (exists s1,
             returns (fun fuel => stream_dtor_loop ostream_flush fuel fuel s out)
               (s1, batch ostream_flush ep pend out) /\
             stream_counted ep b s1 [])
    as (s1 & [M HM] & Hc1).
  { unfold batch. destruct (idle pend) eqn:Hidle.
    - exists s. split.
      + exists 1%nat. intros fuel Hf. destruct fuel as [|fuel]; [ lia | ].
        rewrite stream_dtor_loop_unfold, Hempty. done.
      + destruct pend; [ done | discriminate ].
    - exists s'. split; [ | done ].
      exists (2 + N)%nat. intros fuel Hf.
      destruct fuel as [|[|fuel]]; try lia.
      rewrite stream_dtor_loop_unfold, Hempty.
      cbn [mbind option_bind]. rewrite HN by lia.
      cbn [mbind option_bind negb].
      rewrite stream_dtor_loop_unfold, Hempty'. done. }
  destruct Hc1 as (flip & li & le & lc & pi & pc & tr & C & I & -> & Hinv
                   & _).
  destruct Hinv as (_ & _ & _ & (wc & Hwc & _) & _ & (wi & Hwi & _) & _).
  destruct (impl_dtor_ok _ _ Hwc) as (ac' & [Nc HNc]).
  destruct (impl_dtor_ok _ _ Hwi) as (ai' & [Ni HNi]).
  exists (M + Nc + Ni)%nat. intros fuel Hf. unfold stream_dtor. simpl.
  rewrite HM by lia. simpl.
  destruct flip; simpl; rewrite ?HNc, ?HNi by lia; simpl;
    rewrite ?HNc, ?HNi by lia; reflexivity.
Qed.



Lemma service_try_drain_counted ep :
  forall (ss : list (tpd_store (allocator iostreams) * outside iostreams))
         (pends : list (list (formatter_or_parser iostreams))) result,
  Forall2 (fun x pend => exists b, stream_counted ep b x.1 pend) ss pends ->
  exists ss',
    returns (fun fuel => service_try_drain fuel result ss)
      (result || negb (forallb idle pends), ss') /\
    Forall (fun x => exists b, stream_counted ep b x.1 [] /\
                     tpd_empty (queue x.1) = Some true) ss' /\
    snd <$> ss'
    = zip_with (fun x pend =>
                  foldl (fun out w => apply_caught ep w out) x.2 pend)
        ss pends.
Proof.
  intros ss pends result H. revert result.
  induction H as [|[s out] pend ss pends [b Hc] _ IH]; intros result.
  - exists []. simpl. rewrite orb_false_r.
    split; [ apply returns_const | done ].
  - destruct (counted_try_drain ep b s pend out Hc)
      as (s' & [N HN] & Hc' & Hempty).
    destruct (IH (if negb (idle pend) then true else result))
      as (ss' & [M HM] & Hall & Houts).
    exists ((s', foldl (fun out w => apply_caught ep w out) out pend) :: ss').
    split; [ | split ].
    + exists (N `max` M)%nat. intros fuel Hf. simpl.
      rewrite HN by lia. simpl. rewrite HM by lia. simpl.
      do 2 f_equal. by destruct (idle pend), result.
    + constructor; [ by exists b | done ].
    + rewrite fmap_cons, Houts. done.
Qed.

Lemma forallb_fmap {A B : Type} (f : B -> bool) (g : A -> B) l :
  forallb f (g <$> l) = forallb (fun x => f (g x)) l.
Proof.
  induction l as [|x l IH]; [ done | ].
  rewrite fmap_cons. simpl. by rewrite IH.
Qed.

Lemma histories_counted ep (hs : list (stream_history iostreams)) :
  Forall valid_history hs ->
  exists ss,
    Forall2 (built ostream_flush ep) hs ss /\
    Forall2 (fun x pend => exists b, stream_counted ep b x.1 pend) ss
      (pending_of ostream_flush ep <$> hs) /\
    snd <$> ss = sink_of ostream_flush ep <$> hs.
Proof.
  induction 1 as [|h hs (Hbase & Hvalid & Hbound) _ (ss & Hb & Hc & Hs)].
  - exists []. by split_and!.
  - destruct (counted_ctor (h_this h) (h_base h) ep (h_world h) Hbase)
      as (s1 & Hret1 & Hc1).
    destruct (counted_steps ep (h_calls h) 1 s1 []
                (service_add (h_this h) (streams_ (h_world h)))
                (out_ (h_world h)) Hc1 ltac:(lia) Hvalid)
      as (s2 & Hret2 & Hc2).
    exists ((s2, sink_of ostream_flush ep h) :: ss). split_and!.
    + constructor; [ | done ]. unfold built. by eapply returns_bind.
    + rewrite fmap_cons. constructor; [ | done ]. by eexists.
    + by rewrite !fmap_cons, Hs.
Qed.


End service_theory.

(* ===================================================================== *)
(** * Part IV: recorded runs                                             *)
(* ===================================================================== *)

Ltac by_evaluation := vm_compute; reflexivity.

(** Evaluate the first conjunct of the goal and keep it as [H]. *)
Ltac evaluated H :=
  match goal with
  | |- ?e = ?v /\ _ =>
      assert (e = v) as H by by_evaluation; split; [ exact H | ]
  end.

Global Instance allocator_buffer_laws {iostreams : Type} :
  buffer_laws (allocator iostreams).
Proof. constructor. reflexivity. Qed.

(** C3: the two commits swap the pages only with both locks taken, but
    [try_consume] swaps them holding [inserting_] alone, whatever the state
    of [consuming_], which it tries to take only afterwards.  In the run
    below the first [try_consume] swaps while nobody holds [consuming_];
    the second one, made while the first consumer still has its transaction
    open, swaps again and hands the page under that transaction back to the
    producers, whose next submission clears it: work item 1 is gone from the
    page the first consumer is draining. *)
Theorem try_consume_switches_pages_without_consuming_lock :
  (forall (buffer_type : Type) (BT : buffer_ops buffer_type)
          t (s : tpd_store buffer_type) t' s',
      insert_transaction_commit t s = Some (t', s') ->
      locked inserting s = true ->
      exists evs, trace s' = trace s ++ evs /\ under_both_locks evs) /\
  (forall (buffer_type : Type) (BT : buffer_ops buffer_type)
          t (s : tpd_store buffer_type) t' s',
      consume_transaction_commit t s = Some (t', s') ->
      locked consuming s = true ->
      exists evs, trace s' = trace s ++ evs /\ under_both_locks evs) /\
  (forall (buffer_type : Type) (BT : buffer_ops buffer_type)
          t (s : tpd_store buffer_type) r t' s',
      try_consume t s = Some (r, t', s') ->
      last_enqueued s <= last_consumed s ->
      last_enqueued s < last_inserted s ->
      locked inserting s = false ->
      exists evs,
        trace s' = trace s ++ [ev_lock inserting;
                               ev_switch_pages true (locked consuming s)]
                           ++ evs) /\
  exists w s0 s1 r t s2 s3 r' t' s4 s5,
    stream_ctor 1 7 4096 false (mk_world [] None (mk_outside [] [])) = Some w /\
    stream_impl_ w = Some s0 /\
    submit 1 (mk_submission (formatter 1) 8 []) s0 = Some s1 /\
    try_consume consume_transaction_ctor s1 = Some (r, t, s2) /\
    trace s2 = trace s1 ++ [ev_lock inserting; ev_switch_pages true false;
                            ev_unlock inserting; ev_lock consuming] /\
    ~ under_both_locks (trace s2) /\
    outcome_ r = cr_success /\
    ct_parent_ t = true /\ ct_buffer_ t = Some buffer1 /\
    drain 2 (impl_ (deref buffer1 s2)) (mk_outside [] [])
      = Some (mk_outside [1%nat] []) /\
    submit 1 (mk_submission (formatter 2) 8 []) s2 = Some s3 /\
    try_consume consume_transaction_ctor s3 = Some (r', t', s4) /\
    outcome_ r' = cr_too_many_consumers /\
    trace s4 = trace s3 ++ [ev_lock inserting; ev_switch_pages true true;
                            ev_unlock inserting] /\
    inserter_ (queue s4) = ct_buffer_ t /\
    submit 3 (mk_submission (formatter 3) 8 []) s4 = Some s5 /\
    locked consuming s5 = true /\
    drain 2 (impl_ (deref buffer1 s5)) (mk_outside [] [])
      = Some (mk_outside [3%nat] []).
Proof.
  split; [ intros; by eapply insert_commit_switches_under_both_locks | ].
  split; [ intros; by eapply consume_commit_switches_under_both_locks | ].
  split; [ intros; by eapply try_consume_switches_whatever_consuming | ].
  do 11 eexists.
  do 5 (split; [ by_evaluation | ]).
  split.
  { intros Hboth.
    destruct (Hboth true false) as [_ Hcl]; [ | discriminate Hcl ].
    vm_compute. set_solver. }
  repeat (split; [ by_evaluation | ]). by_evaluation.
Qed.

(** The first [try_consume] after one submission swaps the pages while
    [consuming_] is free. *)
Lemma try_consume_switch_run :
  exists w s0 s1 r t s2,
    stream_ctor 1 7 4096 false (mk_world [] None (mk_outside [] [])) = Some w /\
    stream_impl_ w = Some s0 /\
    submit 1 (mk_submission (formatter 1) 8 []) s0 = Some s1 /\
    try_consume consume_transaction_ctor s1 = Some (r, t, s2) /\
    locked consuming s1 = false /\
    last_enqueued s1 <= last_consumed s1 /\
    last_enqueued s1 < last_inserted s1 /\
    locked inserting s1 = false /\
    exists evs,
      trace s2 = trace s1 ++ [ev_lock inserting; ev_switch_pages true false]
                          ++ evs.
Proof.
  do 6 eexists. evaluated Hw. evaluated Hs0. evaluated Hs1. evaluated Hs2.
  evaluated Hfree.
  match goal with
  | |- ?a <= ?b /\ ?c < ?d /\ ?e = false /\ _ =>
      assert (a <= b) as Hle by (vm_compute; discriminate);
      assert (c < d) as Hlt by by_evaluation;
      assert (e = false) as Hins by by_evaluation
  end.
  split; [ exact Hle | ]. split; [ exact Hlt | ]. split; [ exact Hins | ].
  pose proof (proj1 (proj2 (proj2
                try_consume_switches_pages_without_consuming_lock))
                _ _ _ _ _ _ _ Hs2 Hle Hlt Hins) as [evs Hevs].
  rewrite Hfree in Hevs. exists evs. exact Hevs.
Defined.


(** One insertion, then a [try_consume] that succeeds. *)
Lemma try_consume_consumed_run :
  exists page s0 s1 t1 s2 r t s3,
    allocator_ctor (iostreams := list nat) 1 4096 false = Some page /\
    init (Some buffer1) (Some buffer2) (mk_store tpd_ctor page page []) = Some s0 /\
    begin_insert 1 insert_transaction_ctor s0 = Some (mk_insert_result true, t1, s1) /\
    insert_transaction_commit t1 s1 = Some (insert_transaction_ctor, s2) /\
    try_consume consume_transaction_ctor s2 = Some (r, t, s3) /\
    consumed r = true /\
    outcome_ r = cr_success /\
    cr_success = Z.lor cr_consumed cr_queue_not_empty /\
    queue_not_empty r = true.
Proof.
  do 8 eexists.
  split; [ by_evaluation | ]. split; [ by_evaluation | ].
  split; [ by_evaluation | ]. split; [ by_evaluation | ].
  match goal with
  | |- try_consume ?t ?s = Some (?r, ?t', ?s') /\ _ =>
      assert (try_consume (buffer_type := allocator (list nat)) t s
              = Some (r, t', s')) as H by by_evaluation
  end.
  split; [ exact H | ].
  split; [ reflexivity | ].
  exact (try_consume_consumed_implies_queue_not_empty _ _ _ _ _ H eq_refl).
Defined.




(** An arena that has grown to two pages keeps the second one. *)
Lemma clear_retains_tail_page_run :
  exists a0 a1,
    impl_ctor 1 4096 false = Some a0 /\
    place (mk_submission (formatter 1) 8 [5000]) a0 = Some a1 /\
    first_ a1 = 4096 /\ last_ a1 = 8216 /\
    pages a1 !! 8216 = Some (mk_page 8240 18232 0) /\
    exists ids a',
      clearable a1 ids /\
      returns (fun fuel => impl_clear fuel a1) a' /\
      pages a' = {[ 8216 := mk_page 8240 18232 0 ]} /\
      first_ a' = 8216 /\ last_ a' = 8216 /\
      cells a' !! 8240 = Some 0 /\ cursor_ a' = 8240 /\
      returns (fun fuel => impl_clear fuel a') a'.
Proof.
  do 2 eexists. evaluated H0. evaluated H1.
  evaluated Hfirst. evaluated Hlast. evaluated Htail.
  pose proof (reach_place _ _ (mk_submission (formatter 1) 8 [5000]) _
                (reach_ctor 1 4096 false _ ltac:(lia) H0)
                ltac:(simpl; lia) ltac:(repeat constructor; lia) H1) as H.
  pose proof (wf_clearable _ _ (reachable_arena_wf _ _ H)) as [ids Hc].
  pose proof (clear_retains_tail_page_and_is_idempotent _ ids Hc)
    as (tail & a' & Ht & Hret & Hpg & Hf & Hl & Hcell & Hcur & _ & _ & Hagain).
  rewrite Hlast in Ht, Hpg, Hf, Hl. rewrite Htail in Ht.
  injection Ht as <-. simpl in Hcell, Hcur.
  exists ids, a'. repeat (split; [ assumption | ]). assumption.
Defined.

(** C4 as stated fails: on an arena that has grown to two pages, [clear]
    deletes the head page (at 4096) and retains the tail page (at 8216),
    which becomes the head. *)
Lemma clear_frees_the_head_page :
  exists a0 a1 a',
    impl_ctor 1 4096 false = Some a0 /\
    place (mk_submission (formatter 1) 8 [5000]) a0 = Some a1 /\
    first_ a1 = 4096 /\ last_ a1 = 8216 /\
    pages a1 !! 4096 = Some (mk_page 4120 8208 8216) /\
    pages a1 !! 8216 = Some (mk_page 8240 18232 0) /\
    impl_clear 2 a1 = Some a' /\
    pages a' !! 4096 = None /\
    pages a' !! 8216 = Some (mk_page 8240 18232 0) /\
    first_ a' = 8216 /\ first_ a' <> first_ a1 /\
    cursor_ a' = 8240 /\ cells a' !! 8240 = Some 0 /\
    impl_clear 2 a' = Some a'.
Proof.
  do 3 eexists. repeat (split; [ by_evaluation | ]).
  split; [ vm_compute; discriminate | ].
  repeat (split; [ by_evaluation | ]). by_evaluation.
Qed.


(** A record of 5000 bytes on a fresh arena: the new page has 10008 bytes,
    not the 10016 that twice the requested 5008 would give. *)
Lemma add_grows_run :
  exists a0,
    impl_ctor (iostreams := list nat) 1 4096 false = Some a0 /\
    pages a0 !! last_ a0 = Some (mk_page 4120 8208 0) /\
    reachable_arena a0 [] /\ 0 < 5000 /\
    ~ fits a0 (5000 + sizeof_size_t) /\
    exists p a' fresh,
      add 5000 a0 = Some (p, a') /\
      pages a' !! last_ a' = Some fresh /\
      capacity (mk_page 4120 8208 0) = 4088 /\
      capacity fresh = 10008 /\
      Z.max (2 * 4088) (2 * (5000 + sizeof_size_t)) = 10016.
Proof.
  eexists. evaluated H0. evaluated Htail.
  pose proof (reach_ctor 1 4096 false _ ltac:(lia) H0) as H.
  match goal with
  | |- _ /\ _ /\ ~ fits ?a ?n /\ _ =>
      assert (~ fits a n) as Hfit by (vm_compute; discriminate)
  end.
  split; [ exact H | ]. split; [ lia | ]. split; [ exact Hfit | ].
  pose proof (add_grows_to_twice_tail_or_twice_size_less_one _ _ 5000 H
                ltac:(lia) Hfit)
    as (tail & p & a' & fresh & Ht & Hadd & Hfresh & _ & Hcap & _).
  rewrite Htail in Ht. injection Ht as <-.
  exists p, a', fresh.
  split; [ exact Hadd | ]. split; [ exact Hfresh | ].
  split; [ reflexivity | ]. split; [ exact Hcap | reflexivity ].
Defined.


(** ** Runs of the queue, the arena and the service *)

(** Prove a closed statement about sequence numbers, locks and pointers of
    a concrete store by evaluating it. *)
Ltac holds_by_evaluation :=
  vm_compute;
  repeat match goal with
         | |- _ /\ _ => split
         | |- _ -> _ => intro
         | |- _ \/ _ =>
             first [ left; split; reflexivity | right; split; reflexivity ]
         end;
  first [ reflexivity | discriminate | assumption ].

(** A queue that was not initialised refuses every call; [init] opens it
    empty and refuses to run twice. *)
Lemma init_opens_an_empty_queue_run :
  exists page,
    allocator_ctor (iostreams := list nat) 1 4096 false = Some page /\
    initialized (queue (mk_store tpd_ctor page page [])) = false /\
    try_consume consume_transaction_ctor (mk_store tpd_ctor page page [])
    = None /\
    exists s',
      init (Some buffer1) (Some buffer2) (mk_store tpd_ctor page page [])
      = Some s' /\
      tpd_empty (queue s') = Some true /\ tpd_size (queue s') = 0 /\
      init (Some buffer1) (Some buffer2) s' = None.
Proof.
  eexists. evaluated Hpage.
  match goal with
  | |- initialized (queue ?s) = false /\ _ =>
      assert (initialized (queue s) = false) as Hi by reflexivity;
      pose proof (init_opens_an_empty_queue s Hi) as (Hbefore & _ & Hinit)
  end.
  split; [ exact Hi | ].
  split; [ exact (proj1 (proj2 (proj2 (Hbefore O insert_transaction_ctor
                                         consume_transaction_ctor)))) | ].
  pose proof (Hinit buffer1 buffer2)
    as (s' & Hs' & _ & Hempty & Hsize & _ & _ & _ & _ & _ & _ & _ & Hagain).
  exists s'. split; [ exact Hs' | ]. split; [ exact Hempty | ].
  split; [ exact Hsize | apply Hagain ].
Defined.

(** Two insertions committed, one consumed: one is left. *)
Lemma size_counts_what_is_not_consumed_run :
  exists page s0 y1 y2 y3 y4 y5 y6,
    allocator_ctor (iostreams := list nat) 1 4096 false = Some page /\
    init (Some buffer1) (Some buffer2) (mk_store tpd_ctor page page [])
    = Some s0 /\
    step (op_begin_insert 1)
      (mk_system s0 insert_transaction_ctor consume_transaction_ctor)
    = Some y1 /\
    step op_insert_commit y1 = Some y2 /\
    step op_try_consume y2 = Some y3 /\
    step op_consume_commit y3 = Some y4 /\
    step (op_begin_insert 1) y4 = Some y5 /\
    step op_insert_commit y5 = Some y6 /\
    reachable 6 y6 /\ Z.of_nat 6 + 2 < 2 ^ 64 /\
    last_inserted (sys_store y6) = 3 /\ last_consumed (sys_store y6) = 2 /\
    tpd_size (queue (sys_store y6)) = 1 /\
    tpd_empty (queue (sys_store y6)) = Some false.
Proof.
  do 8 eexists.
  evaluated Hpage. evaluated Hinit. evaluated H1. evaluated H2.
  evaluated H3. evaluated H4. evaluated H5. evaluated H6.
  pose proof (reach_step 5 _ _ _ (reach_step 4 _ _ _ (reach_step 3 _ _ _
               (reach_step 2 _ _ _ (reach_step 1 _ _ _
                 (reach_step 0 _ _ _ (reach_init _ _ _ Hinit) H1) H2) H3) H4)
               H5) H6) as H.
  assert (Z.of_nat 6 + 2 < 2 ^ 64) as Hn by (vm_compute; reflexivity).
  split; [ exact H | ]. split; [ exact Hn | ].
  evaluated Hli. evaluated Hlc.
  pose proof (size_counts_what_is_not_consumed 6 _ H Hn)
    as (Hsize & _ & Hempty).
  rewrite Hli, Hlc in Hsize. split; [ exact Hsize | ].
  rewrite Hsize in Hempty. exact Hempty.
Defined.

(** A second consumer, while the first has its transaction open. *)
Lemma try_consume_while_consuming_is_held_run :
  exists page s0 r1 t1 s1 t2 s2 r t s3 r' t' s4,
    allocator_ctor (iostreams := list nat) 1 4096 false = Some page /\
    init (Some buffer1) (Some buffer2) (mk_store tpd_ctor page page [])
    = Some s0 /\
    begin_insert 1 insert_transaction_ctor s0 = Some (r1, t1, s1) /\
    insert_transaction_commit t1 s1 = Some (t2, s2) /\
    try_consume consume_transaction_ctor s2 = Some (r, t, s3) /\
    locked consuming s3 = true /\
    try_consume consume_transaction_ctor s3 = Some (r', t', s4) /\
    consumed r' = false /\ t' = consume_transaction_ctor /\
    locked consuming s4 = true /\ last_consumed s4 = last_consumed s3.
Proof.
  do 13 eexists.
  evaluated Hpage. evaluated Hinit. evaluated H1. evaluated H2. evaluated H3.
  evaluated Hheld. evaluated H4.
  exact (try_consume_never_consumes_while_consuming_is_held _ _ _ _ _
           Hheld H4).
Defined.


(** One insertion committed, both locks free: [try_consume] swaps the pages
    and takes the page of the insertion. *)
Lemma try_consume_succeeds_on_an_idle_queue_with_work_run :
  exists page s0 r1 t1 s1 t2 s2,
    allocator_ctor (iostreams := list nat) 1 4096 false = Some page /\
    init (Some buffer1) (Some buffer2) (mk_store tpd_ctor page page [])
    = Some s0 /\
    begin_insert 1 insert_transaction_ctor s0 = Some (r1, t1, s1) /\
    insert_transaction_commit t1 s1 = Some (t2, s2) /\
    tpd_inv 2 s2 /\
    locked inserting s2 = false /\ locked consuming s2 = false /\
    last_consumed s2 < last_inserted s2 /\
    exists t s',
      try_consume consume_transaction_ctor s2
      = Some (mk_consume_result cr_success, t, s') /\
      ct_buffer_ t = consumer_ (queue s') /\
      stamp (ct_buffer_ t) s' = last_consumed s' /\
      last_consumed s' = last_inserted s2.
Proof.
  do 7 eexists.
  evaluated Hpage. evaluated Hinit. evaluated H1. evaluated H2.
  match goal with
  | |- ?P /\ _ => assert P as Hinv by holds_by_evaluation
  end.
  split; [ exact Hinv | ]. evaluated Hi. evaluated Hc.
  match goal with
  | |- ?P /\ _ => assert P as Hlt by holds_by_evaluation
  end.
  split; [ exact Hlt | ].
  pose proof (try_consume_succeeds_on_an_idle_queue_with_work _ _ Hinv Hi Hc
                Hlt)
    as (t & s' & Hcall & _ & Hb & _ & _ & _ & _ & Hst & Hlc & _).
  exists t, s'. split; [ exact Hcall | ]. split; [ exact Hb | ].
  split; [ exact Hst | ]. rewrite Hlc. by_evaluation.
Defined.

(** The first [begin_insert] after [init] reports a new page. *)
Lemma begin_insert_reports_a_new_page_run :
  exists page s0 r t s',
    allocator_ctor (iostreams := list nat) 1 4096 false = Some page /\
    init (Some buffer1) (Some buffer2) (mk_store tpd_ctor page page [])
    = Some s0 /\
    tpd_inv 1 s0 /\ 1 + 1 < 2 ^ 64 /\
    begin_insert 1 insert_transaction_ctor s0 = Some (r, t, s') /\
    inserting_into_new_page r = true /\
    t = mk_insert_transaction (Some buffer1) true /\
    last_inserted s' = 2 /\ locked inserting s' = true.
Proof.
  do 5 eexists. evaluated Hpage. evaluated Hinit.
  match goal with
  | |- ?P /\ _ => assert P as Hinv by holds_by_evaluation
  end.
  split; [ exact Hinv | ].
  assert (1 + 1 < 2 ^ 64) as Hb by (vm_compute; reflexivity).
  split; [ exact Hb | ]. evaluated Hcall.
  pose proof (begin_insert_reports_a_new_page_after_a_swap _ _ _ _ _ _ Hinv
                Hb Hcall) as (Hr & Ht & _ & Hl & Hli & _).
  split; [ rewrite Hr; by_evaluation | ].
  split; [ rewrite Ht; by_evaluation | ].
  split; [ rewrite Hli; by_evaluation | exact Hl ].
Defined.

(** [warmup_before_inserting] on a queue that was just initialised. *)
Lemma warmup_spares_begin_insert_the_clear_run :
  exists page s0 s1,
    allocator_ctor (iostreams := list nat) 1 4096 false = Some page /\
    init (Some buffer1) (Some buffer2) (mk_store tpd_ctor page page [])
    = Some s0 /\
    warmup_before_inserting 1 s0 = Some s1 /\
    locked inserting s1 = false /\
    last_enqueued s1 <= stamp (inserter_ (queue s1)) s1 /\
    exists r t s2,
      forall fuel, begin_insert fuel insert_transaction_ctor s1
                   = Some (r, t, s2).
Proof.
  do 3 eexists. evaluated Hpage. evaluated Hinit. evaluated Hwarm.
  pose proof (warmup_spares_begin_insert_the_clear _ _ _ Hwarm)
    as (Hl & _ & _ & _ & _ & _ & Hst & _ & r & t & s2 & Hcall & _).
  split; [ exact Hl | ]. split; [ exact Hst | ].
  exists r, t, s2. exact Hcall.
Defined.

(** A consumer arrives while the first insertion is open: it leaves its
    complaint, the commit swaps the pages for it, and its next attempt
    takes the page of the insertion. *)
Lemma producer_swaps_for_a_consumer_it_blocked_run :
  exists page s0 r1 t1 s1,
    allocator_ctor (iostreams := list nat) 1 4096 false = Some page /\
    init (Some buffer1) (Some buffer2) (mk_store tpd_ctor page page [])
    = Some s0 /\
    begin_insert 1 insert_transaction_ctor s0 = Some (r1, t1, s1) /\
    tpd_inv 2 s1 /\
    locked inserting s1 = true /\ locked consuming s1 = false /\
    it_parent_ t1 = true /\
    last_enqueued s1 <= last_consumed s1 /\
    last_enqueued s1 < last_inserted s1 /\
    inserter_switched_pages_ (queue s1) = consumer_couldnt_switch_ (queue s1) /\
    0 <= consumer_couldnt_switch_ (queue s1) < 2 ^ 64 /\
    exists s2 s3 t4 s4,
      try_consume consume_transaction_ctor s1
      = Some (mk_consume_result cr_queue_not_empty, consume_transaction_ctor,
              s2) /\
      insert_transaction_commit t1 s2 = Some (insert_transaction_ctor, s3) /\
      try_consume consume_transaction_ctor s3
      = Some (mk_consume_result cr_success, t4, s4) /\
      ct_buffer_ t4 = Some buffer1 /\ last_consumed s4 = 2.
Proof.
  do 5 eexists. evaluated Hpage. evaluated Hinit. evaluated H1.
  match goal with
  | |- ?P /\ _ => assert P as Hinv by holds_by_evaluation
  end.
  split; [ exact Hinv | ]. evaluated Hi. evaluated Hc. evaluated Hp.
  match goal with
  | |- ?P /\ ?Q /\ _ =>
      assert P as Hle by holds_by_evaluation;
      assert Q as Hlt by holds_by_evaluation
  end.
  split; [ exact Hle | ]. split; [ exact Hlt | ]. evaluated Hsw.
  match goal with
  | |- ?P /\ _ => assert P as Hr by holds_by_evaluation
  end.
  split; [ exact Hr | ].
  pose proof (producer_swaps_for_a_consumer_it_blocked _ _ _ Hinv Hi Hc Hp
                Hle Hlt Hsw Hr)
    as (s2 & s3 & t4 & s4 & Hcall1 & _ & _ & Hcommit & _ & _ & _ & _ & _ & _
        & Hcall2 & Hb & Hlc & _).
  exists s2, s3, t4, s4. split; [ exact Hcall1 | ].
  split; [ exact Hcommit | ]. split; [ exact Hcall2 | ].
  split; [ rewrite Hb; by_evaluation | rewrite Hlc; by_evaluation ].
Defined.

(** A producer and one consumer, both with their transactions open. *)
Lemma one_consumer_never_shares_a_page_run :
  exists page s0 y1 y2 y3 y4,
    allocator_ctor (iostreams := list nat) 1 4096 false = Some page /\
    init (Some buffer1) (Some buffer2) (mk_store tpd_ctor page page [])
    = Some s0 /\
    step (op_begin_insert 1)
      (mk_system s0 insert_transaction_ctor consume_transaction_ctor)
    = Some y1 /\
    step op_insert_commit y1 = Some y2 /\
    step op_try_consume y2 = Some y3 /\
    step (op_begin_insert 1) y3 = Some y4 /\
    reachable_with_one_consumer 4 y4 /\ Z.of_nat 4 + 2 < 2 ^ 64 /\
    it_parent_ (producer_txn y4) = true /\
    ct_parent_ (consumer_txn y4) = true /\
    it_buffer_ (producer_txn y4) <> ct_buffer_ (consumer_txn y4) /\
    inserter_ (queue (sys_store y4)) <> consumer_ (queue (sys_store y4)).
Proof.
  do 6 eexists.
  evaluated Hpage. evaluated Hinit. evaluated H1. evaluated H2.
  evaluated H3. evaluated H4.
  pose proof (reach1_step 3 _ (op_begin_insert 1) _
               (reach1_step 2 _ op_try_consume _
                 (reach1_step 1 _ op_insert_commit _
                   (reach1_step 0 _ (op_begin_insert 1) _
                      (reach1_init _ _ _ Hinit)
                      ltac:(intros Ho; discriminate Ho) H1)
                   ltac:(intros Ho; discriminate Ho) H2)
                 ltac:(intros _; reflexivity) H3)
               ltac:(intros Ho; discriminate Ho) H4) as H.
  assert (Z.of_nat 4 + 2 < 2 ^ 64) as Hn by (vm_compute; reflexivity).
  split; [ exact H | ]. split; [ exact Hn | ].
  evaluated Hi. evaluated Hc.
  pose proof (one_consumer_never_shares_a_page_with_the_producer 4 _ H Hn)
    as (_ & Hne & Hopen).
  split; [ exact (proj1 (Hopen Hi Hc)) | exact Hne ].
Defined.

(** A producer with its transaction open, no consumer. *)
Lemma locks_are_held_by_the_open_transactions_run :
  exists page s0 y1,
    allocator_ctor (iostreams := list nat) 1 4096 false = Some page /\
    init (Some buffer1) (Some buffer2) (mk_store tpd_ctor page page [])
    = Some s0 /\
    step (op_begin_insert 1)
      (mk_system s0 insert_transaction_ctor consume_transaction_ctor)
    = Some y1 /\
    reachable 1 y1 /\ Z.of_nat 1 + 2 < 2 ^ 64 /\
    it_parent_ (producer_txn y1) = true /\
    locked inserting (sys_store y1) = true /\
    locked consuming (sys_store y1) = ct_parent_ (consumer_txn y1) /\
    last_enqueued (sys_store y1) < last_inserted (sys_store y1).
Proof.
  do 3 eexists. evaluated Hpage. evaluated Hinit. evaluated H1.
  pose proof (reach_step 0 _ _ _ (reach_init _ _ _ Hinit) H1) as H.
  assert (Z.of_nat 1 + 2 < 2 ^ 64) as Hn by (vm_compute; reflexivity).
  split; [ exact H | ]. split; [ exact Hn | ]. evaluated Hi.
  pose proof (locks_are_held_exactly_by_the_open_transactions 1 _ H Hn)
    as (Hl & Hc & Hlt).
  split; [ rewrite Hl; exact Hi | ]. split; [ exact Hc | exact (Hlt Hi) ].
Defined.



(** [stream::write(s, 0)]: a work item that copies a block of no bytes. *)
Lemma a_payload_of_no_bytes_fails_the_assertion_run :
  In 0 (payload (mk_submission (formatter 1) 8 [0])) /\
  exists a0 s0 w,
    impl_ctor (iostreams := list nat) 1 4096 false = Some a0 /\
    place (mk_submission (formatter 1) 8 [0]) a0 = None /\
    stream_ctor 1 7 4096 false recorded_world = Some w /\
    stream_impl_ w = Some s0 /\
    submit 1 (mk_submission (formatter 1) 8 [0]) s0 = None.
Proof.
  assert (In 0 (payload (mk_submission (formatter 1) 8 [0]))) as Hin
    by (left; reflexivity).
  split; [ exact Hin | ].
  pose proof (a_payload_of_no_bytes_fails_the_assertion _ Hin)
    as (_ & Hplace & Hsubmit).
  do 3 eexists. evaluated H0. split; [ apply Hplace | ].
  evaluated Hw. evaluated Hs. apply Hsubmit.
Defined.


(** An arena grown to two pages is destroyed: no page is left. *)
Lemma the_destructor_frees_every_page_run :
  exists a0 a1,
    impl_ctor (iostreams := list nat) 1 4096 false = Some a0 /\
    place (mk_submission (formatter 1) 8 [5000]) a0 = Some a1 /\
    reachable_arena a1 [formatter 1] /\
    size (pages a1) = 2%nat /\
    exists a', returns (fun fuel => impl_dtor fuel a1) a' /\ pages a' = ∅.
Proof.
  do 2 eexists. evaluated H0. evaluated H1.
  pose proof (reach_place _ _ (mk_submission (formatter 1) 8 [5000]) _
                (reach_ctor 1 4096 false _ ltac:(lia) H0)
                ltac:(simpl; lia) ltac:(repeat constructor) H1) as H.
  split; [ exact H | ]. split; [ by_evaluation | ].
  exact (the_destructor_frees_every_page _ _ H).
Defined.

(** Stream 7 is registered after 3, and once more after 5. *)
Lemma remove_erases_the_first_registration_run :
  (7 ∉ [3])%nat /\
  service_remove 7 ([3] ++ 7 :: [5])%nat = [3; 5]%nat /\
  service_remove 7 (service_add 7 [3%nat]) = [3%nat] /\
  service_remove 7 [3%nat] = [3%nat] /\
  service_remove 7 (service_add 7 ([3] ++ 7 :: [5])%nat) = [3; 5; 7]%nat.
Proof.
  assert (7 ∉ [3])%nat as Hnot
    by (apply (bool_decide_unpack _); vm_compute; exact I).
  split; [ exact Hnot | ].
  exact (remove_erases_the_first_registration 7 [3%nat] [5%nat] Hnot).
Defined.



